(** * osclab_basic: Euler and Euler-Cromer integration of oscillators

    A shallow embedding of the three code cells of [osclab_basic.ipynb]
    (undamped, damped and driven oscillator) and the properties of the
    integration loops they contain.

    The notebook computes in IEEE-754 binary64 ([float] / [numpy.float64]).
    The cells are embedded once, over an interface [Arith] of the arithmetic
    operations they use, and the interface is instantiated twice:
    - [float64_arith]: binary64 with round-to-nearest-even, through the
      executable specification [SpecFloat] of the standard library; this is
      the arithmetic the notebook runs in;
    - [R_arith]: the real numbers, the arithmetic the formulas of the
      notebook's text are written in.

    The angular frequency [om] is the one parameter whose Python type
    matters: the laws compute [om**2], which is exact integer arithmetic
    for an int (the notebook assigns 5, 2 and 2) and a call of the C
    library's [pow] for a float, and which can raise [OverflowError].  The
    cells are therefore embedded over the type of [om] as well, through
    the interface [Number].  The other scalar parameters are numbers of the
    arithmetic.
    Plotting ([matplotlib]) is not modelled: it only reads the arrays. *)

From Stdlib Require Import ZArith List Bool Lia.
From Stdlib Require Import Reals Lra.
From Stdlib Require Import Floats.SpecFloat.
From stdpp Require Import base list.

#[local] Open Scope Z_scope.

(** ** Python exceptions and the error monad *)

Inductive exn : Type :=
| ZeroDivisionError   (* a Python scalar division by zero *)
| ValueError          (* a negative number of samples *)
| IndexError          (* an array index out of bounds *)
| OverflowError.      (* a float power or an int conversion out of range *)

Inductive result (A : Type) : Type :=
| Ok (a : A)
| Raise (e : exn).
Arguments Ok {A} a.
Arguments Raise {A} e.

#[global] Instance result_ret : MRet result := fun _ a => Ok a.
#[global] Instance result_bind : MBind result := fun _ _ f m =>
  match m with
  | Ok a => f a
  | Raise e => Raise e
  end.

Definition is_ok {A} (r : result A) : bool :=
  match r with Ok _ => true | Raise _ => false end.

(** ** The arithmetic interface *)

(** The numbers of a cell: the scalar parameters ([x0], [v0], [tmax], ...)
    and the entries of the arrays.  The step count [N] and the loop index
    [i] are Python ints ([Z] and [nat]); where an int meets a number it is
    converted by [of_int]. *)
Class Arith (F : Type) : Type := {
  of_int : Z → F;            (* the number nearest to a Python int *)
  fadd : F → F → F;          (* +  *)
  fsub : F → F → F;          (* -  *)
  fmul : F → F → F;          (* *  *)
  fdiv : F → F → F;          (* /  without the zero check of Python scalars *)
  fneg : F → F;              (* unary - *)
  is_zero : F → bool;        (* == 0 *)
  is_inf : F → bool;         (* an infinity *)
}.

(** [np.pi], [np.sin] and [np.cos]. *)
Class Trig (F : Type) : Type := {
  np_pi : F;
  np_sin : F → F;
  np_cos : F → F;
}.

(** ** The Python type of [om] *)

(** What the cells do with [om], for a value of a Python type [O]: they
    square it, negate the square, and use it (or the negated square) as an
    operand of an operation with a float: the entry [x[i]] of an array, the
    scalar [ze], or the array [t] in [ex_sol].  For an int the square and
    the negation are exact, and the int is converted to a float when it
    meets one; for a float the square is the float power of Python.  The
    instances are [int_number], [float64_number] and [R_number]. *)
Class Number (O F : Type) : Type := {
  py_pow2 : O → result O;      (* om ** 2 *)
  py_neg : O → O;              (* - om *)
  py_float : O → result F;     (* om as the operand of a float operation *)
}.

(** ** Python and NumPy primitives *)

Section Primitives.
Context {F : Type} `{Arith F}.

(** [a / b] on Python scalars: raises on a zero divisor. *)
Definition py_div (a b : F) : result F :=
  if is_zero b then Raise ZeroDivisionError else Ok (fdiv a b).

(** A Python int as the operand of an operation with a float: the int is
    converted to the nearest float, and [OverflowError] is raised when
    that is beyond the largest float. *)
Definition float_of_int (z : Z) : result F :=
  if is_inf (of_int z) then Raise OverflowError else Ok (of_int z).

(** The product [a * a]. *)
Definition sqr (a : F) : F := fmul a a.

(** [arr[i]] as an expression. *)
Definition getitem (arr : list F) (i : nat) : result F :=
  match arr !! i with
  | Some a => Ok a
  | None => Raise IndexError
  end.

(** [arr[i] = a]: the array is updated in place. *)
Definition setitem (arr : list F) (i : nat) (a : F) : result (list F) :=
  if decide (i < length arr)%nat then Ok (<[i:=a]> arr) else Raise IndexError.

(** [np.zeros(num)]. *)
Definition np_zeros (num : Z) : result (list F) :=
  if num <? 0 then Raise ValueError
  else Ok (replicate (Z.to_nat num) (of_int 0)).

(** [np.arange(0, num)] as floating-point values. *)
Definition np_arange (num : Z) : list F :=
  map (fun i : nat => of_int (Z.of_nat i)) (seq 0 (Z.to_nat num)).

(** [np.linspace(start, stop, num)], after NumPy's implementation:
    [div = num - 1], [delta = stop - start], [step = delta / div],
    [y = arange(0, num) * step + start] (with the detour through
    [y / div * delta] when [step] underflows to zero), and the last
    sample is overwritten by [stop] when [num > 1]. *)
Definition np_linspace (start stop : F) (num : Z) : result (list F) :=
  if num <? 0 then Raise ValueError
  else
    let div := num - 1 in
    let delta := fsub stop start in
    let y := np_arange num in
    let y :=
      if 0 <? div then
        let step := fdiv delta (of_int div) in
        if is_zero step
        then map (fun e => fmul (fdiv e (of_int div)) delta) y
        else map (fun e => fmul e step) y
      else map (fun e => fmul e delta) y in
    let y := map (fun e => fadd e start) y in
    Ok (if 1 <? num then <[Z.to_nat (num - 1) := stop]> y else y).

(** [for i in range(0, N): body]: the body is run for [i = 0 .. N-1] in
    order, and the first exception ends the loop. *)
Fixpoint for_each {S : Type} (body : nat → S → result S)
    (idx : list nat) (s : S) : result S :=
  match idx with
  | [] => Ok s
  | i :: idx' => s' ← body i s; for_each body idx' s'
  end.

Definition for_range {S : Type} (N : Z) (body : nat → S → result S)
    (s : S) : result S :=
  for_each body (seq 0 (Z.to_nat N)) s.

End Primitives.

Section Numbers.
Context {O F : Type} `{Arith F} `{Number O F}.

(** [-om**2] as the factor of a float; the power binds tighter than the
    minus. *)
Definition neg_pow2 (om : O) : result F :=
  p ← py_pow2 om; py_float (py_neg p).

(** [a * om] for a float [a]. *)
Definition fmul_num (a : F) (om : O) : result F :=
  c ← py_float om; Ok (fmul a c).

(** The two numbers that an iteration of the damped and of the driven loop
    computes from [om], in the order of evaluation: [ze*om] among the
    arguments of the call of [acc], then [-om**2] in its body. *)
Definition coefficients (om : O) (ze : F) : result (F * F) :=
  de ← fmul_num ze om; w ← neg_pow2 om; Ok (w, de).

End Numbers.

(** ** The global variables of a cell *)

(** The numeric variables a cell assigns: the step [dt] and the three
  arrays [t], [x], [v].  Each array is allocated once per cell run
  ([np.linspace], [np.zeros]); the loops then assign to its entries, so
  every loop of a cell reads and writes the same [x] and [v]. *)
Record globals (F : Type) : Type := Globals {
  g_dt : F;
  g_t : list F;
  g_x : list F;
  g_v : list F;
}.
Arguments Globals {F} _ _ _ _.
Arguments g_dt {F} _.
Arguments g_t {F} _.
Arguments g_x {F} _.
Arguments g_v {F} _.

Inductive scheme : Type := Euler | EulerCromer.

Section Cells.
Context {F : Type} `{Arith F}.

(** The common head of the three cells:
<<
    dt = tmax/N
    t = np.linspace(0, tmax, N+1)
    x = np.zeros(N+1)
    v = np.zeros(N+1)
    x[0] = x0
    v[0] = v0
>> *)
Definition setup (tmax : F) (N : Z) (x0 v0 : F) : result (globals F) :=
  dt ← py_div tmax (of_int N);
  t ← np_linspace (of_int 0) tmax (N + 1);
  x ← np_zeros (N + 1);
  v ← np_zeros (N + 1);
  x ← setitem x 0 x0;
  v ← setitem v 0 v0;
  Ok (Globals dt t x v).

(** One iteration of an integration loop, for an acceleration law of the
    time [i*dt], the position [x[i]] and the velocity [v[i]]:
<<
    a = law(i*dt, x[i], v[i])
    v[i+1] = v[i] + a * dt
    x[i+1] = x[i] + v[i+1] * dt      # Euler-Cromer
    x[i+1] = x[i] + v[i] * dt        # Euler
>>
    The four loops of the notebook are instances of it (lemmas
    [undamped_ec_body_step] and the like). *)
Definition step (sch : scheme) (law : F → F → F → F)
    (i : nat) (s : globals F) : result (globals F) :=
  xi ← getitem (g_x s) i;
  vi ← getitem (g_v s) i;
  let a := law (fmul (of_int (Z.of_nat i)) (g_dt s)) xi vi in
  v' ← setitem (g_v s) (i + 1) (fadd vi (fmul a (g_dt s)));
  vn ← getitem v' (match sch with EulerCromer => i + 1 | Euler => i end)%nat;
  x' ← setitem (g_x s) (i + 1) (fadd xi (fmul vn (g_dt s)));
  Ok (Globals (g_dt s) (g_t s) x' v').

End Cells.

(** ** First code cell: the undamped oscillator *)

Module Undamped.
Section Cell.
Context {O F : Type} `{Arith F} `{Trig F} `{Number O F}.

(** [def acc(x, om): return -om**2 * x] *)
Definition acc (x : F) (om : O) : result F :=
  w ← neg_pow2 om; Ok (fmul w x).

(** [def ex_sol(t, om, x0, v0)], for an array [t]:
<<
    return x0 * np.cos(om*t) + v0 / om * np.sin(om*t),
           -x0*om * np.sin(om*t) + v0 * np.cos(om*t)
>>
    [om], [x0], [v0] are Python scalars, so [v0 / om] raises on [om = 0];
    the products with the arrays and the sums are taken entry by entry.
    Every operation on [om] has a float for its other operand, so the
    function is embedded for the float that [om] converts to ([exact]). *)
Definition ex_sol (t : list F) (om x0 v0 : F) : result (list F * list F) :=
  let c := map (fmul x0) (map np_cos (map (fmul om) t)) in
  q ← py_div v0 om;
  let s := map (fmul q) (map np_sin (map (fmul om) t)) in
  let xe := zip_with fadd c s in
  let s' := map (fmul (fmul (fneg x0) om)) (map np_sin (map (fmul om) t)) in
  let c' := map (fmul v0) (map np_cos (map (fmul om) t)) in
  let ve := zip_with fadd s' c' in
  Ok (xe, ve).

(** The parameters assigned at the head of the cell. *)
Record params : Type := Params {
  N : Z; om : O; x0 : F; v0 : F;
  ec : bool; eu : bool; ex : bool;
  tmax : F;
  }.

(** Body of the loop under [if ec:]. *)
Definition ec_body (om : O) (i : nat) (s : globals F) : result (globals F) :=
  xi ← getitem (g_x s) i;
  a ← acc xi om;
  vi ← getitem (g_v s) i;
  v' ← setitem (g_v s) (i + 1) (fadd vi (fmul a (g_dt s)));
  xi ← getitem (g_x s) i;
  vn ← getitem v' (i + 1);
  x' ← setitem (g_x s) (i + 1) (fadd xi (fmul vn (g_dt s)));
  Ok (Globals (g_dt s) (g_t s) x' v').

(** Body of the loop under [if eu:]. *)
Definition eu_body (om : O) (i : nat) (s : globals F) : result (globals F) :=
  xi ← getitem (g_x s) i;
  a ← acc xi om;
  vi ← getitem (g_v s) i;
  v' ← setitem (g_v s) (i + 1) (fadd vi (fmul a (g_dt s)));
  xi ← getitem (g_x s) i;
  vn ← getitem v' i;
  x' ← setitem (g_x s) (i + 1) (fadd xi (fmul vn (g_dt s)));
  Ok (Globals (g_dt s) (g_t s) x' v').

Definition euler_cromer (p : params) (s : globals F) : result (globals F) :=
  if ec p then for_range (N p) (ec_body (om p)) s else Ok s.

Definition euler (p : params) (s : globals F) : result (globals F) :=
  if eu p then for_range (N p) (eu_body (om p)) s else Ok s.

(** The block under [if ex:]; [N_ex = 100].  The first operation of
    [ex_sol] on [om] is the product [om*t] with the array of times, where
    an int [om] is converted to the float type of the array. *)
Definition exact (p : params) : result (option (list F * list F * list F)) :=
  if ex p then
    t_ex ← np_linspace (of_int 0) (tmax p) 100;
    om_f ← py_float (om p);
    '(x_ex, v_ex) ← ex_sol t_ex om_f (x0 p) (v0 p);
    Ok (Some (t_ex, x_ex, v_ex))
  else Ok None.

(** The numerical part of the cell: its head and the two loops, in the
  order of the cell. *)
Definition integration (p : params) : result (globals F) :=
  s ← setup (tmax p) (N p) (x0 p) (v0 p);
  s ← euler_cromer p s;
  euler p s.

(** The whole cell: the variables at its end, and the arrays of the exact
  solution when they were computed. *)
Definition cell (p : params)
    : result (globals F * option (list F * list F * list F)) :=
  s ← integration p;
  e ← exact p;
  Ok (s, e).

End Cell.
End Undamped.

(** ** Second code cell: the damped oscillator *)

Module Damped.
Section Cell.
Context {O F : Type} `{Arith F} `{Number O F}.

(** [def acc(x, v, om, de): return -om**2 * x - 2 * de * v] *)
Definition acc (x v : F) (om : O) (de : F) : result F :=
  w ← neg_pow2 om;
  Ok (fsub (fmul w x) (fmul (fmul (of_int 2) de) v)).

Record params : Type := Params {
  N : Z; v0 : F; ze : F; om : O; tmax : F; x0 : F;
  }.

(** Body of the loop: [a = acc(x[i], v[i], om, ze*om)] and the two
    assignments. *)
Definition ec_body (om : O) (ze : F) (i : nat) (s : globals F) : result (globals F) :=
  xi ← getitem (g_x s) i;
  vi ← getitem (g_v s) i;
  de ← fmul_num ze om;
  a ← acc xi vi om de;
  vi ← getitem (g_v s) i;
  v' ← setitem (g_v s) (i + 1) (fadd vi (fmul a (g_dt s)));
  xi ← getitem (g_x s) i;
  vn ← getitem v' (i + 1);
  x' ← setitem (g_x s) (i + 1) (fadd xi (fmul vn (g_dt s)));
  Ok (Globals (g_dt s) (g_t s) x' v').

Definition cell (p : params) : result (globals F) :=
  s ← setup (tmax p) (N p) (x0 p) (v0 p);
  for_range (N p) (ec_body (om p) (ze p)) s.

End Cell.
End Damped.

(** ** Third code cell: the driven oscillator *)

Module Driven.
Section Cell.
Context {O F : Type} `{Arith F} `{Trig F} `{Number O F}.

(** [def acc(t, x, v, om, de, a_d, om_d):
       return -om**2 * x - 2 * de * v + a_d * np.sin(om_d * t)] *)
Definition acc (t x v : F) (om : O) (de a_d om_d : F) : result F :=
  w ← neg_pow2 om;
  Ok (fadd (fsub (fmul w x) (fmul (fmul (of_int 2) de) v))
           (fmul a_d (np_sin (fmul om_d t)))).

Record params : Type := Params {
  N : Z; om : O; ze : F; om_d : F; x0 : F; a0 : F;
  }.

(** Body of the loop: [a = acc(i*dt, x[i], v[i], om, ze*om, a0, om_d)] and
    the two assignments. *)
Definition ec_body (om : O) (ze a0 om_d : F) (i : nat) (s : globals F)
    : result (globals F) :=
  xi ← getitem (g_x s) i;
  vi ← getitem (g_v s) i;
  de ← fmul_num ze om;
  a ← acc (fmul (of_int (Z.of_nat i)) (g_dt s)) xi vi om de a0 om_d;
  vi ← getitem (g_v s) i;
  v' ← setitem (g_v s) (i + 1) (fadd vi (fmul a (g_dt s)));
  xi ← getitem (g_x s) i;
  vn ← getitem v' (i + 1);
  x' ← setitem (g_x s) (i + 1) (fadd xi (fmul vn (g_dt s)));
  Ok (Globals (g_dt s) (g_t s) x' v').

(** [tmax = 100 * np.pi/om_d]; [v[0] = 0]. *)
Definition cell (p : params) : result (globals F) :=
  tmax ← py_div (fmul (of_int 100) np_pi) (om_d p);
  s ← setup tmax (N p) (x0 p) (of_int 0);
  for_range (N p) (ec_body (om p) (ze p) (a0 p) (om_d p)) s.

End Cell.
End Driven.

(** ** The update rules, as read off the arrays *)

Section Rules.
Context {F : Type} `{Arith F} `{Trig F}.

(** The acceleration laws of the three cells as laws of [(t, x, v)], for
    the value [w] of [-om**2] and the damping coefficient [de] (the value of
    [ze*om] in the loops): what the functions [acc] return when [-om**2]
    evaluates to [w] (lemmas [undamped_acc_value] and the like). *)
Definition undamped_law (w : F) : F → F → F → F :=
  fun _ x _ => fmul w x.

Definition damped_law (w de : F) : F → F → F → F :=
  fun _ x v => fsub (fmul w x) (fmul (fmul (of_int 2) de) v).

Definition driven_law (w de a_d om_d : F) : F → F → F → F :=
  fun t x v =>
    fadd (fsub (fmul w x) (fmul (fmul (of_int 2) de) v))
         (fmul a_d (np_sin (fmul om_d t))).

(** The velocity and the position that iteration [i] stores at index [i+1],
    from the entries [xi = x[i]] and [vi = v[i]]. *)
Definition v_next (law : F → F → F → F) (dt : F) (i : nat) (xi vi : F) : F :=
  fadd vi (fmul (law (fmul (of_int (Z.of_nat i)) dt) xi vi) dt).

Definition x_next (sch : scheme) (law : F → F → F → F) (dt : F) (i : nat) (xi vi : F) : F :=
  fadd xi (fmul (match sch with
                 | EulerCromer => v_next law dt i xi vi
                 | Euler => vi
                 end) dt).

(** The entries of index [i] and [i+1] of the arrays of [s] are related by
    the update rule of the scheme for the acceleration [ai]. *)
Definition updated (sch : scheme) (s : globals F) (i : nat) (xi vi ai : F) : Prop :=
  g_x s !! i = Some xi ∧ g_v s !! i = Some vi ∧
  g_v s !! S i = Some (fadd vi (fmul ai (g_dt s))) ∧
  g_x s !! S i = Some (fadd xi (fmul (match sch with
                                      | EulerCromer => fadd vi (fmul ai (g_dt s))
                                      | Euler => vi
                                      end) (g_dt s))).

(** Iteration [i] obeyed the update rule, as read off the arrays of [s]. *)
Definition obeys (sch : scheme) (law : F → F → F → F) (s : globals F) (i : nat) : Prop :=
  ∃ xi vi, g_x s !! i = Some xi ∧ g_v s !! i = Some vi ∧
    g_v s !! S i = Some (v_next law (g_dt s) i xi vi) ∧
    g_x s !! S i = Some (x_next sch law (g_dt s) i xi vi).

(** The arrays have [n+1] entries. *)
Definition sized (n : nat) (s : globals F) : Prop :=
  length (g_x s) = S n ∧ length (g_v s) = S n.

(** The step and the time grid of [s] are those that the head of a cell
    computes from [tmax] and [N]. *)
Definition grid_of (tmax : F) (N : Z) (s : globals F) : Prop :=
  g_dt s = fdiv tmax (of_int N) ∧
  np_linspace (of_int 0) tmax (N + 1) = Ok (g_t s).

(** A whole run: the head of a cell followed by one integration loop. *)
Definition integrate (sch : scheme) (law : F → F → F → F)
    (tmax : F) (N : Z) (x0 v0 : F) : result (globals F) :=
  s0 ← setup tmax N x0 v0; for_range N (step sch law) s0.

End Rules.

(** ** The two arithmetics *)

(** *** IEEE-754 binary64 *)

Definition prec : Z := 53.
Definition emax : Z := 1024.

(** The binary64 value nearest to [m * 2^e] (ties to even). *)
Definition b64 (m e : Z) : spec_float := binary_normalize prec emax m e false.

Definition SFis_zero (a : spec_float) : bool :=
  match a with S754_zero _ => true | _ => false end.

(** The sign bit is clear (a NaN counts as unsigned). *)
Definition SFplus (a : spec_float) : bool :=
  match a with
  | S754_zero s | S754_infinity s | S754_finite s _ _ => negb s
  | S754_nan => true
  end.

(** Neither an infinity nor a NaN. *)
Definition SFfinite (a : spec_float) : bool :=
  match a with
  | S754_zero _ | S754_finite _ _ _ => true
  | _ => false
  end.

Definition SFis_inf (a : spec_float) : bool :=
  match a with S754_infinity _ => true | _ => false end.

(** Binary64 with rounding to nearest, ties to even.  A Python int is
    converted to the nearest binary64 number, which is the int itself up to
    [2^53]. *)
#[global] Instance float64_arith : Arith spec_float := {|
  of_int z := b64 z 0;
  fadd := SFadd prec emax;
  fsub := SFsub prec emax;
  fmul := SFmul prec emax;
  fdiv := SFdiv prec emax;
  fneg := SFopp;
  is_zero := SFis_zero;
  is_inf := SFis_inf;
|}.

(** [a ** 2] for a Python float [a], after [float_pow] of CPython, for the
    function [c_pow] of the C library that the interpreter is linked with:
    a NaN gives itself, an infinity gives [+inf], a zero gives [+0.0]; a
    negative base is replaced by its absolute value (the exponent is even);
    the base [1.0] gives [1.0]; every other base is passed to
    [pow(a, 2.0)], and an infinite result raises [OverflowError].  The
    value of [pow] is the library's: it need not be the correctly rounded
    square.  Floats are in the canonical form in which the operations
    return them. *)
Definition float_pow2 (c_pow : spec_float → spec_float → spec_float)
    (a : spec_float) : result spec_float :=
  match a with
  | S754_nan => Ok S754_nan
  | S754_infinity _ => Ok (S754_infinity false)
  | S754_zero _ => Ok (S754_zero false)
  | S754_finite _ m e =>
      let iv := S754_finite false m e in
      if SFeqb iv (b64 1 0) then Ok (b64 1 0)
      else
        let ix := c_pow iv (b64 2 0) in
        if SFis_inf ix then Raise OverflowError else Ok ix
  end.

(** A Python float for [om], in binary64. *)
Definition float64_number (c_pow : spec_float → spec_float → spec_float)
    : Number spec_float spec_float := {|
  py_pow2 := float_pow2 c_pow;
  py_neg := SFopp;
  py_float := Ok;
|}.

(** *** Real numbers *)

Definition Ris_zero (a : R) : bool := if Req_dec_T a 0 then true else false.

#[global] Instance R_arith : Arith R := {|
  of_int := IZR;
  fadd := Rplus;
  fsub := Rminus;
  fmul := Rmult;
  fdiv := Rdiv;
  fneg := Ropp;
  is_zero := Ris_zero;
  is_inf := fun _ => false;
|}.

(** A real number for [om]. *)
#[global] Instance R_number : Number R R := {|
  py_pow2 := fun a => Ok (a * a)%R;
  py_neg := Ropp;
  py_float := Ok;
|}.

(** *** Python ints *)

(** A Python int for [om], in any arithmetic: the square and the negation
    are those of the integers. *)
#[global] Instance int_number {F : Type} `{Arith F} : Number Z F := {|
  py_pow2 := fun z => Ok (z ^ 2);
  py_neg := Z.opp;
  py_float := float_of_int;
|}.

#[global] Instance R_trig : Trig R := {|
  np_pi := PI;
  np_sin := sin;
  np_cos := cos;
|}.

(** The law of the arithmetic that the cells rely on: a Python int converts
    to zero exactly when it is zero, so that [tmax/N] raises for [N = 0]
    and for no other [N]. *)
Class ArithLaws (F : Type) `{Arith F} : Prop := {
  of_int_zero : is_zero (of_int 0) = true;
  of_int_nonzero : ∀ z : Z, z ≠ 0 → is_zero (of_int z) = false;
}.

(** ** The formulas of the exact solution *)

Section ExactSolution.
Context {F : Type} `{Arith F} `{Trig F}.

(** The two formulas of the exact solution at one time [t]. *)
Definition ex_x (t om x0 v0 : F) : F :=
  fadd (fmul x0 (np_cos (fmul om t))) (fmul (fdiv v0 om) (np_sin (fmul om t))).

Definition ex_v (t om x0 v0 : F) : F :=
  fadd (fmul (fmul (fneg x0) om) (np_sin (fmul om t))) (fmul v0 (np_cos (fmul om t))).

End ExactSolution.

(** ** What a loop may write *)

Section Frame.
Context {F : Type} `{Arith F}.

(** Iteration [i] leaves [dt], the array [t] and every entry of [x] and [v]
    other than the one of index [i+1] as they were. *)
Definition writes_only_next (body : nat → globals F → result (globals F)) : Prop :=
  ∀ i s s', body i s = Ok s' →
    g_dt s' = g_dt s ∧ g_t s' = g_t s ∧
    ∀ j, j ≠ S i → g_x s' !! j = g_x s !! j ∧ g_v s' !! j = g_v s !! j.

(** The samples of index at most [k] are final after [k] iterations: the
    variables [sk'] after [k' ≥ k] iterations agree on them with the
    variables [sk] after [k] iterations. *)
Definition prefix_final (body : nat → globals F → result (globals F)) : Prop :=
  ∀ s0 k k' sk sk', (k ≤ k')%nat →
    for_each body (seq 0 k) s0 = Ok sk →
    for_each body (seq 0 k') s0 = Ok sk' →
    g_t sk' = g_t sk ∧
    ∀ j, (j ≤ k)%nat → g_x sk' !! j = g_x sk !! j ∧ g_v sk' !! j = g_v sk !! j.

(** The initial conditions stay in place: after any number of iterations
    that follow the head of a cell, [x[0]] is [x0] and [v[0]] is [v0]. *)
Definition keeps_initial (body : nat → globals F → result (globals F)) : Prop :=
  ∀ tmax N x0 v0 s0 k sk,
    setup tmax N x0 v0 = Ok s0 →
    for_each body (seq 0 k) s0 = Ok sk →
    g_x sk !! 0%nat = Some x0 ∧ g_v sk !! 0%nat = Some v0.

Definition loop_frame_rule (body : nat → globals F → result (globals F)) : Prop :=
  writes_only_next body ∧ prefix_final body ∧ keeps_initial body.

End Frame.

(** ** Checking neighbouring entries of an array *)

(** [r a b] holds for every entry [a] of the array and its successor [b]. *)
Fixpoint adjacent_all {A : Type} (r : A → A → bool) (l : list A) : bool :=
  match l with
  | a :: (b :: _) as l' => r a b && adjacent_all r l'
  | _ => true
  end.

(** ** The energy estimate *)

Section Energy.
Context {F : Type} `{Arith F}.

(** The energy estimate of the text, [0.5*v**2 + 0.5*om**2*x**2], for
    numbers [om], [x], [v] of the arithmetic and with the squares taken as
    products; the notebook does not compute it. *)
Definition energy (om x v : F) : F :=
  fadd (fmul (fdiv (of_int 1) (of_int 2)) (sqr v))
       (fmul (fmul (fdiv (of_int 1) (of_int 2)) (sqr om)) (sqr x)).

(** The energy estimates along the trajectory held by the arrays [x], [v]. *)
Definition energies (om : F) (s : globals F) : list F :=
  zip_with (energy om) (g_x s) (g_v s).

End Energy.

Section CorrectedEnergy.
Context {F : Type} `{Arith F}.

(** The energy estimate corrected by the term [- om**2 * dt * x * v / 2]. *)
Definition corrected_energy (om dt x v : F) : F :=
  fsub (energy om x v) (fdiv (fmul (fmul (fmul (sqr om) dt) x) v) (of_int 2)).

End CorrectedEnergy.

(** ** The exception of a step count below one *)

(** The exception that the head of a cell raises for a step count [N < 1]:
    [dt = tmax/N] divides by zero for [N = 0]; for [N = -1] the arrays are
    empty and [x[0] = x0] is out of bounds; for [N < -1] the number of
    samples [N+1] passed to [np.linspace] is negative. *)
Definition config_error (N : Z) : exn :=
  if N =? 0 then ZeroDivisionError
  else if N =? -1 then IndexError
  else ValueError.

(** ** The parameter values of the notebook *)

(** First cell: [N = 100], [om = 5] (an int), [x0 = 0.5], [v0 = 5],
    [ec = True], [eu = False], [ex = False], [tmax = 5], in binary64. *)
Definition undamped_nb : Undamped.params (O:=Z) (F:=spec_float) :=
  Undamped.Params 100 5 (b64 1 (-1)) (of_int 5) true false false (of_int 5).

(** Second cell: [N = 250], [v0 = 0], [ze = 0.1], [om = 2] (an int),
    [tmax = 20], [x0 = 1], in binary64; [0.1] is the binary64 number nearest
    to 1/10. *)
Definition damped_nb : Damped.params (O:=Z) (F:=spec_float) :=
  Damped.Params 250 (of_int 0) (fdiv (of_int 1) (of_int 10)) 2 (of_int 20) (of_int 1).

(** Third cell: [N = 10000], [om = 2], [ze = 0.1], [om_d = 2], [x0 = 1],
    [a0 = 1], over the real numbers. *)
Definition driven_nb : Driven.params (O:=R) (F:=R) :=
  Driven.Params 10000 2%R (1 / 10)%R 2%R 1%R 1%R.

(** * Properties *)

(** ** Facts about the two arithmetics *)

(** *** binary64: rounding never turns an integer into zero *)

Lemma digits2_pos_lower (p : positive) :
  2 ^ (Zpos (digits2_pos p) - 1) ≤ Zpos p.
Proof.
  induction p as [p IH|p IH|]; simpl digits2_pos.
  - rewrite Pos2Z.inj_succ. replace (Z.succ (Zpos (digits2_pos p)) - 1) with (Z.succ (Zpos (digits2_pos p) - 1)) by lia.
    rewrite Z.pow_succ_r by lia. lia.
  - rewrite Pos2Z.inj_succ. replace (Z.succ (Zpos (digits2_pos p)) - 1) with (Z.succ (Zpos (digits2_pos p) - 1)) by lia.
    rewrite Z.pow_succ_r by lia. lia.
  - simpl. lia.
Qed.

Lemma shr_1_m (mrs : shr_record) :
  0 ≤ shr_m mrs → shr_m (shr_1 mrs) = shr_m mrs / 2.
Proof.
  destruct mrs as [m r s]. simpl. intros Hm.
  destruct m as [|[p|p|]|p]; simpl; try lia.
  all: try reflexivity.
  - apply (Z.div_unique _ 2 _ 1); lia.
  - apply (Z.div_unique _ 2 _ 0); lia.
Qed.

Lemma iter_shr_1_m (n : positive) (mrs : shr_record) :
  0 ≤ shr_m mrs → shr_m (SpecFloat.iter_pos shr_1 n mrs) = shr_m mrs / 2 ^ Zpos n.
Proof.
  revert mrs. induction n as [n IH|n IH|]; intros mrs Hm; simpl SpecFloat.iter_pos.
  - assert (H1 : 0 ≤ shr_m (shr_1 mrs)) by (rewrite shr_1_m by assumption; apply Z.div_pos; lia).
    assert (H2 : 0 ≤ shr_m (SpecFloat.iter_pos shr_1 n (shr_1 mrs))) by (rewrite IH by assumption; apply Z.div_pos; lia).
    rewrite IH, IH, shr_1_m by assumption.
    rewrite !Z.div_div by lia. f_equal.
    replace (Z.pos n~1) with (1 + Z.pos n + Z.pos n) by lia.
    rewrite !Z.pow_add_r by lia. change (2 ^ 1) with 2. ring.
  - assert (H2 : 0 ≤ shr_m (SpecFloat.iter_pos shr_1 n mrs)) by (rewrite IH by assumption; apply Z.div_pos; lia).
    rewrite IH, IH by assumption.
    rewrite !Z.div_div by lia. f_equal.
    replace (Z.pos n~0) with (Z.pos n + Z.pos n) by lia.
    rewrite Z.pow_add_r by lia. reflexivity.
  - rewrite shr_1_m by assumption. reflexivity.
Qed.

Lemma shr_record_of_loc_m (m : Z) (l : location) : shr_m (shr_record_of_loc m l) = m.
Proof. destruct l as [|[]]; reflexivity. Qed.

Lemma shr_fexp_pos (q : positive) (e : Z) (l : location) :
  -1074 ≤ e →
  0 < shr_m (fst (shr_fexp prec emax (Zpos q) e l)) ∧
  e ≤ snd (shr_fexp prec emax (Zpos q) e l).
Proof.
  intros He. unfold shr_fexp, shr, fexp, SpecFloat.emin, prec, emax. simpl Zdigits2.
  pose proof (digits2_pos_lower q) as Hq.
  destruct (Z.max (Z.pos (digits2_pos q) + e - 53) (3 - 1024 - 53) - e) as [|n|n] eqn:En;
    simpl fst; simpl snd; rewrite ?shr_record_of_loc_m; try lia.
  rewrite iter_shr_1_m by (rewrite shr_record_of_loc_m; lia).
  rewrite shr_record_of_loc_m. split; [|lia].
  apply Z.div_str_pos. split; [apply Z.pow_pos_nonneg; lia|].
  etransitivity; [|exact Hq]. apply Z.pow_le_mono_r; lia.
Qed.

Lemma round_nearest_even_pos (m : Z) (l : location) :
  0 < m → 0 < round_nearest_even m l.
Proof. intros Hm. destruct l as [|[]]; simpl; try destruct (Z.even m); lia. Qed.

Lemma binary_round_aux_nonzero (sx : bool) (q : positive) (e : Z) (l : location) :
  -1074 ≤ e → SFis_zero (binary_round_aux prec emax sx (Zpos q) e l) = false.
Proof.
  intros He. unfold binary_round_aux.
  pose proof (shr_fexp_pos q e l He) as [H1 H2].
  destruct (shr_fexp prec emax (Z.pos q) e l) as [mrs' e']. simpl in H1, H2.
  pose proof (round_nearest_even_pos (shr_m mrs') (loc_of_shr_record mrs') H1) as Hr.
  destruct (round_nearest_even (shr_m mrs') (loc_of_shr_record mrs')) as [|m2|m2]; try lia.
  pose proof (shr_fexp_pos m2 e' loc_Exact ltac:(lia)) as [H3 _].
  destruct (shr_fexp prec emax (Z.pos m2) e' loc_Exact) as [mrs'' e'']. simpl in H3.
  destruct (shr_m mrs'') as [|m3|m3]; try lia.
  destruct (e'' <=? emax - prec); reflexivity.
Qed.

Lemma binary_round_nonzero (sx : bool) (q : positive) (e : Z) :
  -1074 ≤ e → SFis_zero (binary_round prec emax sx q e) = false.
Proof.
  intros He. unfold binary_round, shl_align.
  destruct (fexp prec emax (Z.pos (digits2_pos q) + e) - e) as [|d|d] eqn:Ed.
  - now apply binary_round_aux_nonzero.
  - now apply binary_round_aux_nonzero.
  - apply binary_round_aux_nonzero. unfold fexp, SpecFloat.emin, prec, emax. lia.
Qed.

Lemma float64_of_int_nonzero (z : Z) : z ≠ 0 → SFis_zero (b64 z 0) = false.
Proof.
  intros Hz. destruct z as [|q|q]; [contradiction| |];
    apply binary_round_nonzero; lia.
Qed.

#[global] Instance float64_laws : ArithLaws spec_float.
Proof. constructor; [reflexivity | exact float64_of_int_nonzero]. Qed.

(** *** Real numbers *)

Lemma Ris_zero_false (a : R) : a ≠ 0%R → Ris_zero a = false.
Proof. intros Ha. unfold Ris_zero. destruct (Req_dec_T a 0); [contradiction | reflexivity]. Qed.

#[global] Instance R_laws : ArithLaws R.
Proof.
  constructor.
  - unfold is_zero, of_int, R_arith, Ris_zero.
    destruct (Req_dec_T (IZR 0) 0); [reflexivity | contradiction].
  - intros z Hz. apply Ris_zero_false.
    intros E. apply Hz. now apply eq_IZR_R0.
Qed.

(** Over the real numbers [-om**2] evaluates to [-(om*om)] and [ze*om] to
    itself. *)
Lemma neg_pow2_R (om : R) : neg_pow2 om = Ok (- (om * om))%R.
Proof. reflexivity. Qed.

Lemma coefficients_R (om ze : R) : coefficients om ze = Ok (- (om * om), ze * om)%R.
Proof. reflexivity. Qed.

(** ** Reasoning about the integration loops *)

Section Loop.
Context {F : Type} `{Arith F}.

Lemma bind_Ok {A B : Type} (m : result A) (k : A → result B) (b : B) :
  (a ← m; k a) = Ok b → ∃ a, m = Ok a ∧ k a = Ok b.
Proof. destruct m as [a|e]; simpl; [eauto | discriminate]. Qed.

Lemma for_each_app {S : Type} (body : nat → S → result S) (l1 l2 : list nat) (s : S) :
  for_each body (l1 ++ l2) s = (s' ← for_each body l1 s; for_each body l2 s').
Proof.
  revert s. induction l1 as [|i l1 IH]; intros s; simpl; [reflexivity|].
  destruct (body i s) as [s'|e]; simpl; [apply IH | reflexivity].
Qed.

Lemma getitem_Some (arr : list F) (i : nat) (a : F) :
  arr !! i = Some a → getitem arr i = Ok a.
Proof. unfold getitem. now intros ->. Qed.

Lemma getitem_Ok (arr : list F) (i : nat) (a : F) :
  getitem arr i = Ok a → arr !! i = Some a.
Proof. unfold getitem. destruct (arr !! i); congruence. Qed.

Lemma setitem_lt (arr : list F) (i : nat) (a : F) :
  (i < length arr)%nat → setitem arr i a = Ok (<[i:=a]> arr).
Proof. unfold setitem. intros Hi. destruct (decide (i < length arr)%nat); [reflexivity | contradiction]. Qed.

Lemma setitem_Ok (arr arr' : list F) (i : nat) (a : F) :
  setitem arr i a = Ok arr' → (i < length arr)%nat ∧ arr' = <[i:=a]> arr.
Proof. unfold setitem. destruct (decide (i < length arr)%nat); [|discriminate]. intros [= <-]. auto. Qed.

Lemma step_ok (sch : scheme) (law : F → F → F → F) (i : nat) (s : globals F) (xi vi : F) :
  g_x s !! i = Some xi → g_v s !! i = Some vi →
  (S i < length (g_x s))%nat → (S i < length (g_v s))%nat →
  step sch law i s =
    Ok (Globals (g_dt s) (g_t s)
          (<[S i := x_next sch law (g_dt s) i xi vi]> (g_x s))
          (<[S i := v_next law (g_dt s) i xi vi]> (g_v s))).
Proof.
  intros Hx Hv Lx Lv. unfold step, x_next, v_next.
  rewrite (getitem_Some _ _ _ Hx), (getitem_Some _ _ _ Hv). simpl.
  rewrite Nat.add_1_r, setitem_lt by assumption. simpl.
  destruct sch.
  - rewrite (getitem_Some _ i vi) by (rewrite list_lookup_insert_ne by lia; exact Hv).
    simpl. rewrite setitem_lt by assumption. reflexivity.
  - rewrite (getitem_Some _ (S i) (fadd vi (fmul (law (fmul (of_int (Z.of_nat i)) (g_dt s)) xi vi) (g_dt s))))
      by (apply list_lookup_insert_eq; assumption).
    simpl. rewrite setitem_lt by assumption. reflexivity.
Qed.

(** What a successful iteration did: it read [x[i]] and [v[i]] and assigned
    to [x[i+1]] and [v[i+1]], and to nothing else. *)
Lemma step_inv (sch : scheme) (law : F → F → F → F) (i : nat) (s s' : globals F) :
  step sch law i s = Ok s' →
  ∃ xi vi, g_x s !! i = Some xi ∧ g_v s !! i = Some vi ∧
    (S i < length (g_x s))%nat ∧ (S i < length (g_v s))%nat ∧
    s' = Globals (g_dt s) (g_t s)
           (<[S i := x_next sch law (g_dt s) i xi vi]> (g_x s))
           (<[S i := v_next law (g_dt s) i xi vi]> (g_v s)).
Proof.
  intros Hs0. pose proof Hs0 as Hs. unfold step in Hs.
  apply bind_Ok in Hs as (xi & Hx & Hs). apply getitem_Ok in Hx.
  apply bind_Ok in Hs as (vi & Hv & Hs). apply getitem_Ok in Hv.
  cbv zeta in Hs.
  apply bind_Ok in Hs as (v' & Hv' & Hs). apply setitem_Ok in Hv' as [Lv _].
  apply bind_Ok in Hs as (vn & _ & Hs).
  apply bind_Ok in Hs as (x' & Hx' & _). apply setitem_Ok in Hx' as [Lx _].
  rewrite Nat.add_1_r in Lx, Lv.
  exists xi, vi. repeat split; try assumption.
  rewrite (step_ok sch law i s xi vi Hx Hv Lx Lv) in Hs0. congruence.
Qed.

(** The state after the first [k] iterations of a loop over arrays of
    [n+1 > k] entries. *)
Lemma loop_prefix (sch : scheme) (law : F → F → F → F) (n : nat) (s0 : globals F) :
  sized n s0 → ∀ k, (k ≤ n)%nat →
  ∃ sk, for_each (step sch law) (seq 0 k) s0 = Ok sk ∧ sized n sk ∧
    g_dt sk = g_dt s0 ∧ g_t sk = g_t s0 ∧
    (∀ j, (k < j)%nat → g_x sk !! j = g_x s0 !! j ∧ g_v sk !! j = g_v s0 !! j) ∧
    g_x sk !! 0%nat = g_x s0 !! 0%nat ∧ g_v sk !! 0%nat = g_v s0 !! 0%nat ∧
    (∀ i, (i < k)%nat → obeys sch law sk i).
Proof.
  intros [Lx Lv]. induction k as [|k IH]; intros Hk.
  - exists s0. simpl. repeat split; auto. intros i Hi. lia.
  - destruct IH as (sk & Hrun & [Lxk Lvk] & Hdt & Ht & Hout & Hx0 & Hv0 & Hin); [lia|].
    rewrite seq_S, for_each_app, Hrun. simpl.
    destruct (lookup_lt_is_Some_2 (g_x sk) k) as [xi Hxi]; [lia|].
    destruct (lookup_lt_is_Some_2 (g_v sk) k) as [vi Hvi]; [lia|].
    rewrite (step_ok sch law k sk xi vi Hxi Hvi) by lia. simpl.
    eexists. split; [reflexivity|]. unfold sized. simpl.
    rewrite !length_insert.
    split; [auto|]. split; [assumption|]. split; [assumption|].
    split; [|split; [|split]].
    + intros j Hj. rewrite !list_lookup_insert_ne by lia. apply Hout. lia.
    + rewrite list_lookup_insert_ne by lia. assumption.
    + rewrite list_lookup_insert_ne by lia. assumption.
    + intros i Hi. unfold obeys. simpl.
      destruct (decide (i = k)) as [->|Hne].
      * exists xi, vi. rewrite !list_lookup_insert_ne by lia.
        rewrite !list_lookup_insert_eq by lia. auto.
      * destruct (Hin i) as (xi' & vi' & H1 & H2 & H3 & H4); [lia|].
        exists xi', vi'. rewrite !list_lookup_insert_ne by lia. auto.
Qed.

(** Iterations [a, a+1, ...] leave every entry of index at most [a]
    alone, and the array [t] and [dt] as well. *)
Lemma loop_frame (sch : scheme) (law : F → F → F → F) (len a : nat) (s s' : globals F) :
  for_each (step sch law) (seq a len) s = Ok s' →
  g_dt s' = g_dt s ∧ g_t s' = g_t s ∧
  length (g_x s') = length (g_x s) ∧ length (g_v s') = length (g_v s) ∧
  ∀ j, (j ≤ a)%nat → g_x s' !! j = g_x s !! j ∧ g_v s' !! j = g_v s !! j.
Proof.
  revert a s. induction len as [|len IH]; intros a s Hrun; simpl in Hrun.
  - injection Hrun as <-. repeat split; reflexivity.
  - apply bind_Ok in Hrun as (s1 & Hstep & Hrun).
    apply step_inv in Hstep as (xi & vi & _ & _ & _ & _ & ->).
    apply IH in Hrun as (Hdt & Ht & Lx & Lv & Hj). simpl in *.
    rewrite length_insert in Lx, Lv.
    repeat split; try assumption.
    + rewrite (proj1 (Hj j ltac:(lia))). apply list_lookup_insert_ne. lia.
    + rewrite (proj2 (Hj j ltac:(lia))). apply list_lookup_insert_ne. lia.
Qed.

End Loop.

(** ** The cells as runs of the integration loop *)

Section Runs.
Context {F : Type} `{ArithLaws F}.

Lemma lookup_map {A B : Type} (f : A → B) (l : list A) (i : nat) :
  map f l !! i = f <$> (l !! i).
Proof. exact (list_lookup_fmap f l i). Qed.

Lemma for_each_ext {S : Type} (b1 b2 : nat → S → result S) (l : list nat) (s : S) :
  (∀ i s, b1 i s = b2 i s) → for_each b1 l s = for_each b2 l s.
Proof.
  intros E. revert s. induction l as [|i l IH]; intros s; simpl; [reflexivity|].
  rewrite E. destruct (b2 i s); simpl; auto.
Qed.

Lemma np_arange_length (num : Z) : length (np_arange (F:=F) num) = Z.to_nat num.
Proof. unfold np_arange. now rewrite length_map, length_seq. Qed.

Lemma np_arange_lookup (num : Z) (i : nat) :
  (i < Z.to_nat num)%nat → np_arange (F:=F) num !! i = Some (of_int (Z.of_nat i)).
Proof. intros Hi. unfold np_arange. rewrite lookup_map, lookup_seq_lt by assumption. reflexivity. Qed.

Lemma np_linspace_length (start stop : F) (num : Z) (t : list F) :
  np_linspace start stop num = Ok t → length t = Z.to_nat num.
Proof.
  unfold np_linspace. destruct (num <? 0); [discriminate|]. intros [= <-].
  destruct (0 <? num - 1); [destruct (is_zero _)|]; destruct (1 <? num);
    rewrite ?length_insert, !length_map; apply np_arange_length.
Qed.

Lemma np_linspace_ok (start stop : F) (num : Z) :
  0 ≤ num → ∃ t, np_linspace start stop num = Ok t.
Proof.
  intros Hn. unfold np_linspace. destruct (Z.ltb_spec num 0); [lia|]. eauto.
Qed.

(** The variables after the head of a cell, for a step count [N ≥ 1]. *)
Lemma setup_ok (tmax : F) (N : Z) (x0 v0 : F) :
  1 ≤ N →
  ∃ s0, setup tmax N x0 v0 = Ok s0 ∧
    g_dt s0 = fdiv tmax (of_int N) ∧
    np_linspace (of_int 0) tmax (N + 1) = Ok (g_t s0) ∧
    g_x s0 = <[0%nat := x0]> (replicate (Z.to_nat (N + 1)) (of_int 0)) ∧
    g_v s0 = <[0%nat := v0]> (replicate (Z.to_nat (N + 1)) (of_int 0)).
Proof.
  intros HN. unfold setup, py_div.
  rewrite of_int_nonzero by lia. simpl.
  destruct (np_linspace_ok (of_int 0) tmax (N + 1)) as [t Ht]; [lia|].
  rewrite Ht. simpl. unfold np_zeros.
  destruct (Z.ltb_spec (N + 1) 0); [lia|]. simpl.
  rewrite !setitem_lt by (rewrite length_replicate; lia). simpl.
  eexists. split; [reflexivity|]. simpl. auto.
Qed.

Lemma setup_sized (tmax : F) (N : Z) (x0 v0 : F) (s0 : globals F) :
  1 ≤ N → setup tmax N x0 v0 = Ok s0 →
  sized (Z.to_nat N) s0 ∧ length (g_t s0) = S (Z.to_nat N) ∧
  g_x s0 !! 0%nat = Some x0 ∧ g_v s0 !! 0%nat = Some v0.
Proof.
  intros HN Hs.
  destruct (setup_ok tmax N x0 v0 HN) as (s & Hs' & _ & Ht & Hx & Hv).
  assert (s = s0) as -> by congruence.
  unfold sized. rewrite Hx, Hv, !length_insert, !length_replicate.
  rewrite (np_linspace_length _ _ _ _ Ht).
  rewrite !list_lookup_insert_eq by (rewrite length_replicate; lia).
  repeat split; lia.
Qed.

(** A loop over arrays of [N+1] entries runs to its end, leaves [dt], [t]
    and the entries of index 0 as they were, and every iteration obeys the
    update rule in the final arrays. *)
Lemma loop_spec (sch : scheme) (law : F → F → F → F) (N : Z) (s0 : globals F) :
  sized (Z.to_nat N) s0 →
  ∃ s, for_range N (step sch law) s0 = Ok s ∧ sized (Z.to_nat N) s ∧
    g_dt s = g_dt s0 ∧ g_t s = g_t s0 ∧
    g_x s !! 0%nat = g_x s0 !! 0%nat ∧ g_v s !! 0%nat = g_v s0 !! 0%nat ∧
    ∀ i, (i < Z.to_nat N)%nat → obeys sch law s i.
Proof.
  intros Hs0.
  destruct (loop_prefix sch law (Z.to_nat N) s0 Hs0 (Z.to_nat N) (le_n _))
    as (s & Hrun & Hsz & Hdt & Ht & _ & Hx0 & Hv0 & Hob).
  exists s. unfold for_range. auto 10.
Qed.

Lemma integrate_spec (sch : scheme) (law : F → F → F → F)
    (tmax : F) (N : Z) (x0 v0 : F) :
  1 ≤ N →
  ∃ s, integrate sch law tmax N x0 v0 = Ok s ∧
    g_dt s = fdiv tmax (of_int N) ∧
    np_linspace (of_int 0) tmax (N + 1) = Ok (g_t s) ∧
    length (g_t s) = S (Z.to_nat N) ∧ sized (Z.to_nat N) s ∧
    g_x s !! 0%nat = Some x0 ∧ g_v s !! 0%nat = Some v0 ∧
    ∀ i, (i < Z.to_nat N)%nat → obeys sch law s i.
Proof.
  intros HN. unfold integrate.
  destruct (setup_ok tmax N x0 v0 HN) as (s0 & Hs0 & Hdt0 & Ht0 & _ & _).
  destruct (setup_sized tmax N x0 v0 s0 HN Hs0) as (Hsz0 & Lt0 & Hx0 & Hv0).
  destruct (loop_spec sch law N s0 Hsz0) as (s & Hrun & Hsz & Hdt & Ht & Hx & Hv & Hob).
  exists s. rewrite Hs0. simpl. rewrite Hdt, Ht, Hx, Hv. auto 10.
Qed.

End Runs.

(** The loops of the three cells are the loop [step] for the law of the
    cell, when the coefficients of the law can be computed; when they
    cannot, no iteration returns. *)

Ltac body_is_step :=
  intros; unfold step;
  repeat match goal with
         | |- context [getitem ?a ?i] =>
             destruct (getitem a i); simpl; [|reflexivity]
         | |- context [setitem ?a ?i ?b] =>
             destruct (setitem a i b); simpl; [|reflexivity]
         end;
  reflexivity.

Section Bodies.
Context {O F : Type} `{Arith F} `{Trig F} `{Number O F}.

Lemma coefficients_Ok (om : O) (ze w de : F) :
  coefficients om ze = Ok (w, de) → fmul_num ze om = Ok de ∧ neg_pow2 om = Ok w.
Proof.
  unfold coefficients. destruct (fmul_num ze om) as [d|]; simpl; [|discriminate].
  destruct (neg_pow2 om) as [w'|]; simpl; [|discriminate]. intros [= -> ->]. auto.
Qed.

Lemma coefficients_Raise (om : O) (ze : F) (e : exn) :
  coefficients om ze = Raise e →
  fmul_num ze om = Raise e ∨ (∃ de, fmul_num ze om = Ok de) ∧ neg_pow2 om = Raise e.
Proof.
  unfold coefficients. destruct (fmul_num ze om) as [d|e']; simpl.
  - destruct (neg_pow2 om) as [w'|e']; simpl; [discriminate|]. intros [= ->]. eauto.
  - intros [= ->]. auto.
Qed.

(** What the three functions [acc] return, when [-om**2] evaluates to [w]
    and when it raises. *)
Lemma undamped_acc_value (om : O) (w t x v : F) :
  neg_pow2 om = Ok w → Undamped.acc x om = Ok (undamped_law w t x v).
Proof. intros Hw. unfold Undamped.acc. rewrite Hw. reflexivity. Qed.

Lemma damped_acc_value (om : O) (w de t x v : F) :
  neg_pow2 om = Ok w → Damped.acc x v om de = Ok (damped_law w de t x v).
Proof. intros Hw. unfold Damped.acc. rewrite Hw. reflexivity. Qed.

Lemma driven_acc_value (om : O) (w de a_d om_d t x v : F) :
  neg_pow2 om = Ok w →
  Driven.acc t x v om de a_d om_d = Ok (driven_law w de a_d om_d t x v).
Proof. intros Hw. unfold Driven.acc. rewrite Hw. reflexivity. Qed.

Lemma acc_raises (om : O) (e : exn) :
  neg_pow2 om = Raise e →
  (∀ x, Undamped.acc x om = Raise e) ∧
  (∀ de x v, Damped.acc x v om de = Raise e) ∧
  (∀ de a_d om_d t x v, Driven.acc t x v om de a_d om_d = Raise e).
Proof.
  intros Hw. unfold Undamped.acc, Damped.acc, Driven.acc. rewrite Hw.
  repeat split; reflexivity.
Qed.

Lemma undamped_ec_body_step (om : O) (w : F) (i : nat) (s : globals F) :
  neg_pow2 om = Ok w →
  Undamped.ec_body om i s = step EulerCromer (undamped_law w) i s.
Proof.
  intros Hw. unfold Undamped.ec_body, Undamped.acc, undamped_law. rewrite Hw.
  body_is_step.
Qed.

Lemma undamped_eu_body_step (om : O) (w : F) (i : nat) (s : globals F) :
  neg_pow2 om = Ok w →
  Undamped.eu_body om i s = step Euler (undamped_law w) i s.
Proof.
  intros Hw. unfold Undamped.eu_body, Undamped.acc, undamped_law. rewrite Hw.
  body_is_step.
Qed.

Lemma damped_ec_body_step (om : O) (ze w de : F) (i : nat) (s : globals F) :
  coefficients om ze = Ok (w, de) →
  Damped.ec_body om ze i s = step EulerCromer (damped_law w de) i s.
Proof.
  intros Hc. apply coefficients_Ok in Hc as [Hde Hw].
  unfold Damped.ec_body, Damped.acc, damped_law. rewrite Hde, Hw.
  body_is_step.
Qed.

Lemma driven_ec_body_step (om : O) (ze a0 om_d w de : F) (i : nat) (s : globals F) :
  coefficients om ze = Ok (w, de) →
  Driven.ec_body om ze a0 om_d i s = step EulerCromer (driven_law w de a0 om_d) i s.
Proof.
  intros Hc. apply coefficients_Ok in Hc as [Hde Hw].
  unfold Driven.ec_body, Driven.acc, driven_law. rewrite Hde, Hw.
  body_is_step.
Qed.

(** An iteration that finds [x[i]] and [v[i]] raises the exception of the
    coefficients. *)
Lemma undamped_body_raises (om : O) (e : exn) (i : nat) (s : globals F) (xi : F) :
  neg_pow2 om = Raise e → g_x s !! i = Some xi →
  Undamped.ec_body om i s = Raise e ∧ Undamped.eu_body om i s = Raise e.
Proof.
  intros Hw Hx. unfold Undamped.ec_body, Undamped.eu_body, Undamped.acc.
  rewrite Hw, (getitem_Some _ _ _ Hx). split; reflexivity.
Qed.

Lemma damped_body_raises (om : O) (ze : F) (e : exn) (i : nat) (s : globals F) (xi vi : F) :
  coefficients om ze = Raise e → g_x s !! i = Some xi → g_v s !! i = Some vi →
  Damped.ec_body om ze i s = Raise e.
Proof.
  intros Hc Hx Hv. unfold Damped.ec_body, Damped.acc.
  rewrite (getitem_Some _ _ _ Hx), (getitem_Some _ _ _ Hv).
  apply coefficients_Raise in Hc as [Hde|[[de Hde] Hw]]; rewrite Hde; [reflexivity|].
  rewrite Hw. reflexivity.
Qed.

Lemma driven_body_raises (om : O) (ze a0 om_d : F) (e : exn) (i : nat) (s : globals F)
    (xi vi : F) :
  coefficients om ze = Raise e → g_x s !! i = Some xi → g_v s !! i = Some vi →
  Driven.ec_body om ze a0 om_d i s = Raise e.
Proof.
  intros Hc Hx Hv. unfold Driven.ec_body, Driven.acc.
  rewrite (getitem_Some _ _ _ Hx), (getitem_Some _ _ _ Hv).
  apply coefficients_Raise in Hc as [Hde|[[de Hde] Hw]]; rewrite Hde; [reflexivity|].
  rewrite Hw. reflexivity.
Qed.

(** Without the coefficients no iteration returns. *)
Lemma undamped_body_not_Ok (om : O) (e : exn) (i : nat) (s s' : globals F) :
  neg_pow2 om = Raise e →
  Undamped.ec_body om i s ≠ Ok s' ∧ Undamped.eu_body om i s ≠ Ok s'.
Proof.
  intros Hw. unfold Undamped.ec_body, Undamped.eu_body, Undamped.acc. rewrite Hw.
  split; destruct (getitem (g_x s) i); discriminate.
Qed.

Lemma damped_body_not_Ok (om : O) (ze : F) (e : exn) (i : nat) (s s' : globals F) :
  coefficients om ze = Raise e → Damped.ec_body om ze i s ≠ Ok s'.
Proof.
  intros Hc. unfold Damped.ec_body, Damped.acc.
  destruct (getitem (g_x s) i); [|discriminate].
  destruct (getitem (g_v s) i); [|discriminate]. simpl.
  apply coefficients_Raise in Hc as [Hde|[[de Hde] Hw]]; rewrite Hde; [discriminate|].
  rewrite Hw. discriminate.
Qed.

Lemma driven_body_not_Ok (om : O) (ze a0 om_d : F) (e : exn) (i : nat) (s s' : globals F) :
  coefficients om ze = Raise e → Driven.ec_body om ze a0 om_d i s ≠ Ok s'.
Proof.
  intros Hc. unfold Driven.ec_body, Driven.acc.
  destruct (getitem (g_x s) i); [|discriminate].
  destruct (getitem (g_v s) i); [|discriminate]. simpl.
  apply coefficients_Raise in Hc as [Hde|[[de Hde] Hw]]; rewrite Hde; [discriminate|].
  rewrite Hw. discriminate.
Qed.

(** A loop none of whose iterations returns returns only when it has no
    iteration. *)
Lemma for_each_not_Ok {S : Type} (body : nat → S → result S) (idx : list nat) (s s' : S) :
  (∀ i s s', body i s ≠ Ok s') → for_each body idx s = Ok s' → idx = [] ∧ s' = s.
Proof.
  intros Hno. destruct idx as [|i idx]; simpl.
  - intros [= <-]. auto.
  - destruct (body i s) as [s1|] eqn:E; [|discriminate]. now apply Hno in E.
Qed.

(** The first iteration of a loop with [N ≥ 1] iterations that raises ends
    the loop. *)
Lemma first_iteration_raises {S : Type} (body : nat → S → result S) (N : Z) (s : S) (e : exn) :
  1 ≤ N → body 0%nat s = Raise e → for_range N body s = Raise e.
Proof.
  intros HN Hb. unfold for_range.
  destruct (Z.to_nat N) as [|n] eqn:En; [lia|].
  simpl. rewrite Hb. reflexivity.
Qed.

End Bodies.

Section LoopsOfCells.
Context {O F : Type} `{ArithLaws F} `{Trig F} `{Number O F}.

Lemma undamped_ec_loop (N : Z) (om : O) (w : F) (s : globals F) :
  neg_pow2 om = Ok w →
  for_range N (Undamped.ec_body om) s = for_range N (step EulerCromer (undamped_law w)) s.
Proof. intros Hw. apply for_each_ext. intros. now apply undamped_ec_body_step. Qed.

Lemma undamped_eu_loop (N : Z) (om : O) (w : F) (s : globals F) :
  neg_pow2 om = Ok w →
  for_range N (Undamped.eu_body om) s = for_range N (step Euler (undamped_law w)) s.
Proof. intros Hw. apply for_each_ext. intros. now apply undamped_eu_body_step. Qed.

Lemma damped_cell_integrate (p : Damped.params) (w de : F) :
  coefficients (Damped.om p) (Damped.ze p) = Ok (w, de) →
  Damped.cell p =
  integrate EulerCromer (damped_law w de)
    (Damped.tmax p) (Damped.N p) (Damped.x0 p) (Damped.v0 p).
Proof.
  intros Hc. unfold Damped.cell, integrate. destruct (setup _ _ _ _); simpl; [|reflexivity].
  apply for_each_ext. intros. now apply damped_ec_body_step.
Qed.

Lemma driven_cell_integrate (p : Driven.params) (w de : F) :
  coefficients (Driven.om p) (Driven.ze p) = Ok (w, de) →
  Driven.cell p =
  (tmax ← py_div (fmul (of_int 100) np_pi) (Driven.om_d p);
   integrate EulerCromer (driven_law w de (Driven.a0 p) (Driven.om_d p))
     tmax (Driven.N p) (Driven.x0 p) (of_int 0)).
Proof.
  intros Hc. unfold Driven.cell, integrate. destruct (py_div _ _); simpl; [|reflexivity].
  destruct (setup _ _ _ _); simpl; [|reflexivity].
  apply for_each_ext. intros. now apply driven_ec_body_step.
Qed.

(** The undamped cell: the arrays at its end have [N+1] entries and start
    with the initial conditions; when at least one of the two loops is
    switched on, they are those of a run of the scheme of the last loop. *)
Lemma undamped_integration_spec (p : Undamped.params) (w : F) :
  1 ≤ Undamped.N p → neg_pow2 (Undamped.om p) = Ok w →
  ∃ s, Undamped.integration p = Ok s ∧
    g_dt s = fdiv (Undamped.tmax p) (of_int (Undamped.N p)) ∧
    np_linspace (of_int 0) (Undamped.tmax p) (Undamped.N p + 1) = Ok (g_t s) ∧
    length (g_t s) = S (Z.to_nat (Undamped.N p)) ∧
    sized (Z.to_nat (Undamped.N p)) s ∧
    g_x s !! 0%nat = Some (Undamped.x0 p) ∧ g_v s !! 0%nat = Some (Undamped.v0 p) ∧
    (Undamped.ec p || Undamped.eu p = true →
     ∀ i, (i < Z.to_nat (Undamped.N p))%nat →
       obeys (if Undamped.eu p then Euler else EulerCromer) (undamped_law w) s i).
Proof.
  intros HN Hw. unfold Undamped.integration, Undamped.euler_cromer, Undamped.euler.
  destruct (setup_ok (Undamped.tmax p) (Undamped.N p) (Undamped.x0 p) (Undamped.v0 p) HN)
    as (s0 & Hs0 & Hdt0 & Ht0 & _ & _).
  destruct (setup_sized _ _ _ _ s0 HN Hs0) as (Hsz0 & Lt0 & Hx0 & Hv0).
  rewrite Hs0. simpl.
  destruct (loop_spec EulerCromer (undamped_law w) (Undamped.N p) s0 Hsz0)
    as (s1 & Hrun1 & Hsz1 & Hdt1 & Ht1 & Hx1 & Hv1 & Hob1).
  destruct (Undamped.ec p), (Undamped.eu p); simpl.
  - rewrite (undamped_ec_loop _ _ w), Hrun1 by assumption. simpl.
    destruct (loop_spec Euler (undamped_law w) (Undamped.N p) s1 Hsz1)
      as (s2 & Hrun2 & Hsz2 & Hdt2 & Ht2 & Hx2 & Hv2 & Hob2).
    rewrite (undamped_eu_loop _ _ w), Hrun2 by assumption. exists s2.
    rewrite Hdt2, Ht2, Hx2, Hv2, Hdt1, Ht1, Hx1, Hv1. auto 10.
  - rewrite (undamped_ec_loop _ _ w), Hrun1 by assumption. simpl. exists s1.
    rewrite Hdt1, Ht1, Hx1, Hv1. auto 10.
  - destruct (loop_spec Euler (undamped_law w) (Undamped.N p) s0 Hsz0)
      as (s2 & Hrun2 & Hsz2 & Hdt2 & Ht2 & Hx2 & Hv2 & Hob2).
    rewrite (undamped_eu_loop _ _ w), Hrun2 by assumption. exists s2.
    rewrite Hdt2, Ht2, Hx2, Hv2. auto 10.
  - exists s0. repeat split; try assumption; try apply Hsz0. discriminate.
Qed.

(** With both loops switched off the cell is its head. *)
Lemma undamped_integration_no_loop (p : Undamped.params) :
  Undamped.ec p = false → Undamped.eu p = false →
  Undamped.integration p
  = setup (Undamped.tmax p) (Undamped.N p) (Undamped.x0 p) (Undamped.v0 p).
Proof.
  intros Hec Heu. unfold Undamped.integration, Undamped.euler_cromer, Undamped.euler.
  rewrite Hec, Heu. destruct (setup _ _ _ _); reflexivity.
Qed.

(** When [-om**2] raises, the first iteration of the first loop that is
    switched on ends the cell. *)
Lemma undamped_integration_raises (p : Undamped.params) (e : exn) :
  1 ≤ Undamped.N p → Undamped.ec p || Undamped.eu p = true →
  neg_pow2 (Undamped.om p) = Raise e →
  Undamped.integration p = Raise e.
Proof.
  intros HN Hflag Hw. unfold Undamped.integration, Undamped.euler_cromer, Undamped.euler.
  destruct (setup_ok (Undamped.tmax p) (Undamped.N p) (Undamped.x0 p) (Undamped.v0 p) HN)
    as (s0 & Hs0 & _).
  destruct (setup_sized _ _ _ _ s0 HN Hs0) as (_ & _ & Hx0 & _).
  destruct (undamped_body_raises (Undamped.om p) e 0 s0 _ Hw Hx0) as [Hec Heu].
  rewrite Hs0. simpl.
  destruct (Undamped.ec p); simpl.
  - rewrite (first_iteration_raises _ _ _ e HN Hec). reflexivity.
  - simpl in Hflag. rewrite Hflag. apply first_iteration_raises; assumption.
Qed.

Lemma damped_cell_raises (p : Damped.params) (e : exn) :
  1 ≤ Damped.N p → coefficients (Damped.om p) (Damped.ze p) = Raise e →
  Damped.cell p = Raise e.
Proof.
  intros HN Hc. unfold Damped.cell.
  destruct (setup_ok (Damped.tmax p) (Damped.N p) (Damped.x0 p) (Damped.v0 p) HN)
    as (s0 & Hs0 & _).
  destruct (setup_sized _ _ _ _ s0 HN Hs0) as (_ & _ & Hx0 & Hv0).
  rewrite Hs0. simpl. apply first_iteration_raises; [assumption|].
  eapply damped_body_raises; eassumption.
Qed.

Lemma driven_cell_raises (p : Driven.params) (e : exn) :
  1 ≤ Driven.N p → is_zero (Driven.om_d p) = false →
  coefficients (Driven.om p) (Driven.ze p) = Raise e →
  Driven.cell p = Raise e.
Proof.
  intros HN Hom Hc. unfold Driven.cell, py_div. rewrite Hom. simpl.
  destruct (setup_ok (fdiv (fmul (of_int 100) np_pi) (Driven.om_d p)) (Driven.N p)
              (Driven.x0 p) (of_int 0) HN) as (s0 & Hs0 & _).
  destruct (setup_sized _ _ _ _ s0 HN Hs0) as (_ & _ & Hx0 & Hv0).
  rewrite Hs0. simpl. apply first_iteration_raises; [assumption|].
  eapply driven_body_raises; eassumption.
Qed.

End LoopsOfCells.

(** ** The update rule of the loops *)

Section UpdateRule.
Context {F : Type} `{Arith F}.

(** [obeys] for a law is [updated] for the acceleration that the law gives
    at the entries of index [i]. *)
Lemma obeys_updated (sch : scheme) (law : F → F → F → F) (s : globals F) (i : nat) :
  obeys sch law s i →
  ∃ xi vi, updated sch s i xi vi (law (fmul (of_int (Z.of_nat i)) (g_dt s)) xi vi).
Proof.
  intros (xi & vi & Hx & Hv & Hv1 & Hx1). exists xi, vi.
  unfold updated. destruct sch; auto.
Qed.

End UpdateRule.

(** C1. In every step [i] from [0] to [N-1] of each of the four loops, the
    acceleration [ai] is what the function [acc] of the cell returns at the
    entries of index [i] (and, in the driven cell, the time [i*dt]), the
    new velocity is [v[i] + ai*dt], and the new position is [x[i] + v[i]*dt]
    in the Euler loop and [x[i] + v[i+1]*dt] in the Euler-Cromer loops, with
    [dt = tmax/N]; [updated] spells the equations out.  A run is one in
    which the coefficients of the law can be computed: [-om**2], and
    [ze*om] in the damped and the driven cell.  Such a cell returns, so
    the statement is not vacuous. *)
Theorem loops_obey_update_rule {O F : Type} `{ArithLaws F} `{Number O F} :
  (∀ p : Undamped.params, 1 ≤ Undamped.N p →
     Undamped.ec p || Undamped.eu p = true →
     is_ok (neg_pow2 (Undamped.om p)) = true →
     ∃ s, Undamped.integration p = Ok s ∧
       g_dt s = fdiv (Undamped.tmax p) (of_int (Undamped.N p)) ∧
       ∀ i, (i < Z.to_nat (Undamped.N p))%nat →
         ∃ xi vi ai,
           Undamped.acc xi (Undamped.om p) = Ok ai ∧
           updated (if Undamped.eu p then Euler else EulerCromer) s i xi vi ai) ∧
  (∀ p : Damped.params, 1 ≤ Damped.N p →
     is_ok (coefficients (Damped.om p) (Damped.ze p)) = true →
     ∃ s, Damped.cell p = Ok s ∧
       g_dt s = fdiv (Damped.tmax p) (of_int (Damped.N p)) ∧
       ∀ i, (i < Z.to_nat (Damped.N p))%nat →
         ∃ xi vi de ai,
           fmul_num (Damped.ze p) (Damped.om p) = Ok de ∧
           Damped.acc xi vi (Damped.om p) de = Ok ai ∧
           updated EulerCromer s i xi vi ai) ∧
  (∀ (T : Trig F) (p : Driven.params), 1 ≤ Driven.N p →
     is_zero (Driven.om_d p) = false →
     is_ok (coefficients (Driven.om p) (Driven.ze p)) = true →
     ∃ s, Driven.cell p = Ok s ∧
       g_dt s = fdiv (fdiv (fmul (of_int 100) np_pi) (Driven.om_d p))
                     (of_int (Driven.N p)) ∧
       ∀ i, (i < Z.to_nat (Driven.N p))%nat →
         ∃ xi vi de ai,
           fmul_num (Driven.ze p) (Driven.om p) = Ok de ∧
           Driven.acc (fmul (of_int (Z.of_nat i)) (g_dt s)) xi vi
             (Driven.om p) de (Driven.a0 p) (Driven.om_d p) = Ok ai ∧
           updated EulerCromer s i xi vi ai).
Proof.
  split; [|split].
  - intros p HN Hflag Hok.
    destruct (neg_pow2 (Undamped.om p)) as [w|] eqn:Hw; [|discriminate].
    destruct (undamped_integration_spec p w HN Hw)
      as (s & Hs & Hdt & _ & _ & _ & _ & _ & Hob).
    exists s. split; [exact Hs|]. split; [exact Hdt|]. intros i Hi.
    destruct (obeys_updated _ _ _ _ (Hob Hflag i Hi)) as (xi & vi & Hup).
    exists xi, vi. eexists. split; [|exact Hup].
    now apply undamped_acc_value.
  - intros p HN Hok.
    destruct (coefficients (Damped.om p) (Damped.ze p)) as [[w de]|] eqn:Hc; [|discriminate].
    rewrite (damped_cell_integrate p w de Hc).
    destruct (integrate_spec EulerCromer (damped_law w de)
                (Damped.tmax p) (Damped.N p) (Damped.x0 p) (Damped.v0 p) HN)
      as (s & Hs & Hdt & _ & _ & _ & _ & _ & Hob).
    exists s. split; [exact Hs|]. split; [exact Hdt|]. intros i Hi.
    destruct (obeys_updated _ _ _ _ (Hob i Hi)) as (xi & vi & Hup).
    apply coefficients_Ok in Hc as [Hde Hw].
    exists xi, vi, de. eexists. split; [exact Hde|]. split; [|exact Hup].
    now apply damped_acc_value.
  - intros T p HN Hom Hok.
    destruct (coefficients (Driven.om p) (Driven.ze p)) as [[w de]|] eqn:Hc; [|discriminate].
    rewrite (driven_cell_integrate p w de Hc). unfold py_div. rewrite Hom. simpl.
    destruct (integrate_spec EulerCromer
                (driven_law w de (Driven.a0 p) (Driven.om_d p))
                (fdiv (fmul (of_int 100) np_pi) (Driven.om_d p))
                (Driven.N p) (Driven.x0 p) (of_int 0) HN)
      as (s & Hs & Hdt & _ & _ & _ & _ & _ & Hob).
    exists s. split; [exact Hs|]. split; [exact Hdt|]. intros i Hi.
    destruct (obeys_updated _ _ _ _ (Hob i Hi)) as (xi & vi & Hup).
    apply coefficients_Ok in Hc as [Hde Hw].
    exists xi, vi, de. eexists. split; [exact Hde|]. split; [|exact Hup].
    now apply driven_acc_value.
Qed.

Lemma loops_obey_update_rule_witness :
  (∃ s, Undamped.integration undamped_nb = Ok s ∧
     g_dt s = fdiv (Undamped.tmax undamped_nb) (of_int (Undamped.N undamped_nb)) ∧
     ∀ i, (i < Z.to_nat (Undamped.N undamped_nb))%nat →
       ∃ xi vi ai,
         Undamped.acc xi (Undamped.om undamped_nb) = Ok ai ∧
         updated EulerCromer s i xi vi ai) ∧
  (∃ s, Damped.cell damped_nb = Ok s ∧
     g_dt s = fdiv (Damped.tmax damped_nb) (of_int (Damped.N damped_nb)) ∧
     ∀ i, (i < Z.to_nat (Damped.N damped_nb))%nat →
       ∃ xi vi de ai,
         fmul_num (Damped.ze damped_nb) (Damped.om damped_nb) = Ok de ∧
         Damped.acc xi vi (Damped.om damped_nb) de = Ok ai ∧
         updated EulerCromer s i xi vi ai) ∧
  (∃ s, Driven.cell driven_nb = Ok s ∧
     g_dt s = fdiv (fdiv (fmul (of_int 100) np_pi) (Driven.om_d driven_nb))
                   (of_int (Driven.N driven_nb)) ∧
     ∀ i, (i < Z.to_nat (Driven.N driven_nb))%nat →
       ∃ xi vi de ai,
         fmul_num (Driven.ze driven_nb) (Driven.om driven_nb) = Ok de ∧
         Driven.acc (fmul (of_int (Z.of_nat i)) (g_dt s)) xi vi
           (Driven.om driven_nb) de (Driven.a0 driven_nb) (Driven.om_d driven_nb) = Ok ai ∧
         updated EulerCromer s i xi vi ai).
Proof.
  split; [|split].
  - apply (proj1 (loops_obey_update_rule (O:=Z) (F:=spec_float)) undamped_nb);
      [simpl; lia | reflexivity | vm_compute; reflexivity].
  - apply (proj1 (proj2 (loops_obey_update_rule (O:=Z) (F:=spec_float))) damped_nb);
      [simpl; lia | vm_compute; reflexivity].
  - apply (proj2 (proj2 (loops_obey_update_rule (O:=R) (F:=R))) R_trig driven_nb);
      [simpl; lia | apply Ris_zero_false; simpl; lra | reflexivity].
Defined.

(** ** What the loops leave alone *)

Section FrameOfLoops.
Context {F : Type} `{Arith F}.

Lemma setup_inv (tmax : F) (N : Z) (x0 v0 : F) (s0 : globals F) :
  setup tmax N x0 v0 = Ok s0 →
  g_x s0 !! 0%nat = Some x0 ∧ g_v s0 !! 0%nat = Some v0.
Proof.
  unfold setup. intros Hs.
  apply bind_Ok in Hs as (dt & _ & Hs). apply bind_Ok in Hs as (t & _ & Hs).
  apply bind_Ok in Hs as (x & _ & Hs). apply bind_Ok in Hs as (v & _ & Hs).
  apply bind_Ok in Hs as (x' & Hx & Hs). apply bind_Ok in Hs as (v' & Hv & Hs).
  apply setitem_Ok in Hx as [Lx ->]. apply setitem_Ok in Hv as [Lv ->].
  injection Hs as <-. simpl. rewrite !list_lookup_insert_eq by assumption. auto.
Qed.

Lemma step_frame_rule (sch : scheme) (law : F → F → F → F) :
  loop_frame_rule (step sch law).
Proof.
  assert (Hpre : prefix_final (step sch law)).
  { intros s0 k k' sk sk' Hk Hsk Hsk'.
    replace k' with (k + (k' - k))%nat in Hsk' by lia.
    rewrite seq_app, for_each_app, Hsk in Hsk'. simpl in Hsk'.
    apply loop_frame in Hsk' as (_ & Ht & _ & _ & Hj). auto. }
  split; [|split].
  - intros i s s' Hs.
    apply step_inv in Hs as (xi & vi & _ & _ & _ & _ & ->). simpl.
    repeat split; try reflexivity; apply list_lookup_insert_ne; lia.
  - exact Hpre.
  - intros tmax N x0 v0 s0 k sk Hs0 Hsk.
    apply setup_inv in Hs0 as [Hx0 Hv0].
    destruct (Hpre s0 0%nat k s0 sk (Nat.le_0_l k) eq_refl Hsk) as [_ Hj].
    destruct (Hj 0%nat (le_n 0)) as [-> ->]. auto.
Qed.

Lemma loop_frame_rule_ext (b1 b2 : nat → globals F → result (globals F)) :
  (∀ i s, b1 i s = b2 i s) → loop_frame_rule b2 → loop_frame_rule b1.
Proof.
  intros E (Hw & Hp & Hk). split; [|split].
  - intros i s s' Hs. rewrite E in Hs. eauto.
  - intros s0 k k' sk sk' Hkk Hsk Hsk'.
    rewrite (for_each_ext b1 b2) in Hsk, Hsk' by exact E. eauto.
  - intros tmax N x0 v0 s0 k sk Hs0 Hsk.
    rewrite (for_each_ext b1 b2) in Hsk by exact E. eauto.
Qed.

(** A body that never returns writes nothing. *)
Lemma loop_frame_rule_not_Ok (body : nat → globals F → result (globals F)) :
  (∀ i s s', body i s ≠ Ok s') → loop_frame_rule body.
Proof.
  intros Hno. split; [|split].
  - intros i s s' Hs. now apply Hno in Hs.
  - intros s0 k k' sk sk' Hkk Hsk Hsk'.
    apply (for_each_not_Ok body) in Hsk as [_ ->]; [|exact Hno].
    apply (for_each_not_Ok body) in Hsk' as [_ ->]; [|exact Hno]. auto.
  - intros tmax N x0 v0 s0 k sk Hs0 Hsk.
    apply (for_each_not_Ok body) in Hsk as [_ ->]; [|exact Hno].
    eapply setup_inv; eassumption.
Qed.

(** A loop whose body is [step] for some law, or never returns, keeps
    [dt], [t], the lengths of [x] and [v] and the entries of index 0. *)
Lemma loop_keeps (body : nat → globals F → result (globals F)) (n : nat) (s s' : globals F) :
  (∃ sch law, ∀ i s, body i s = step sch law i s) ∨ (∀ i s s', body i s ≠ Ok s') →
  for_each body (seq 0 n) s = Ok s' →
  g_dt s' = g_dt s ∧ g_t s' = g_t s ∧
  length (g_x s') = length (g_x s) ∧ length (g_v s') = length (g_v s) ∧
  g_x s' !! 0%nat = g_x s !! 0%nat ∧ g_v s' !! 0%nat = g_v s !! 0%nat.
Proof.
  intros [(sch & law & E)|Hno] Hrun.
  - rewrite (for_each_ext body (step sch law)) in Hrun by exact E.
    apply loop_frame in Hrun as (Hdt & Ht & Lx & Lv & Hj).
    destruct (Hj 0%nat (le_n 0)). auto 10.
  - apply (for_each_not_Ok body) in Hrun as [_ ->]; [|exact Hno]. auto 10.
Qed.

End FrameOfLoops.

Section FrameOfCells.
Context {O F : Type} `{ArithLaws F} `{Number O F}.

Lemma undamped_bodies_step_or_not_Ok (om : O) :
  ((∃ sch law, ∀ i s, Undamped.ec_body om i s = step sch law i s) ∨
   (∀ i s s', Undamped.ec_body om i s ≠ Ok s')) ∧
  ((∃ sch law, ∀ i s, Undamped.eu_body om i s = step sch law i s) ∨
   (∀ i s s', Undamped.eu_body om i s ≠ Ok s')).
Proof.
  destruct (neg_pow2 om) as [w|e] eqn:Hw.
  - split; left.
    + exists EulerCromer, (undamped_law w). intros. now apply undamped_ec_body_step.
    + exists Euler, (undamped_law w). intros. now apply undamped_eu_body_step.
  - split; right; intros i s s'; now apply (undamped_body_not_Ok om e i s s').
Qed.

Lemma damped_body_step_or_not_Ok (om : O) (ze : F) :
  (∃ sch law, ∀ i s, Damped.ec_body om ze i s = step sch law i s) ∨
  (∀ i s s', Damped.ec_body om ze i s ≠ Ok s').
Proof.
  destruct (coefficients om ze) as [[w de]|e] eqn:Hc.
  - left. exists EulerCromer, (damped_law w de). intros. now apply damped_ec_body_step.
  - right. intros i s s'. now apply (damped_body_not_Ok om ze e).
Qed.

Lemma driven_body_step_or_not_Ok `{Trig F} (om : O) (ze a0 om_d : F) :
  (∃ sch law, ∀ i s, Driven.ec_body om ze a0 om_d i s = step sch law i s) ∨
  (∀ i s s', Driven.ec_body om ze a0 om_d i s ≠ Ok s').
Proof.
  destruct (coefficients om ze) as [[w de]|e] eqn:Hc.
  - left. exists EulerCromer, (driven_law w de a0 om_d). intros.
    now apply driven_ec_body_step.
  - right. intros i s s'. now apply (driven_body_not_Ok om ze a0 om_d e).
Qed.

Lemma setup_raises (tmax : F) (N : Z) (x0 v0 : F) :
  N < 1 → setup tmax N x0 v0 = Raise (config_error N).
Proof.
  intros HN. unfold setup, py_div, config_error.
  destruct (Z.eqb_spec N 0) as [->|HN0].
  - rewrite of_int_zero. reflexivity.
  - rewrite of_int_nonzero by assumption. simpl.
    unfold np_linspace, np_zeros.
    destruct (Z.eqb_spec N (-1)) as [->|HN1]; [reflexivity|].
    destruct (Z.ltb_spec (N + 1) 0); [reflexivity | lia].
Qed.

(** The head of a cell returns for a step count [N ≥ 1] only, with arrays
    of [N+1] entries. *)
Lemma setup_Ok (tmax : F) (N : Z) (x0 v0 : F) (s0 : globals F) :
  setup tmax N x0 v0 = Ok s0 →
  1 ≤ N ∧ g_dt s0 = fdiv tmax (of_int N) ∧
  np_linspace (of_int 0) tmax (N + 1) = Ok (g_t s0) ∧
  length (g_t s0) = S (Z.to_nat N) ∧ sized (Z.to_nat N) s0 ∧
  g_x s0 !! 0%nat = Some x0 ∧ g_v s0 !! 0%nat = Some v0.
Proof.
  intros Hs.
  destruct (Z_lt_le_dec N 1) as [HN|HN].
  - rewrite setup_raises in Hs by assumption. discriminate.
  - destruct (setup_ok tmax N x0 v0 HN) as (s & Hs' & Hdt & Ht & _).
    assert (s = s0) as -> by congruence.
    destruct (setup_sized tmax N x0 v0 s0 HN Hs) as (Hsz & Lt & Hx & Hv).
    auto 10.
Qed.

(** The variables at the end of a cell that returned: the step and the
    time grid are those of the head of the cell, the arrays have [N+1]
    entries, and the entries of index 0 are the initial conditions. *)
Lemma undamped_integration_Ok (p : Undamped.params) (s : globals F) :
  Undamped.integration p = Ok s →
  1 ≤ Undamped.N p ∧
  g_dt s = fdiv (Undamped.tmax p) (of_int (Undamped.N p)) ∧
  np_linspace (of_int 0) (Undamped.tmax p) (Undamped.N p + 1) = Ok (g_t s) ∧
  length (g_t s) = S (Z.to_nat (Undamped.N p)) ∧
  sized (Z.to_nat (Undamped.N p)) s ∧
  g_x s !! 0%nat = Some (Undamped.x0 p) ∧ g_v s !! 0%nat = Some (Undamped.v0 p).
Proof.
  unfold Undamped.integration. intros Hrun.
  apply bind_Ok in Hrun as (s0 & Hs0 & Hrun).
  apply bind_Ok in Hrun as (s1 & Hc1 & Hc2).
  apply setup_Ok in Hs0 as (HN & Hdt & Ht & Lt & [Lx Lv] & Hx & Hv).
  destruct (undamped_bodies_step_or_not_Ok (Undamped.om p)) as [Bc Be].
  assert (K1 : g_dt s1 = g_dt s0 ∧ g_t s1 = g_t s0 ∧
               length (g_x s1) = length (g_x s0) ∧ length (g_v s1) = length (g_v s0) ∧
               g_x s1 !! 0%nat = g_x s0 !! 0%nat ∧ g_v s1 !! 0%nat = g_v s0 !! 0%nat).
  { unfold Undamped.euler_cromer in Hc1. destruct (Undamped.ec p).
    - exact (loop_keeps _ _ _ _ Bc Hc1).
    - injection Hc1 as <-. auto 10. }
  assert (K2 : g_dt s = g_dt s1 ∧ g_t s = g_t s1 ∧
               length (g_x s) = length (g_x s1) ∧ length (g_v s) = length (g_v s1) ∧
               g_x s !! 0%nat = g_x s1 !! 0%nat ∧ g_v s !! 0%nat = g_v s1 !! 0%nat).
  { unfold Undamped.euler in Hc2. destruct (Undamped.eu p).
    - exact (loop_keeps _ _ _ _ Be Hc2).
    - injection Hc2 as <-. auto 10. }
  destruct K1 as (A1 & A2 & A3 & A4 & A5 & A6), K2 as (B1 & B2 & B3 & B4 & B5 & B6).
  unfold sized. rewrite B1, B2, B3, B4, B5, B6, A1, A2, A3, A4, A5, A6. auto 10.
Qed.

Lemma damped_cell_Ok (p : Damped.params) (s : globals F) :
  Damped.cell p = Ok s →
  1 ≤ Damped.N p ∧
  g_dt s = fdiv (Damped.tmax p) (of_int (Damped.N p)) ∧
  np_linspace (of_int 0) (Damped.tmax p) (Damped.N p + 1) = Ok (g_t s) ∧
  length (g_t s) = S (Z.to_nat (Damped.N p)) ∧
  sized (Z.to_nat (Damped.N p)) s ∧
  g_x s !! 0%nat = Some (Damped.x0 p) ∧ g_v s !! 0%nat = Some (Damped.v0 p).
Proof.
  unfold Damped.cell. intros Hrun.
  apply bind_Ok in Hrun as (s0 & Hs0 & Hrun).
  apply setup_Ok in Hs0 as (HN & Hdt & Ht & Lt & [Lx Lv] & Hx & Hv).
  destruct (loop_keeps _ _ _ _ (damped_body_step_or_not_Ok (Damped.om p) (Damped.ze p)) Hrun)
    as (A1 & A2 & A3 & A4 & A5 & A6).
  unfold sized. rewrite A1, A2, A3, A4, A5, A6. auto 10.
Qed.

Lemma driven_cell_Ok `{Trig F} (p : Driven.params) (s : globals F) :
  Driven.cell p = Ok s →
  let tmax := fdiv (fmul (of_int 100) np_pi) (Driven.om_d p) in
  is_zero (Driven.om_d p) = false ∧ 1 ≤ Driven.N p ∧
  g_dt s = fdiv tmax (of_int (Driven.N p)) ∧
  np_linspace (of_int 0) tmax (Driven.N p + 1) = Ok (g_t s) ∧
  length (g_t s) = S (Z.to_nat (Driven.N p)) ∧
  sized (Z.to_nat (Driven.N p)) s ∧
  g_x s !! 0%nat = Some (Driven.x0 p) ∧ g_v s !! 0%nat = Some (of_int 0).
Proof.
  unfold Driven.cell, py_div. cbv zeta.
  destruct (is_zero (Driven.om_d p)); [discriminate|]. simpl. intros Hrun.
  apply bind_Ok in Hrun as (s0 & Hs0 & Hrun).
  apply setup_Ok in Hs0 as (HN & Hdt & Ht & Lt & [Lx Lv] & Hx & Hv).
  destruct (loop_keeps _ _ _ _
              (driven_body_step_or_not_Ok (Driven.om p) (Driven.ze p) (Driven.a0 p)
                 (Driven.om_d p)) Hrun)
    as (A1 & A2 & A3 & A4 & A5 & A6).
  unfold sized. rewrite A1, A2, A3, A4, A5, A6. auto 10.
Qed.

End FrameOfCells.

(** C10. In each loop of the notebook, iteration [i] assigns to [x[i+1]]
    and [v[i+1]] only: it leaves [t], [dt] and every other entry of [x] and
    [v] as they were.  Hence the samples of index at most [k] are final
    after [k] iterations, whatever number of iterations follows, and [x[0]],
    [v[0]] hold the initial conditions throughout the run. *)
Theorem loops_write_only_next_sample {O F : Type} `{Arith F} `{Number O F} :
  (∀ (om : O) (ze : F), loop_frame_rule (Damped.ec_body om ze)) ∧
  (∀ (T : Trig F) (om : O) (ze a0 om_d : F),
     loop_frame_rule (Driven.ec_body om ze a0 om_d)) ∧
  (∀ om : O, loop_frame_rule (Undamped.ec_body om)) ∧
  (∀ om : O, loop_frame_rule (Undamped.eu_body om)).
Proof.
  split; [|split; [|split]]; intros.
  - destruct (coefficients om ze) as [[w de]|e] eqn:Hc.
    + eapply loop_frame_rule_ext; [|apply (step_frame_rule EulerCromer (damped_law w de))].
      intros. now apply damped_ec_body_step.
    + apply loop_frame_rule_not_Ok. intros i s s'. now apply (damped_body_not_Ok om ze e).
  - destruct (coefficients om ze) as [[w de]|e] eqn:Hc.
    + eapply loop_frame_rule_ext;
        [|apply (step_frame_rule EulerCromer (driven_law w de a0 om_d))].
      intros. now apply driven_ec_body_step.
    + apply loop_frame_rule_not_Ok. intros i s s'.
      now apply (driven_body_not_Ok om ze a0 om_d e).
  - destruct (neg_pow2 om) as [w|e] eqn:Hw.
    + eapply loop_frame_rule_ext; [|apply (step_frame_rule EulerCromer (undamped_law w))].
      intros. now apply undamped_ec_body_step.
    + apply loop_frame_rule_not_Ok. intros i s s'.
      now apply (undamped_body_not_Ok om e i s s').
  - destruct (neg_pow2 om) as [w|e] eqn:Hw.
    + eapply loop_frame_rule_ext; [|apply (step_frame_rule Euler (undamped_law w))].
      intros. now apply undamped_eu_body_step.
    + apply loop_frame_rule_not_Ok. intros i s s'.
      now apply (undamped_body_not_Ok om e i s s').
Qed.

Lemma loops_write_only_next_sample_witness :
  let om : Z := 2 in
  let ze : spec_float := fdiv (of_int 1) (of_int 10) in
  ∃ s0 s1 s2,
    setup (of_int 20) 2 (of_int 1) (of_int 0) = Ok s0 ∧
    for_each (Damped.ec_body om ze) (seq 0 1) s0 = Ok s1 ∧
    for_each (Damped.ec_body om ze) (seq 0 2) s0 = Ok s2 ∧
    (g_t s2 = g_t s1 ∧
     ∀ j, (j ≤ 1)%nat → g_x s2 !! j = g_x s1 !! j ∧ g_v s2 !! j = g_v s1 !! j) ∧
    (g_x s2 !! 0%nat = Some (of_int 1) ∧ g_v s2 !! 0%nat = Some (of_int 0)).
Proof.
  intros om ze.
  destruct (proj1 loops_write_only_next_sample om ze) as (_ & Hfinal & Hinit).
  eexists _, _, _.
  split; [vm_compute; reflexivity|].
  match goal with |- for_each _ _ ?s = _ ∧ _ => set (s0 := s) end.
  split; [vm_compute; reflexivity|].
  split; [vm_compute; reflexivity|].
  split.
  - apply (Hfinal s0 1%nat 2%nat); [lia | vm_compute; reflexivity | vm_compute; reflexivity].
  - apply (Hinit (of_int 20) 2 (of_int 1) (of_int 0) s0 2%nat);
      [vm_compute; reflexivity | vm_compute; reflexivity].
Defined.

(** ** Length of the trajectory and initial conditions *)

(** C5. A cell that returns leaves arrays [t], [x] and [v] of [N+1] entries,
    with [N ≥ 1], whose entries [x[0]], [v[0]] are the initial conditions the
    cell was given ([v[0] = 0] in the driven cell, which has no [v0]).  For
    a step count [N ≥ 1] each cell returns, provided the coefficients of its
    acceleration law can be computed: [-om**2], and [ze*om] in the damped and
    the driven cell (and [om_d ≠ 0] in the driven cell, which divides by
    it). *)
Theorem trajectory_has_N_plus_1_samples {O F : Type} `{ArithLaws F} `{Number O F} :
  (∀ (p : Undamped.params) (s : globals F), Undamped.integration p = Ok s →
     1 ≤ Undamped.N p ∧
     Z.of_nat (length (g_t s)) = Undamped.N p + 1 ∧
     Z.of_nat (length (g_x s)) = Undamped.N p + 1 ∧
     Z.of_nat (length (g_v s)) = Undamped.N p + 1 ∧
     g_x s !! 0%nat = Some (Undamped.x0 p) ∧
     g_v s !! 0%nat = Some (Undamped.v0 p)) ∧
  (∀ (p : Damped.params) (s : globals F), Damped.cell p = Ok s →
     1 ≤ Damped.N p ∧
     Z.of_nat (length (g_t s)) = Damped.N p + 1 ∧
     Z.of_nat (length (g_x s)) = Damped.N p + 1 ∧
     Z.of_nat (length (g_v s)) = Damped.N p + 1 ∧
     g_x s !! 0%nat = Some (Damped.x0 p) ∧
     g_v s !! 0%nat = Some (Damped.v0 p)) ∧
  (∀ (T : Trig F) (p : Driven.params) (s : globals F), Driven.cell p = Ok s →
     1 ≤ Driven.N p ∧
     Z.of_nat (length (g_t s)) = Driven.N p + 1 ∧
     Z.of_nat (length (g_x s)) = Driven.N p + 1 ∧
     Z.of_nat (length (g_v s)) = Driven.N p + 1 ∧
     g_x s !! 0%nat = Some (Driven.x0 p) ∧
     g_v s !! 0%nat = Some (of_int 0)) ∧
  (∀ p : Undamped.params, 1 ≤ Undamped.N p →
     (Undamped.ec p || Undamped.eu p = true →
      is_ok (neg_pow2 (Undamped.om p)) = true) →
     ∃ s, Undamped.integration p = Ok s) ∧
  (∀ p : Damped.params, 1 ≤ Damped.N p →
     is_ok (coefficients (Damped.om p) (Damped.ze p)) = true →
     ∃ s, Damped.cell p = Ok s) ∧
  (∀ (T : Trig F) (p : Driven.params), 1 ≤ Driven.N p →
     is_zero (Driven.om_d p) = false →
     is_ok (coefficients (Driven.om p) (Driven.ze p)) = true →
     ∃ s, Driven.cell p = Ok s).
Proof.
  repeat apply conj.
  - intros p s Hs.
    destruct (undamped_integration_Ok p s Hs) as (HN & _ & _ & Lt & [Lx Lv] & Hx & Hv).
    rewrite Lt, Lx, Lv. repeat split; try assumption; lia.
  - intros p s Hs.
    destruct (damped_cell_Ok p s Hs) as (HN & _ & _ & Lt & [Lx Lv] & Hx & Hv).
    rewrite Lt, Lx, Lv. repeat split; try assumption; lia.
  - intros T p s Hs.
    destruct (driven_cell_Ok p s Hs) as (_ & HN & _ & _ & Lt & [Lx Lv] & Hx & Hv).
    rewrite Lt, Lx, Lv. repeat split; try assumption; lia.
  - intros p HN Hok.
    destruct (Undamped.ec p || Undamped.eu p) eqn:Hflag.
    + specialize (Hok eq_refl).
      destruct (neg_pow2 (Undamped.om p)) as [w|] eqn:Hw; [|discriminate].
      destruct (undamped_integration_spec p w HN Hw) as (s & Hs & _). eauto.
    + apply orb_false_elim in Hflag as [Hec Heu].
      rewrite (undamped_integration_no_loop p Hec Heu).
      destruct (setup_ok (Undamped.tmax p) (Undamped.N p) (Undamped.x0 p) (Undamped.v0 p) HN)
        as (s0 & Hs0 & _). eauto.
  - intros p HN Hok.
    destruct (coefficients (Damped.om p) (Damped.ze p)) as [[w de]|] eqn:Hc; [|discriminate].
    rewrite (damped_cell_integrate p w de Hc).
    destruct (integrate_spec EulerCromer (damped_law w de)
                (Damped.tmax p) (Damped.N p) (Damped.x0 p) (Damped.v0 p) HN)
      as (s & Hs & _). eauto.
  - intros T p HN Hom Hok.
    destruct (coefficients (Driven.om p) (Driven.ze p)) as [[w de]|] eqn:Hc; [|discriminate].
    rewrite (driven_cell_integrate p w de Hc). unfold py_div. rewrite Hom. simpl.
    destruct (integrate_spec EulerCromer
                (driven_law w de (Driven.a0 p) (Driven.om_d p))
                (fdiv (fmul (of_int 100) np_pi) (Driven.om_d p))
                (Driven.N p) (Driven.x0 p) (of_int 0) HN)
      as (s & Hs & _). eauto.
Qed.

Lemma trajectory_has_N_plus_1_samples_witness :
  (∃ s, Undamped.integration undamped_nb = Ok s ∧
     Z.of_nat (length (g_t s)) = 100 + 1 ∧
     Z.of_nat (length (g_x s)) = 100 + 1 ∧
     Z.of_nat (length (g_v s)) = 100 + 1 ∧
     g_x s !! 0%nat = Some (b64 1 (-1)) ∧
     g_v s !! 0%nat = Some (of_int 5)) ∧
  (∃ s, Damped.cell damped_nb = Ok s ∧
     Z.of_nat (length (g_t s)) = 250 + 1 ∧
     Z.of_nat (length (g_x s)) = 250 + 1 ∧
     Z.of_nat (length (g_v s)) = 250 + 1 ∧
     g_x s !! 0%nat = Some (of_int 1) ∧
     g_v s !! 0%nat = Some (of_int 0)) ∧
  (∃ s, Driven.cell driven_nb = Ok s ∧
     Z.of_nat (length (g_t s)) = 10000 + 1 ∧
     Z.of_nat (length (g_x s)) = 10000 + 1 ∧
     Z.of_nat (length (g_v s)) = 10000 + 1 ∧
     g_x s !! 0%nat = Some 1%R ∧
     g_v s !! 0%nat = Some (of_int 0)).
Proof.
  pose proof (trajectory_has_N_plus_1_samples (O:=Z) (F:=spec_float))
    as (F1 & F2 & _ & F4 & F5 & _).
  pose proof (trajectory_has_N_plus_1_samples (O:=R) (F:=R))
    as (_ & _ & R3 & _ & _ & R6).
  split; [|split].
  - destruct (F4 undamped_nb ltac:(simpl; lia) ltac:(intros _; vm_compute; reflexivity))
      as [s Hs].
    exists s. split; [exact Hs|]. exact (proj2 (F1 undamped_nb s Hs)).
  - destruct (F5 damped_nb ltac:(simpl; lia) ltac:(vm_compute; reflexivity)) as [s Hs].
    exists s. split; [exact Hs|]. exact (proj2 (F2 damped_nb s Hs)).
  - destruct (R6 R_trig driven_nb ltac:(simpl; lia)
                ltac:(apply Ris_zero_false; simpl; lra) eq_refl) as [s Hs].
    exists s. split; [exact Hs|]. exact (proj2 (R3 R_trig driven_nb s Hs)).
Defined.

(** ** The acceleration laws and the exact solution *)

(** C6. The three functions [acc] compute [-om² x], [-om² x - 2 de v] and
    [-om² x - 2 de v + a_d sin(om_d t)].  Over the real numbers they return
    the formulas of the text.  In any arithmetic and for any Python type of
    [om] they multiply [x] by the value of [-om**2] and combine the terms in
    the order of the source, and they raise what [-om**2] raises.  For an
    int [om] the factor [-om**2] is the exact integer, converted to a float
    ([OverflowError] when it is too large; [+0.0] for [om = 0]); for a float
    [om] in binary64 it is the negated float power of Python, which calls
    the [pow] of the C library and raises [OverflowError] when that is
    infinite, and which is [-0.0] for a zero, [-inf] for an infinity and a
    NaN for a NaN.  The damped
    and the driven loop call their law with [de = ze*om].  The laws are
    functions of their arguments alone: they neither read nor write a
    variable of the cell. *)
Theorem acceleration_laws_compute_formulas :
  (∀ x om : R, Undamped.acc x om = Ok (- om ^ 2 * x)%R) ∧
  (∀ x v om de : R, Damped.acc x v om de = Ok (- om ^ 2 * x - 2 * de * v)%R) ∧
  (∀ t x v om de a_d om_d : R,
     Driven.acc t x v om de a_d om_d =
     Ok (- om ^ 2 * x - 2 * de * v + a_d * sin (om_d * t))%R) ∧
  (∀ (O F : Type) (A : Arith F) (Num : Number O F) (om : O) (x v de : F),
     match neg_pow2 om with
     | Ok w =>
         Undamped.acc x om = Ok (fmul w x) ∧
         Damped.acc x v om de = Ok (fsub (fmul w x) (fmul (fmul (of_int 2) de) v))
     | Raise e =>
         Undamped.acc x om = Raise e ∧ Damped.acc x v om de = Raise e
     end) ∧
  (∀ (O F : Type) (A : Arith F) (T : Trig F) (Num : Number O F) (om : O)
     (t x v de a_d om_d : F),
     match neg_pow2 om with
     | Ok w =>
         Driven.acc t x v om de a_d om_d =
         Ok (fadd (fsub (fmul w x) (fmul (fmul (of_int 2) de) v))
                  (fmul a_d (np_sin (fmul om_d t))))
     | Raise e => Driven.acc t x v om de a_d om_d = Raise e
     end) ∧
  (∀ (F : Type) (A : Arith F) (om : Z),
     neg_pow2 om =
     if is_inf (of_int (- om ^ 2)) then Raise OverflowError
     else Ok (of_int (- om ^ 2))) ∧
  (∀ (c_pow : spec_float → spec_float → spec_float) (s : bool) (m : positive) (e : Z),
     @neg_pow2 _ _ (float64_number c_pow) (S754_finite s m e) =
     if SFeqb (S754_finite false m e) (b64 1 0) then Ok (b64 (-1) 0)
     else if SFis_inf (c_pow (S754_finite false m e) (b64 2 0))
          then Raise OverflowError
          else Ok (SFopp (c_pow (S754_finite false m e) (b64 2 0)))) ∧
  (∀ (c_pow : spec_float → spec_float → spec_float) (s : bool),
     @neg_pow2 _ _ (float64_number c_pow) (S754_zero s) = Ok (S754_zero true) ∧
     @neg_pow2 _ _ (float64_number c_pow) (S754_infinity s) = Ok (S754_infinity true) ∧
     @neg_pow2 _ _ (float64_number c_pow) S754_nan = Ok S754_nan) ∧
  (neg_pow2 (F:=spec_float) 0 = Ok (S754_zero false) ∧
   neg_pow2 (F:=spec_float) 5 = Ok (b64 (-25) 0)) ∧
  (∀ (O F : Type) (A : Arith F) (Num : Number O F) (om : O) (ze : F)
     (i : nat) (s : globals F),
     match fmul_num ze om, neg_pow2 om with
     | Ok de, Ok w =>
         Damped.ec_body om ze i s = step EulerCromer (damped_law w de) i s ∧
         ∀ t x v, Damped.acc x v om de = Ok (damped_law w de t x v)
     | _, _ => ∀ s', Damped.ec_body om ze i s ≠ Ok s'
     end) ∧
  (∀ (O F : Type) (A : Arith F) (T : Trig F) (Num : Number O F) (om : O)
     (ze a0 om_d : F) (i : nat) (s : globals F),
     match fmul_num ze om, neg_pow2 om with
     | Ok de, Ok w =>
         Driven.ec_body om ze a0 om_d i s
         = step EulerCromer (driven_law w de a0 om_d) i s ∧
         ∀ t x v, Driven.acc t x v om de a0 om_d = Ok (driven_law w de a0 om_d t x v)
     | _, _ => ∀ s', Driven.ec_body om ze a0 om_d i s ≠ Ok s'
     end) ∧
  (∀ ze om : R, fmul_num ze om = Ok (ze * om)%R) ∧
  (∀ (F : Type) (A : Arith F) (ze : F) (om : Z),
     fmul_num ze om =
     if is_inf (of_int om) then Raise OverflowError else Ok (fmul ze (of_int om))).
Proof.
  repeat apply conj.
  - intros. unfold Undamped.acc. simpl. f_equal. ring.
  - intros. unfold Damped.acc. simpl. f_equal. ring.
  - intros. unfold Driven.acc. simpl. f_equal. ring.
  - intros. unfold Undamped.acc, Damped.acc.
    destruct (neg_pow2 om); split; reflexivity.
  - intros. unfold Driven.acc. destruct (neg_pow2 om); reflexivity.
  - intros. unfold neg_pow2. simpl. unfold float_of_int.
    destruct (is_inf _); reflexivity.
  - intros. unfold neg_pow2. simpl.
    destruct (SFeqb _ _); [reflexivity|]. simpl.
    destruct (SFis_inf _); reflexivity.
  - intros. repeat split; reflexivity.
  - vm_compute. reflexivity.
  - vm_compute. reflexivity.
  - intros O F A Num om ze i s.
    destruct (fmul_num ze om) as [de|e] eqn:Hde.
    + destruct (neg_pow2 om) as [w|e] eqn:Hw.
      * assert (Hc : coefficients om ze = Ok (w, de))
          by (unfold coefficients; rewrite Hde, Hw; reflexivity).
        split; [now apply damped_ec_body_step|].
        intros. now apply damped_acc_value.
      * intros s'. apply (damped_body_not_Ok om ze e).
        unfold coefficients. rewrite Hde, Hw. reflexivity.
    + intros s'. apply (damped_body_not_Ok om ze e).
      unfold coefficients. rewrite Hde. reflexivity.
  - intros O F A T Num om ze a0 om_d i s.
    destruct (fmul_num ze om) as [de|e] eqn:Hde.
    + destruct (neg_pow2 om) as [w|e] eqn:Hw.
      * assert (Hc : coefficients om ze = Ok (w, de))
          by (unfold coefficients; rewrite Hde, Hw; reflexivity).
        split; [now apply driven_ec_body_step|].
        intros. now apply driven_acc_value.
      * intros s'. apply (driven_body_not_Ok om ze a0 om_d e).
        unfold coefficients. rewrite Hde, Hw. reflexivity.
    + intros s'. apply (driven_body_not_Ok om ze a0 om_d e).
      unfold coefficients. rewrite Hde. reflexivity.
  - intros. reflexivity.
  - intros. unfold fmul_num. simpl. unfold float_of_int.
    destruct (is_inf _); reflexivity.
Qed.

(** C7. For [om ≠ 0], [ex_sol] returns two arrays as long as the array of
    times, whose entries at each time [tk] are
    [x0 cos(om tk) + (v0/om) sin(om tk)] and
    [-x0 om sin(om tk) + v0 cos(om tk)]; over the real numbers these are the
    formulas of the text. *)
Theorem ex_sol_is_pointwise_formula :
  (∀ (F : Type) (A : Arith F) (T : Trig F) (t : list F) (om x0 v0 : F),
     is_zero om = false →
     ∃ xe ve, Undamped.ex_sol t om x0 v0 = Ok (xe, ve) ∧
       length xe = length t ∧ length ve = length t ∧
       ∀ k tk, t !! k = Some tk →
         xe !! k = Some (ex_x tk om x0 v0) ∧ ve !! k = Some (ex_v tk om x0 v0)) ∧
  (∀ t om x0 v0 : R,
     ex_x t om x0 v0 = (x0 * cos (om * t) + v0 / om * sin (om * t))%R ∧
     ex_v t om x0 v0 = (- x0 * om * sin (om * t) + v0 * cos (om * t))%R).
Proof.
  split.
  - intros F A T t om x0 v0 Hom. unfold Undamped.ex_sol, py_div. rewrite Hom. simpl.
    eexists _, _. split; [reflexivity|].
    rewrite !length_zip_with, !length_map. repeat split; try lia.
    + rewrite lookup_zip_with, !lookup_map, H. reflexivity.
    + rewrite lookup_zip_with, !lookup_map, H. reflexivity.
  - intros. split; reflexivity.
Qed.

Lemma ex_sol_is_pointwise_formula_witness :
  ∃ xe ve, Undamped.ex_sol [0; 1]%R 5%R (1 / 2)%R 5%R = Ok (xe, ve) ∧
    length xe = 2%nat ∧ length ve = 2%nat ∧
    ∀ k tk, [0; 1]%R !! k = Some tk →
      xe !! k = Some (ex_x tk 5 (1 / 2) 5)%R ∧ ve !! k = Some (ex_v tk 5 (1 / 2) 5)%R.
Proof.
  apply (proj1 ex_sol_is_pointwise_formula R R_arith R_trig [0; 1]%R 5%R (1 / 2)%R 5%R).
  apply Ris_zero_false. lra.
Defined.

(** ** The time grid *)

(** *** Signs in binary64 *)

Lemma SFplus_binary_round_aux (m e : Z) (l : location) :
  SFplus (binary_round_aux prec emax false m e l) = true.
Proof.
  unfold binary_round_aux.
  destruct (shr_fexp prec emax m e l) as [mrs' e'].
  destruct (shr_fexp prec emax _ e' loc_Exact) as [mrs'' e''].
  destruct (shr_m mrs''); [reflexivity| |reflexivity].
  destruct (e'' <=? emax - prec); reflexivity.
Qed.

Lemma SFplus_of_int (z : Z) : 0 ≤ z → SFplus (b64 z 0) = true.
Proof.
  intros Hz. destruct z as [|q|q]; [reflexivity| |lia].
  unfold b64, binary_normalize, binary_round.
  destruct (shl_align q 0 _) as [mz ez]. apply SFplus_binary_round_aux.
Qed.

Lemma SFplus_mul (a b : spec_float) :
  SFplus a = true → SFplus b = true → SFplus (SFmul prec emax a b) = true.
Proof.
  destruct a as [[]|[]| |[] ma ea], b as [[]|[]| |[] mb eb]; simpl;
    try reflexivity; try discriminate.
  intros _ _. apply SFplus_binary_round_aux.
Qed.

Lemma SFadd_zero_r (a : spec_float) :
  SFplus a = true → SFadd prec emax a (S754_zero false) = a.
Proof. destruct a as [[]|[]| |[] ma ea]; simpl; try reflexivity; discriminate. Qed.

(** *** The grid in binary64 *)

Lemma SFplus_div (a b : spec_float) :
  SFplus a = true → SFplus b = true → SFplus (SFdiv prec emax a b) = true.
Proof.
  destruct a as [[]|[]| |[] ma ea], b as [[]|[]| |[] mb eb]; simpl;
    try reflexivity; try discriminate.
  intros _ _. destruct (SFdiv_core_binary _ _ _ _ _ _) as [[mz ez] lz].
  apply SFplus_binary_round_aux.
Qed.

Lemma float64_linspace (m : positive) (e : Z) (N : Z) (ms : positive) (es : Z) :
  1 ≤ N →
  fdiv (S754_finite false m e) (of_int N) = S754_finite false ms es →
  ∃ t, np_linspace (of_int 0) (S754_finite false m e) (N + 1) = Ok t ∧
    t !! 0%nat = Some (of_int 0) ∧
    t !! Z.to_nat N = Some (S754_finite false m e) ∧
    ∀ i, (i < Z.to_nat N)%nat →
      t !! i = Some (fmul (of_int (Z.of_nat i)) (S754_finite false ms es)).
Proof.
  intros HN Hstep. unfold np_linspace.
  destruct (Z.ltb_spec (N + 1) 0); [lia|].
  destruct (Z.ltb_spec 0 (N + 1 - 1)); [|lia].
  destruct (Z.ltb_spec 1 (N + 1)); [|lia].
  replace (N + 1 - 1) with N by lia.
  change (fsub (S754_finite false m e) (of_int 0)) with (S754_finite false m e).
  rewrite Hstep. cbv beta iota zeta. change (is_zero (S754_finite false ms es)) with false.
  cbv iota.
  assert (Hlt : ∀ i, (i < Z.to_nat N)%nat →
            <[Z.to_nat N := S754_finite false m e]>
              (map (fun a => fadd a (of_int 0))
                 (map (fun a => fmul a (S754_finite false ms es)) (np_arange (N + 1)))) !! i
            = Some (fmul (of_int (Z.of_nat i)) (S754_finite false ms es))).
  { intros i Hi. rewrite list_lookup_insert_ne by lia.
    rewrite !lookup_map, np_arange_lookup by lia. simpl. f_equal.
    apply SFadd_zero_r, SFplus_mul; [apply SFplus_of_int; lia | reflexivity]. }
  eexists. split; [reflexivity|]. split; [|split].
  - rewrite Hlt by lia. reflexivity.
  - apply list_lookup_insert_eq. rewrite !length_map, np_arange_length. lia.
  - exact Hlt.
Qed.

(** When the step [tmax/N] underflows to zero, [np.linspace] computes the
    samples as [(i/N) * tmax]. *)
Lemma float64_linspace_underflow (m : positive) (e : Z) (N : Z) :
  1 ≤ N →
  fdiv (S754_finite false m e) (of_int N) = S754_zero false →
  ∃ t, np_linspace (of_int 0) (S754_finite false m e) (N + 1) = Ok t ∧
    t !! 0%nat = Some (of_int 0) ∧
    t !! Z.to_nat N = Some (S754_finite false m e) ∧
    ∀ i, (i < Z.to_nat N)%nat →
      t !! i = Some (fmul (fdiv (of_int (Z.of_nat i)) (of_int N)) (S754_finite false m e)).
Proof.
  intros HN Hstep. unfold np_linspace.
  destruct (Z.ltb_spec (N + 1) 0); [lia|].
  destruct (Z.ltb_spec 0 (N + 1 - 1)); [|lia].
  destruct (Z.ltb_spec 1 (N + 1)); [|lia].
  replace (N + 1 - 1) with N by lia.
  change (fsub (S754_finite false m e) (of_int 0)) with (S754_finite false m e).
  rewrite Hstep. cbv beta iota zeta. change (is_zero (S754_zero false)) with true.
  cbv iota.
  assert (HpN : SFplus (of_int N) = true) by (apply SFplus_of_int; lia).
  assert (Hlt : ∀ i, (i < Z.to_nat N)%nat →
            <[Z.to_nat N := S754_finite false m e]>
              (map (fun a => fadd a (of_int 0))
                 (map (fun a => fmul (fdiv a (of_int N)) (S754_finite false m e))
                    (np_arange (N + 1)))) !! i
            = Some (fmul (fdiv (of_int (Z.of_nat i)) (of_int N)) (S754_finite false m e))).
  { intros i Hi. rewrite list_lookup_insert_ne by lia.
    rewrite !lookup_map, np_arange_lookup by lia. simpl. f_equal.
    apply SFadd_zero_r, SFplus_mul; [|reflexivity].
    apply SFplus_div; [apply SFplus_of_int; lia | exact HpN]. }
  eexists. split; [reflexivity|]. split; [|split].
  - rewrite Hlt by lia.
    change (of_int (F:=spec_float) (Z.of_nat 0)) with (S754_zero false).
    change (of_int (F:=spec_float) 0) with (S754_zero false).
    f_equal. revert Hstep HpN. simpl.
    destruct (b64 N 0) as [[]|[]| |[] mN eN]; simpl; try discriminate; reflexivity.
  - apply list_lookup_insert_eq. rewrite !length_map, np_arange_length. lia.
  - exact Hlt.
Qed.

(** *** The grid over the real numbers *)

Lemma R_linspace (tmax : R) (N : Z) :
  1 ≤ N →
  ∃ t, np_linspace (of_int 0) tmax (N + 1) = Ok t ∧
    ∀ i, (i ≤ Z.to_nat N)%nat →
      t !! i = Some (IZR (Z.of_nat i) * (tmax / IZR N))%R.
Proof.
  intros HN. unfold np_linspace.
  destruct (Z.ltb_spec (N + 1) 0); [lia|].
  destruct (Z.ltb_spec 0 (N + 1 - 1)); [|lia].
  destruct (Z.ltb_spec 1 (N + 1)); [|lia].
  replace (N + 1 - 1) with N by lia.
  assert (HN0 : IZR N ≠ 0%R) by (apply not_0_IZR; lia).
  eexists. split; [reflexivity|]. intros i Hi.
  destruct (decide (i = Z.to_nat N)) as [->|Hne].
  - rewrite list_lookup_insert_eq.
    + f_equal. rewrite Z2Nat.id by lia. field. exact HN0.
    + destruct (is_zero _); rewrite !length_map, np_arange_length; lia.
  - rewrite list_lookup_insert_ne by lia.
    destruct (is_zero _); rewrite !lookup_map, np_arange_lookup by lia;
      simpl; f_equal; field; exact HN0.
Qed.

Lemma adjacent_all_lookup {A : Type} (r : A → A → bool) (l : list A) :
  adjacent_all r l = true →
  ∀ i a b, l !! i = Some a → l !! S i = Some b → r a b = true.
Proof.
  induction l as [|a0 l IH]; intros Hall i a b Ha Hb; [discriminate|].
  destruct l as [|b0 l]; [discriminate|].
  simpl in Hall. apply andb_prop in Hall as [Hr Hall].
  destruct i as [|i]; simpl in Ha, Hb.
  - congruence.
  - exact (IH Hall i a b Ha Hb).
Qed.

(** C4, as the code has it.  The step and the time grid of a cell that
    returns are those of its head, [dt = tmax/N] and
    [t = np.linspace(0, tmax, N+1)], which the head computes for every
    [N ≥ 1]; the loops leave them alone.  In binary64, for a finite
    [tmax > 0] and [N ≥ 1]: [t[0] = 0] and [t[N] = tmax] exactly, and for
    [i < N] the sample [t[i]] is the rounded product of [i] and the rounded
    quotient [tmax/N] when that quotient is a non-zero number, and the
    rounded product of the rounded quotient [i/N] and [tmax] when the
    quotient [tmax/N] underflows to zero.  Over the real numbers
    [t[i] = i * (tmax/N)] for all [i] in [0..N], [t[0] = 0], [t[N] = tmax],
    and the grid is strictly increasing when [tmax > 0].  The binary64
    grids of the notebook ([tmax = 5], [N = 100] and [tmax = 20],
    [N = 250]) are strictly increasing. *)
Theorem time_grid_samples :
  (∀ (O F : Type) (A : Arith F) (L : ArithLaws F) (Num : Number O F)
     (p : Undamped.params) (s : globals F),
     Undamped.integration p = Ok s → grid_of (Undamped.tmax p) (Undamped.N p) s) ∧
  (∀ (O F : Type) (A : Arith F) (L : ArithLaws F) (Num : Number O F)
     (p : Damped.params) (s : globals F),
     Damped.cell p = Ok s → grid_of (Damped.tmax p) (Damped.N p) s) ∧
  (∀ (O F : Type) (A : Arith F) (L : ArithLaws F) (T : Trig F) (Num : Number O F)
     (p : Driven.params) (s : globals F),
     Driven.cell p = Ok s →
     grid_of (fdiv (fmul (of_int 100) np_pi) (Driven.om_d p)) (Driven.N p) s) ∧
  (∀ (F : Type) (A : Arith F) (L : ArithLaws F) (tmax : F) (N : Z) (x0 v0 : F),
     1 ≤ N → ∃ s, setup tmax N x0 v0 = Ok s ∧ grid_of tmax N s) ∧
  (∀ (m : positive) (e : Z) (ms : positive) (es : Z) (N : Z) (s : globals spec_float),
     1 ≤ N →
     grid_of (S754_finite false m e) N s →
     g_dt s = S754_finite false ms es →
     g_t s !! 0%nat = Some (of_int 0) ∧
     g_t s !! Z.to_nat N = Some (S754_finite false m e) ∧
     ∀ i, (i < Z.to_nat N)%nat →
       g_t s !! i = Some (fmul (of_int (Z.of_nat i)) (g_dt s))) ∧
  (∀ (m : positive) (e : Z) (N : Z) (s : globals spec_float),
     1 ≤ N →
     grid_of (S754_finite false m e) N s →
     g_dt s = S754_zero false →
     g_t s !! 0%nat = Some (of_int 0) ∧
     g_t s !! Z.to_nat N = Some (S754_finite false m e) ∧
     ∀ i, (i < Z.to_nat N)%nat →
       g_t s !! i =
       Some (fmul (fdiv (of_int (Z.of_nat i)) (of_int N)) (S754_finite false m e))) ∧
  (∀ (tmax : R) (N : Z) (s : globals R),
     1 ≤ N →
     grid_of tmax N s →
     g_dt s = (tmax / IZR N)%R ∧
     (∀ i, (i ≤ Z.to_nat N)%nat →
        g_t s !! i = Some (IZR (Z.of_nat i) * (tmax / IZR N))%R) ∧
     g_t s !! 0%nat = Some 0%R ∧
     g_t s !! Z.to_nat N = Some tmax ∧
     ((0 < tmax)%R →
      ∀ i j ti tj, (i < j)%nat →
        g_t s !! i = Some ti → g_t s !! j = Some tj → (ti < tj)%R)) ∧
  (∃ s, Undamped.integration undamped_nb = Ok s ∧
     ∀ i ti tj, g_t s !! i = Some ti → g_t s !! S i = Some tj → SFltb ti tj = true) ∧
  (∃ s, Damped.cell damped_nb = Ok s ∧
     ∀ i ti tj, g_t s !! i = Some ti → g_t s !! S i = Some tj → SFltb ti tj = true).
Proof.
  repeat apply conj.
  - intros O F A L Num p s Hs.
    destruct (undamped_integration_Ok p s Hs) as (_ & Hdt & Ht & _). split; assumption.
  - intros O F A L Num p s Hs.
    destruct (damped_cell_Ok p s Hs) as (_ & Hdt & Ht & _). split; assumption.
  - intros O F A L T Num p s Hs.
    destruct (driven_cell_Ok p s Hs) as (_ & _ & Hdt & Ht & _). split; assumption.
  - intros F A L tmax N x0 v0 HN.
    destruct (setup_ok tmax N x0 v0 HN) as (s & Hs & Hdt & Ht & _).
    exists s. split; [exact Hs|]. split; assumption.
  - intros m e ms es N s HN [Hdt Ht] Hstep. rewrite Hdt in Hstep.
    destruct (float64_linspace m e N ms es HN Hstep) as (t & Ht' & H0 & HNth & Hi).
    assert (t = g_t s) as -> by congruence.
    rewrite Hdt, Hstep. auto.
  - intros m e N s HN [Hdt Ht] Hstep. rewrite Hdt in Hstep.
    destruct (float64_linspace_underflow m e N HN Hstep) as (t & Ht' & H0 & HNth & Hi).
    assert (t = g_t s) as -> by congruence. auto.
  - intros tmax N s HN [Hdt Ht].
    destruct (R_linspace tmax N HN) as (t & Ht' & Hi).
    assert (t = g_t s) as -> by congruence.
    assert (HN0 : IZR N ≠ 0%R) by (apply not_0_IZR; lia).
    split; [exact Hdt|]. split; [exact Hi|]. split; [|split].
    + rewrite Hi by lia. f_equal. simpl. field. exact HN0.
    + rewrite Hi by lia. f_equal. rewrite Z2Nat.id by lia. field. exact HN0.
    + intros Htmax i j ti tj Hij Hti Htj.
      assert (Hj : (j < length (g_t s))%nat) by (eapply lookup_lt_Some; eassumption).
      pose proof (np_linspace_length _ _ _ _ Ht) as Lt.
      rewrite Hi in Hti, Htj by lia.
      injection Hti as <-. injection Htj as <-.
      apply Rmult_lt_compat_r.
      * apply Rdiv_lt_0_compat; [exact Htmax | apply IZR_lt; lia].
      * apply IZR_lt. lia.
  - eexists. split; [vm_compute; reflexivity|].
    apply adjacent_all_lookup. vm_compute. reflexivity.
  - eexists. split; [vm_compute; reflexivity|].
    apply adjacent_all_lookup. vm_compute. reflexivity.
Qed.

Lemma time_grid_samples_witness :
  (∃ s, Undamped.integration undamped_nb = Ok s ∧
     g_t s !! 0%nat = Some (of_int 0) ∧
     g_t s !! Z.to_nat 100 = Some (of_int 5) ∧
     ∀ i, (i < Z.to_nat 100)%nat →
       g_t s !! i = Some (fmul (of_int (Z.of_nat i)) (g_dt s))) ∧
  (∃ s, setup (b64 1 (-1074)) 4 (b64 1 (-1)) (of_int 5) = Ok s ∧
     g_t s !! 0%nat = Some (of_int 0) ∧
     g_t s !! Z.to_nat 4 = Some (b64 1 (-1074)) ∧
     ∀ i, (i < Z.to_nat 4)%nat →
       g_t s !! i = Some (fmul (fdiv (of_int (Z.of_nat i)) (of_int 4)) (b64 1 (-1074)))) ∧
  (∃ s, setup 5%R 100 (1 / 2)%R 5%R = Ok s ∧
     g_dt s = (5 / IZR 100)%R ∧
     (∀ i, (i ≤ Z.to_nat 100)%nat →
        g_t s !! i = Some (IZR (Z.of_nat i) * (5 / IZR 100))%R) ∧
     g_t s !! 0%nat = Some 0%R ∧
     g_t s !! Z.to_nat 100 = Some 5%R ∧
     ∀ i j ti tj, (i < j)%nat →
       g_t s !! i = Some ti → g_t s !! j = Some tj → (ti < tj)%R) ∧
  (∃ s, Damped.cell damped_nb = Ok s ∧ grid_of (of_int 20) 250 s) ∧
  (∃ s, Driven.cell driven_nb = Ok s ∧
     grid_of (fdiv (fmul (of_int 100) np_pi) 2%R) 10000 s).
Proof.
  pose proof time_grid_samples as (G1 & G2 & G3 & G4 & G5 & G6 & G7 & _ & [sd [Hsd _]]).
  split; [|split; [|split; [|split]]].
  - destruct (time_grid_samples) as (_ & _ & _ & _ & _ & _ & _ & [s [Hs _]] & _).
    exists s. split; [exact Hs|].
    apply (G5 5629499534213120%positive (-50) 7205759403792794%positive (-57) 100 s);
      [lia | exact (G1 Z spec_float _ _ _ undamped_nb s Hs) |].
    rewrite (proj1 (G1 Z spec_float _ _ _ undamped_nb s Hs)). vm_compute. reflexivity.
  - destruct (G4 spec_float _ _ (b64 1 (-1074)) 4 (b64 1 (-1)) (of_int 5) ltac:(lia))
      as (s & Hs & Hg).
    exists s. split; [exact Hs|].
    apply (G6 1%positive (-1074) 4 s); [lia | exact Hg |].
    rewrite (proj1 Hg). vm_compute. reflexivity.
  - destruct (G4 R _ _ 5%R 100 (1 / 2)%R 5%R ltac:(lia)) as (s & Hs & Hg).
    exists s. split; [exact Hs|].
    destruct (G7 5%R 100 s ltac:(lia) Hg) as (Hdt & Hi & H0 & HN & Hinc).
    split; [exact Hdt|]. split; [exact Hi|]. split; [exact H0|]. split; [exact HN|].
    apply Hinc. lra.
  - exists sd. split; [exact Hsd|]. exact (G2 Z spec_float _ _ _ damped_nb sd Hsd).
  - destruct (integrate_spec EulerCromer
                (driven_law (- (2 * 2)) (1 / 10 * 2) 1 2)%R
                (100 * PI / 2)%R 10000 1%R 0%R ltac:(lia)) as (s & Hs & _).
    assert (Hc : Driven.cell driven_nb = Ok s).
    { rewrite (driven_cell_integrate driven_nb _ _ (coefficients_R 2 (1 / 10))).
      unfold py_div. change (is_zero (F:=R) (Driven.om_d driven_nb)) with (Ris_zero 2%R).
      rewrite (Ris_zero_false 2%R) by lra. exact Hs. }
    exists s. split; [exact Hc|]. exact (G3 R R _ _ R_trig _ driven_nb s Hc).
Defined.

(** The claim of C4 fails in binary64 for the valid run [tmax = 2^-1074]
    (the smallest positive number), [N = 4]: the step [tmax/N] underflows to
    zero, the grid is [0, 0, 0, tmax, tmax], and it is not strictly
    increasing.  A step that is not zero does not suffice either: for
    [tmax = 3 * 2^-1074] and [N = 4] the step rounds to [2^-1074], and the
    last two samples of the grid are both [tmax]. *)
Lemma time_grid_not_increasing_counterexample :
  let tmax : spec_float := b64 1 (-1074) in
  let tmax' : spec_float := b64 3 (-1074) in
  ∃ s s',
    Undamped.integration
      (Undamped.Params 4 5 (b64 1 (-1)) (of_int 5) true false false tmax)
    = Ok s ∧
    SFltb (of_int 0) tmax = true ∧
    g_dt s = of_int 0 ∧
    g_t s = [of_int 0; of_int 0; of_int 0; tmax; tmax] ∧
    (∃ t0 t1, g_t s !! 0%nat = Some t0 ∧ g_t s !! 1%nat = Some t1 ∧
       SFltb t0 t1 = false) ∧
    Undamped.integration
      (Undamped.Params 4 5 (b64 1 (-1)) (of_int 5) true false false tmax')
    = Ok s' ∧
    SFltb (of_int 0) tmax' = true ∧
    g_dt s' = b64 1 (-1074) ∧
    g_t s' = [of_int 0; b64 1 (-1074); b64 2 (-1074); tmax'; tmax'] ∧
    (∃ t3 t4, g_t s' !! 3%nat = Some t3 ∧ g_t s' !! 4%nat = Some t4 ∧
       SFltb t3 t4 = false).
Proof.
  intros tmax tmax'. eexists _, _.
  split; [vm_compute; reflexivity|].
  split; [vm_compute; reflexivity|].
  split; [vm_compute; reflexivity|].
  split; [vm_compute; reflexivity|].
  split.
  { eexists _, _.
    split; [vm_compute; reflexivity|].
    split; [vm_compute; reflexivity|]. vm_compute. reflexivity. }
  split; [vm_compute; reflexivity|].
  split; [vm_compute; reflexivity|].
  split; [vm_compute; reflexivity|].
  split; [vm_compute; reflexivity|].
  eexists _, _.
  split; [vm_compute; reflexivity|].
  split; [vm_compute; reflexivity|]. vm_compute. reflexivity.
Qed.

(** ** The first step of the two schemes *)

Section FirstStep.
Context {O F : Type} `{ArithLaws F} `{Number O F}.

Lemma undamped_single_loop (N : Z) (om : O) (w x0 v0 : F) (ex : bool) (tmax : F) :
  neg_pow2 om = Ok w →
  Undamped.integration (Undamped.Params N om x0 v0 true false ex tmax)
  = integrate EulerCromer (undamped_law w) tmax N x0 v0 ∧
  Undamped.integration (Undamped.Params N om x0 v0 false true ex tmax)
  = integrate Euler (undamped_law w) tmax N x0 v0.
Proof.
  intros Hw.
  unfold Undamped.integration, Undamped.euler_cromer, Undamped.euler, integrate. simpl.
  split; destruct (setup tmax N x0 v0) as [s0|]; simpl; try reflexivity.
  - rewrite (undamped_ec_loop _ _ w) by assumption. destruct (for_range _ _ _); reflexivity.
  - now apply undamped_eu_loop.
Qed.

Lemma first_step (sch : scheme) (law : F → F → F → F) (tmax : F) (N : Z) (x0 v0 : F) :
  1 ≤ N →
  ∃ s, integrate sch law tmax N x0 v0 = Ok s ∧
    g_v s !! 1%nat = Some (v_next law (fdiv tmax (of_int N)) 0 x0 v0) ∧
    g_x s !! 1%nat = Some (x_next sch law (fdiv tmax (of_int N)) 0 x0 v0).
Proof.
  intros HN.
  destruct (integrate_spec sch law tmax N x0 v0 HN)
    as (s & Hs & Hdt & _ & _ & _ & Hx & Hv & Hob).
  destruct (Hob 0%nat ltac:(lia)) as (xi & vi & Hxi & Hvi & Hv1 & Hx1).
  assert (xi = x0) as -> by congruence. assert (vi = v0) as -> by congruence.
  rewrite Hdt in Hv1, Hx1. eauto.
Qed.

End FirstStep.

(** C3, as the code has it.  For the same law and inputs with [N ≥ 1], the
    Euler and the Euler-Cromer run store the same [v[1] = v0 + a0*dt], with
    [a0] the law at [(0*dt, x0, v0)]; the Euler run stores
    [x[1] = x0 + v0*dt] and the Euler-Cromer run [x[1] = x0 + v[1]*dt].  Over
    the real numbers, and for [tmax ≠ 0], the two positions differ whenever
    [a0 ≠ 0].  The runs are those of the first cell with one of its two
    loops switched on, for the law that [acc] computes with the value of
    [-om**2]; when [-om**2] raises, so does the cell, for [N ≥ 1]. *)
Theorem first_step_of_both_schemes :
  (∀ (F : Type) (A : Arith F) (L : ArithLaws F)
     (law : F → F → F → F) (tmax : F) (N : Z) (x0 v0 : F),
     1 ≤ N →
     let dt := fdiv tmax (of_int N) in
     let a0 := law (fmul (of_int 0) dt) x0 v0 in
     let v1 := fadd v0 (fmul a0 dt) in
     ∃ se sc, integrate Euler law tmax N x0 v0 = Ok se ∧
       integrate EulerCromer law tmax N x0 v0 = Ok sc ∧
       g_v se !! 1%nat = Some v1 ∧ g_v sc !! 1%nat = Some v1 ∧
       g_x se !! 1%nat = Some (fadd x0 (fmul v0 dt)) ∧
       g_x sc !! 1%nat = Some (fadd x0 (fmul v1 dt))) ∧
  (∀ (law : R → R → R → R) (tmax : R) (N : Z) (x0 v0 : R),
     1 ≤ N → tmax ≠ 0%R → law (0 * (tmax / IZR N))%R x0 v0 ≠ 0%R →
     ∃ se sc xe xc, integrate Euler law tmax N x0 v0 = Ok se ∧
       integrate EulerCromer law tmax N x0 v0 = Ok sc ∧
       g_x se !! 1%nat = Some xe ∧ g_x sc !! 1%nat = Some xc ∧ xe ≠ xc) ∧
  (∀ (O F : Type) (A : Arith F) (L : ArithLaws F) (Num : Number O F)
     (N : Z) (om : O) (x0 v0 : F) (ex : bool) (tmax : F),
     match neg_pow2 om with
     | Ok w =>
         Undamped.integration (Undamped.Params N om x0 v0 true false ex tmax)
         = integrate EulerCromer (undamped_law w) tmax N x0 v0 ∧
         Undamped.integration (Undamped.Params N om x0 v0 false true ex tmax)
         = integrate Euler (undamped_law w) tmax N x0 v0 ∧
         ∀ t x v, Undamped.acc x om = Ok (undamped_law w t x v)
     | Raise e =>
         1 ≤ N →
         Undamped.integration (Undamped.Params N om x0 v0 true false ex tmax) = Raise e ∧
         Undamped.integration (Undamped.Params N om x0 v0 false true ex tmax) = Raise e
     end).
Proof.
  split; [|split].
  - intros F A L law tmax N x0 v0 HN dt a0 v1.
    destruct (first_step Euler law tmax N x0 v0 HN) as (se & Hse & Hve & Hxe).
    destruct (first_step EulerCromer law tmax N x0 v0 HN) as (sc & Hsc & Hvc & Hxc).
    exists se, sc. auto 10.
  - intros law tmax N x0 v0 HN Htmax Ha.
    destruct (first_step Euler law tmax N x0 v0 HN) as (se & Hse & Hve & Hxe).
    destruct (first_step EulerCromer law tmax N x0 v0 HN) as (sc & Hsc & Hvc & Hxc).
    exists se, sc. eexists _, _. repeat split; try eassumption.
    unfold x_next, v_next. simpl.
    assert (HN0 : IZR N ≠ 0%R) by (apply not_0_IZR; lia).
    set (dt := (tmax / IZR N)%R) in *.
    assert (Hdt : dt ≠ 0%R).
    { unfold dt. intros E. apply Htmax.
      replace tmax with (tmax / IZR N * IZR N)%R by (field; exact HN0).
      rewrite E. ring. }
    set (a := law (0 * dt)%R x0 v0) in *.
    intros E.
    change (IZR (Z.of_nat 0)) with 0%R in E. fold a in E.
    assert (E' : (a * dt * dt = 0)%R) by lra.
    apply Rmult_integral in E' as [E'|E']; [|contradiction].
    apply Rmult_integral in E' as [E'|E']; contradiction.
  - intros O F A L Num N om x0 v0 ex tmax.
    destruct (neg_pow2 om) as [w|e] eqn:Hw.
    + destruct (undamped_single_loop N om w x0 v0 ex tmax Hw) as [Hc He].
      split; [exact Hc|]. split; [exact He|].
      intros. now apply undamped_acc_value.
    + intros HN. split; apply undamped_integration_raises; auto.
Qed.

Lemma first_step_of_both_schemes_witness :
  (∃ se sc,
     integrate Euler (undamped_law (of_int (-25))) (of_int 5) 100 (b64 1 (-1)) (of_int 5) = Ok se ∧
     integrate EulerCromer (undamped_law (of_int (-25))) (of_int 5) 100 (b64 1 (-1)) (of_int 5) = Ok sc ∧
     g_v se !! 1%nat = Some (b64 35 (-3)) ∧ g_v sc !! 1%nat = Some (b64 35 (-3)) ∧
     g_x se !! 1%nat = Some (b64 3 (-2)) ∧
     g_x sc !! 1%nat = Some (b64 23 (-5))) ∧
  (∃ se sc xe xc,
     integrate Euler (undamped_law (-25)%R) 5%R 100 (1 / 2)%R 5%R = Ok se ∧
     integrate EulerCromer (undamped_law (-25)%R) 5%R 100 (1 / 2)%R 5%R = Ok sc ∧
     g_x se !! 1%nat = Some xe ∧ g_x sc !! 1%nat = Some xc ∧ xe ≠ xc) ∧
  (Undamped.integration undamped_nb
   = integrate EulerCromer (undamped_law (of_int (-25))) (of_int 5) 100 (b64 1 (-1)) (of_int 5) ∧
   Undamped.integration
     (Undamped.Params 100 5 (b64 1 (-1)) (of_int 5) false true false (of_int 5))
   = integrate Euler (undamped_law (of_int (-25))) (of_int 5) 100 (b64 1 (-1)) (of_int 5) ∧
   ∀ t x v : spec_float, Undamped.acc x 5 = Ok (undamped_law (of_int (-25)) t x v)).
Proof.
  split; [|split].
  - exact (proj1 first_step_of_both_schemes spec_float _ _
             (undamped_law (of_int (-25))) (of_int 5) 100 (b64 1 (-1)) (of_int 5)
             ltac:(lia)).
  - apply (proj1 (proj2 first_step_of_both_schemes)
             (undamped_law (-25)%R) 5%R 100 (1 / 2)%R 5%R).
    + lia.
    + lra.
    + unfold undamped_law. simpl. lra.
  - pose proof (proj2 (proj2 first_step_of_both_schemes) Z spec_float _ _ _
                  100 5 (b64 1 (-1)) (of_int 5) false (of_int 5)) as H3.
    assert (E : neg_pow2 (F:=spec_float) 5 = Ok (of_int (-25)))
      by (vm_compute; reflexivity).
    rewrite E in H3. exact H3.
Defined.

(** The claim of C3 fails in binary64: for [om = 1], [x0 = 1], [v0 = 0],
    [tmax = 2^-30] and [N = 1] the acceleration [a0 = -1] is not zero, and
    both runs store [x[1] = 1.0]. *)
Lemma first_positions_coincide_counterexample :
  let om : Z := 1 in
  let x0 : spec_float := of_int 1 in
  let v0 : spec_float := of_int 0 in
  let tmax : spec_float := b64 1 (-30) in
  ∃ se sc a0 xe xc,
    Undamped.integration (Undamped.Params 1 om x0 v0 false true false tmax) = Ok se ∧
    Undamped.integration (Undamped.Params 1 om x0 v0 true false false tmax) = Ok sc ∧
    Undamped.acc x0 om = Ok a0 ∧ is_zero a0 = false ∧
    g_x se !! 1%nat = Some xe ∧ g_x sc !! 1%nat = Some xc ∧ xe = xc.
Proof.
  intros om x0 v0 tmax. eexists _, _, _, _, _.
  split; [vm_compute; reflexivity|].
  split; [vm_compute; reflexivity|].
  split; [vm_compute; reflexivity|].
  split; [vm_compute; reflexivity|].
  split; [vm_compute; reflexivity|].
  split; [vm_compute; reflexivity|]. reflexivity.
Qed.

(** ** The energy along the two trajectories *)

Lemma forallb_lookup {A : Type} (f : A → bool) (l : list A) (i : nat) (a : A) :
  forallb f l = true → l !! i = Some a → f a = true.
Proof.
  revert i. induction l as [|a0 l IH]; intros i Hall Ha; [discriminate|].
  simpl in Hall. apply andb_prop in Hall as [H0 Hall].
  destruct i as [|i]; simpl in Ha; [congruence | eauto].
Qed.

(** Over the real numbers an Euler step multiplies the energy estimate by
    [1 + om² dt²], whatever the state. *)
Lemma euler_step_energy_R (om dt x v : R) (i : nat) :
  energy om (x_next Euler (undamped_law (- (om * om))%R) dt i x v)
            (v_next (undamped_law (- (om * om))%R) dt i x v)
  = ((1 + om ^ 2 * dt ^ 2) * energy om x v)%R.
Proof.
  unfold energy, x_next, v_next, undamped_law, sqr. simpl. field.
Qed.

(** Over the real numbers an Euler-Cromer step conserves the estimate
    corrected by [- 0.5 om² dt x v]. *)
Lemma euler_cromer_step_energy_R (om dt x v : R) (i : nat) :
  let x' := x_next EulerCromer (undamped_law (- (om * om))%R) dt i x v in
  let v' := v_next (undamped_law (- (om * om))%R) dt i x v in
  (energy om x' v' - om ^ 2 * dt * x' * v' / 2
   = energy om x v - om ^ 2 * dt * x * v / 2)%R.
Proof.
  unfold energy, x_next, v_next, undamped_law, sqr. simpl. field.
Qed.

(** C2. For the parameters of the notebook ([om = 5], [x0 = 0.5], [v0 = 5],
    [N = 100], [tmax = 5]) in binary64: along the Euler trajectory the energy
    estimate increases strictly from each sample to the next, and ends above
    400 times its initial value 15.625; along the Euler-Cromer trajectory
    every one of the 101 estimates lies between 12.5 and 16.125. *)
Theorem energy_of_euler_and_euler_cromer :
  ∃ se sc,
    Undamped.integration
      (Undamped.Params 100 5 (b64 1 (-1)) (of_int 5) false true false (of_int 5))
    = Ok se ∧
    Undamped.integration undamped_nb = Ok sc ∧
    length (energies (of_int 5) se) = 101%nat ∧
    length (energies (of_int 5) sc) = 101%nat ∧
    (∀ i Ei Ej, energies (of_int 5) se !! i = Some Ei →
       energies (of_int 5) se !! S i = Some Ej → SFltb Ei Ej = true) ∧
    (∀ E0 EN, energies (of_int 5) se !! 0%nat = Some E0 →
       energies (of_int 5) se !! 100%nat = Some EN →
       SFltb (fmul (of_int 400) E0) EN = true) ∧
    (∀ i E, energies (of_int 5) sc !! i = Some E →
       SFleb (b64 25 (-1)) E = true ∧ SFleb E (b64 129 (-3)) = true).
Proof.
  eexists _, _.
  split; [vm_compute; reflexivity|].
  split; [vm_compute; reflexivity|].
  split; [vm_compute; reflexivity|].
  split; [vm_compute; reflexivity|].
  split; [|split].
  - apply adjacent_all_lookup. vm_compute. reflexivity.
  - intros E0 EN H0 HN. vm_compute in H0, HN.
    injection H0 as <-. injection HN as <-. vm_compute. reflexivity.
  - intros i E HE.
    apply (forallb_lookup
             (fun E => SFleb (b64 25 (-1)) E && SFleb E (b64 129 (-3))) _ i E) in HE.
    + apply andb_prop in HE. exact HE.
    + vm_compute. reflexivity.
Qed.

(** ** Invalid configurations *)

Section Configurations.
Context {O F : Type} `{ArithLaws F} `{Number O F}.

(** The exact-solution block of the first cell, for an [om] that converts
    to the float [c]. *)
Lemma exact_zero `{Trig F} (p : Undamped.params) (c : F) :
  Undamped.ex p = true → py_float (Undamped.om p) = Ok c → is_zero c = true →
  Undamped.exact p = Raise ZeroDivisionError.
Proof.
  intros Hex Hc Hz. unfold Undamped.exact. rewrite Hex.
  destruct (np_linspace_ok (of_int 0) (Undamped.tmax p) 100) as [t Ht]; [lia|].
  rewrite Ht, Hc. simpl. unfold Undamped.ex_sol, py_div. rewrite Hz. reflexivity.
Qed.

Lemma exact_raises `{Trig F} (p : Undamped.params) (e : exn) :
  Undamped.ex p = true → py_float (Undamped.om p) = Raise e →
  Undamped.exact p = Raise e.
Proof.
  intros Hex Hc. unfold Undamped.exact. rewrite Hex.
  destruct (np_linspace_ok (of_int 0) (Undamped.tmax p) 100) as [t Ht]; [lia|].
  rewrite Ht, Hc. reflexivity.
Qed.

End Configurations.

(** The only exception of the coefficients of a law is [OverflowError],
    for an int [om] and for a float [om] in binary64. *)
Lemma int_coefficients_raise {F : Type} `{Arith F} (om : Z) (ze : F) (e : exn) :
  (neg_pow2 om = Raise e → e = OverflowError) ∧
  (fmul_num ze om = Raise e → e = OverflowError) ∧
  (coefficients om ze = Raise e → e = OverflowError).
Proof.
  assert (H1 : neg_pow2 (F:=F) om = Raise e → e = OverflowError).
  { unfold neg_pow2. simpl. unfold float_of_int.
    destruct (is_inf _); [congruence | discriminate]. }
  assert (H2 : fmul_num ze om = Raise e → e = OverflowError).
  { unfold fmul_num. simpl. unfold float_of_int.
    destruct (is_inf _); simpl; [congruence | discriminate]. }
  split; [exact H1|]. split; [exact H2|].
  intros Hc. apply coefficients_Raise in Hc as [Hc|[_ Hc]]; auto.
Qed.

Lemma float64_coefficients_raise (c_pow : spec_float → spec_float → spec_float)
    (om ze : spec_float) (e : exn) :
  (@neg_pow2 _ _ (float64_number c_pow) om = Raise e → e = OverflowError) ∧
  (@coefficients _ _ _ (float64_number c_pow) om ze = Raise e → e = OverflowError).
Proof.
  assert (H1 : @neg_pow2 _ _ (float64_number c_pow) om = Raise e → e = OverflowError).
  { unfold neg_pow2. simpl. destruct om as [s|s| |s m ex]; simpl; try discriminate.
    destruct (SFeqb _ _); [discriminate|]. simpl.
    destruct (SFis_inf _); simpl; [congruence | discriminate]. }
  split; [exact H1|].
  intros Hc. apply (@coefficients_Raise _ _ _ (float64_number c_pow)) in Hc
    as [Hc|[_ Hc]]; [discriminate | auto].
Qed.

(** C8, as the code has it.  The cells validate nothing.  A step count
    [N < 1] makes the head of a cell raise ([config_error]) before the
    first iteration of a loop.  For [N ≥ 1] the integration returns arrays of
    [N+1] samples whatever [tmax] is, so [tmax ≤ 0] is accepted, provided
    the coefficients of the law can be computed; when they cannot
    ([OverflowError] at [om**2] or at the conversion of an int), the first
    iteration of the loop raises, after the head of the cell has run.
    [om = 0] makes [ex_sol] raise [ZeroDivisionError], which ends the first
    cell after its integration has returned; [om_d = 0] makes the third
    cell raise at [tmax = 100*np.pi/om_d].  For an int and for a binary64
    float [om] the coefficients raise nothing but [OverflowError]. *)
Theorem cells_do_not_validate {O F : Type} `{ArithLaws F} `{Number O F} :
  (∀ p : Undamped.params, Undamped.N p < 1 →
     Undamped.integration p = Raise (config_error (Undamped.N p))) ∧
  (∀ p : Damped.params, Damped.N p < 1 →
     Damped.cell p = Raise (config_error (Damped.N p))) ∧
  (∀ p : Undamped.params, 1 ≤ Undamped.N p →
     is_ok (neg_pow2 (Undamped.om p)) = true →
     ∃ s, Undamped.integration p = Ok s ∧
       Z.of_nat (length (g_x s)) = Undamped.N p + 1 ∧
       Z.of_nat (length (g_v s)) = Undamped.N p + 1) ∧
  (∀ p : Damped.params, 1 ≤ Damped.N p →
     is_ok (coefficients (Damped.om p) (Damped.ze p)) = true →
     ∃ s, Damped.cell p = Ok s ∧
       Z.of_nat (length (g_x s)) = Damped.N p + 1 ∧
       Z.of_nat (length (g_v s)) = Damped.N p + 1) ∧
  (∀ (p : Undamped.params) (e : exn), 1 ≤ Undamped.N p →
     Undamped.ec p || Undamped.eu p = true →
     neg_pow2 (Undamped.om p) = Raise e →
     is_ok (setup (Undamped.tmax p) (Undamped.N p) (Undamped.x0 p) (Undamped.v0 p)) = true ∧
     Undamped.integration p = Raise e) ∧
  (∀ (p : Damped.params) (e : exn), 1 ≤ Damped.N p →
     coefficients (Damped.om p) (Damped.ze p) = Raise e →
     is_ok (setup (Damped.tmax p) (Damped.N p) (Damped.x0 p) (Damped.v0 p)) = true ∧
     Damped.cell p = Raise e) ∧
  (∀ (T : Trig F) (t : list F) (om x0 v0 : F),
     is_zero om = true → Undamped.ex_sol t om x0 v0 = Raise ZeroDivisionError) ∧
  (∀ (T : Trig F) (p : Undamped.params) (c : F),
     1 ≤ Undamped.N p → is_ok (neg_pow2 (Undamped.om p)) = true →
     Undamped.ex p = true →
     py_float (Undamped.om p) = Ok c → is_zero c = true →
     is_ok (Undamped.integration p) = true ∧
     Undamped.cell p = Raise ZeroDivisionError) ∧
  (∀ (T : Trig F) (p : Driven.params),
     is_zero (Driven.om_d p) = true → Driven.cell p = Raise ZeroDivisionError) ∧
  (∀ (om : Z) (ze : F) (e : exn),
     (neg_pow2 om = Raise e → e = OverflowError) ∧
     (coefficients om ze = Raise e → e = OverflowError)) ∧
  (∀ (c_pow : spec_float → spec_float → spec_float) (om ze : spec_float) (e : exn),
     (@neg_pow2 _ _ (float64_number c_pow) om = Raise e → e = OverflowError) ∧
     (@coefficients _ _ _ (float64_number c_pow) om ze = Raise e → e = OverflowError)).
Proof.
  repeat apply conj;
    try (intros om ze e;
         destruct (int_coefficients_raise om ze e) as (I1 & _ & I3); split; assumption);
    try (intros c_pow om ze e;
         destruct (float64_coefficients_raise c_pow om ze e) as (I1 & I2); split; assumption).
  - intros p HN. unfold Undamped.integration. rewrite setup_raises by assumption. reflexivity.
  - intros p HN. unfold Damped.cell. rewrite setup_raises by assumption. reflexivity.
  - intros p HN Hok.
    destruct (neg_pow2 (Undamped.om p)) as [w|] eqn:Hw; [|discriminate].
    destruct (undamped_integration_spec p w HN Hw) as (s & Hs & _ & _ & _ & [Lx Lv] & _).
    exists s. rewrite Lx, Lv. repeat split; [assumption | lia | lia].
  - intros p HN Hok.
    destruct (coefficients (Damped.om p) (Damped.ze p)) as [[w de]|] eqn:Hc; [|discriminate].
    rewrite (damped_cell_integrate p w de Hc).
    destruct (integrate_spec EulerCromer (damped_law w de)
                (Damped.tmax p) (Damped.N p) (Damped.x0 p) (Damped.v0 p) HN)
      as (s & Hs & _ & _ & _ & [Lx Lv] & _).
    exists s. rewrite Lx, Lv. repeat split; [assumption | lia | lia].
  - intros p e HN Hflag Hw. split; [|now apply undamped_integration_raises].
    destruct (setup_ok (Undamped.tmax p) (Undamped.N p) (Undamped.x0 p) (Undamped.v0 p) HN)
      as (s0 & -> & _). reflexivity.
  - intros p e HN Hc. split; [|now apply damped_cell_raises].
    destruct (setup_ok (Damped.tmax p) (Damped.N p) (Damped.x0 p) (Damped.v0 p) HN)
      as (s0 & -> & _). reflexivity.
  - intros T t om x0 v0 Hom. unfold Undamped.ex_sol, py_div. rewrite Hom. reflexivity.
  - intros T p c HN Hok Hex Hc Hz.
    destruct (neg_pow2 (Undamped.om p)) as [w|] eqn:Hw; [|discriminate].
    destruct (undamped_integration_spec p w HN Hw) as (s & Hs & _).
    unfold Undamped.cell. rewrite Hs. split; [reflexivity|].
    unfold mbind, result_bind. cbv beta iota.
    rewrite (exact_zero p c Hex Hc Hz). reflexivity.
  - intros T p Hom. unfold Driven.cell, py_div. rewrite Hom. reflexivity.
Qed.

Lemma cells_do_not_validate_witness :
  (Undamped.integration
     (Undamped.Params 0 5 (b64 1 (-1)) (of_int 5) true false false (of_int 5))
   = Raise ZeroDivisionError) ∧
  (Damped.cell
     (Damped.Params (F:=spec_float) (-3) (of_int 0) (fdiv (of_int 1) (of_int 10)) 2
        (of_int 20) (of_int 1))
   = Raise ValueError) ∧
  (∃ s, Undamped.integration
          (Undamped.Params 100 5 (b64 1 (-1)) (of_int 5) true false false (of_int 0))
        = Ok s ∧
     Z.of_nat (length (g_x s)) = 100 + 1 ∧ Z.of_nat (length (g_v s)) = 100 + 1) ∧
  (∃ s, Damped.cell damped_nb = Ok s ∧
     Z.of_nat (length (g_x s)) = 250 + 1 ∧ Z.of_nat (length (g_v s)) = 250 + 1) ∧
  (is_ok (setup (of_int 5) 100 (b64 1 (-1)) (of_int 5)) = true ∧
   Undamped.integration
     (Undamped.Params 100 (2 ^ 512) (b64 1 (-1)) (of_int 5) true false false (of_int 5))
   = Raise OverflowError) ∧
  (is_ok (setup (F:=spec_float) (of_int 20) 250 (of_int 1) (of_int 0)) = true ∧
   Damped.cell
     (Damped.Params (F:=spec_float) 250 (of_int 0) (fdiv (of_int 1) (of_int 10)) (2 ^ 512)
        (of_int 20) (of_int 1))
   = Raise OverflowError) ∧
  (Undamped.ex_sol [0; 1]%R 0%R (1 / 2)%R 5%R = Raise ZeroDivisionError) ∧
  (is_ok (Undamped.integration (Undamped.Params 100 0 (1 / 2) 5 true false true 5)%R) = true ∧
   Undamped.cell (Undamped.Params 100 0 (1 / 2) 5 true false true 5)%R
   = Raise ZeroDivisionError) ∧
  (Driven.cell (Driven.Params 10000 2 (1 / 10) 0 1 1)%R = Raise ZeroDivisionError).
Proof.
  pose proof (@cells_do_not_validate Z spec_float _ _ _) as (F1 & F2 & F3 & F4 & F5 & F6 & _).
  pose proof (@cells_do_not_validate R R _ _ _) as (_ & _ & _ & _ & _ & _ & R7 & R8 & R9 & _).
  repeat apply conj.
  - exact (F1 (Undamped.Params 0 5 (b64 1 (-1)) (of_int 5) true false false (of_int 5))
             ltac:(simpl; lia)).
  - exact (F2 (Damped.Params (F:=spec_float) (-3) (of_int 0) (fdiv (of_int 1) (of_int 10)) 2
                 (of_int 20) (of_int 1))
             ltac:(simpl; lia)).
  - apply (F3 (Undamped.Params 100 5 (b64 1 (-1)) (of_int 5) true false false (of_int 0)));
      [simpl; lia | vm_compute; reflexivity].
  - apply (F4 damped_nb); [simpl; lia | vm_compute; reflexivity].
  - exact (proj1 (F5 (Undamped.Params 100 (2 ^ 512) (b64 1 (-1)) (of_int 5) true false false
                        (of_int 5))
                    OverflowError ltac:(simpl; lia) eq_refl ltac:(vm_compute; reflexivity))).
  - exact (proj2 (F5 (Undamped.Params 100 (2 ^ 512) (b64 1 (-1)) (of_int 5) true false false
                        (of_int 5))
                    OverflowError ltac:(simpl; lia) eq_refl ltac:(vm_compute; reflexivity))).
  - exact (proj1 (F6 (Damped.Params (F:=spec_float) 250 (of_int 0) (fdiv (of_int 1) (of_int 10))
                        (2 ^ 512) (of_int 20) (of_int 1))
                    OverflowError ltac:(simpl; lia) ltac:(vm_compute; reflexivity))).
  - exact (proj2 (F6 (Damped.Params (F:=spec_float) 250 (of_int 0) (fdiv (of_int 1) (of_int 10))
                        (2 ^ 512) (of_int 20) (of_int 1))
                    OverflowError ltac:(simpl; lia) ltac:(vm_compute; reflexivity))).
  - apply (R7 R_trig). exact (of_int_zero (F:=R)).
  - apply (R8 R_trig (Undamped.Params 100 0 (1 / 2) 5 true false true 5)%R 0%R);
      [simpl; lia | reflexivity | reflexivity | reflexivity | exact (of_int_zero (F:=R))].
  - apply (R8 R_trig (Undamped.Params 100 0 (1 / 2) 5 true false true 5)%R 0%R);
      [simpl; lia | reflexivity | reflexivity | reflexivity | exact (of_int_zero (F:=R))].
  - apply (R9 R_trig (Driven.Params 10000 2 (1 / 10) 0 1 1)%R).
    exact (of_int_zero (F:=R)).
Defined.

(** The claim of C8 fails: the first cell accepts [tmax = -5] (and
    [tmax = 0]) and returns complete arrays of 101 samples, with a negative
    (respectively zero) step [dt]. *)
Lemma nonpositive_tmax_accepted_counterexample :
  ∃ s s',
    Undamped.integration
      (Undamped.Params 100 5 (b64 1 (-1)) (of_int 5) true false false (of_int (-5)))
    = Ok s ∧
    length (g_t s) = 101%nat ∧ length (g_x s) = 101%nat ∧ length (g_v s) = 101%nat ∧
    SFltb (g_dt s) (of_int 0) = true ∧
    Undamped.integration
      (Undamped.Params 100 5 (b64 1 (-1)) (of_int 5) true false false (of_int 0))
    = Ok s' ∧
    length (g_t s') = 101%nat ∧ length (g_x s') = 101%nat ∧ length (g_v s') = 101%nat ∧
    g_dt s' = of_int 0.
Proof.
  eexists _, _.
  split; [vm_compute; reflexivity|].
  split; [vm_compute; reflexivity|].
  split; [vm_compute; reflexivity|].
  split; [vm_compute; reflexivity|].
  split; [vm_compute; reflexivity|].
  split; [vm_compute; reflexivity|].
  split; [vm_compute; reflexivity|].
  split; [vm_compute; reflexivity|].
  split; vm_compute; reflexivity.
Qed.

(** ** The two loops of the first cell share their arrays *)

Section SharedArrays.
Context {F : Type} `{ArithLaws F}.

(** Arrays of the same size that start with the same entries and obey the
    same update rule with the same step are equal. *)
Lemma obeys_deterministic (sch : scheme) (law : F → F → F → F) (n : nat)
    (s s' : globals F) :
  sized n s → sized n s' → g_dt s = g_dt s' →
  g_x s !! 0%nat = g_x s' !! 0%nat → g_v s !! 0%nat = g_v s' !! 0%nat →
  (∀ i, (i < n)%nat → obeys sch law s i) →
  (∀ i, (i < n)%nat → obeys sch law s' i) →
  g_x s = g_x s' ∧ g_v s = g_v s'.
Proof.
  intros [Lx Lv] [Lx' Lv'] Hdt Hx0 Hv0 Hob Hob'.
  assert (Hle : ∀ i, (i ≤ n)%nat →
            g_x s !! i = g_x s' !! i ∧ g_v s !! i = g_v s' !! i).
  { induction i as [|i IH]; intros Hi; [auto|].
    destruct IH as [IHx IHv]; [lia|].
    destruct (Hob i ltac:(lia)) as (xi & vi & Hxi & Hvi & Hv1 & Hx1).
    destruct (Hob' i ltac:(lia)) as (xi' & vi' & Hxi' & Hvi' & Hv1' & Hx1').
    assert (xi' = xi) as -> by congruence.
    assert (vi' = vi) as -> by congruence.
    rewrite Hv1, Hx1, Hv1', Hx1', Hdt. auto. }
  split; apply list_eq; intros i; destruct (le_lt_dec i n) as [Hi|Hi];
    try (apply Hle; assumption);
    rewrite !lookup_ge_None_2 by lia; reflexivity.
Qed.

End SharedArrays.

(** C9, as the code has it.  With both loops of the first cell switched on
    and [N ≥ 1], in a run (one in which [-om**2] can be computed), the Euler
    loop assigns to the arrays [x] and [v] that hold the Euler-Cromer
    trajectory: it leaves [dt], [t], [x[0]] and [v[0]] as they were and
    overwrites the other entries.  What it computes does not depend on what
    the Euler-Cromer loop left there: the variables at the end of the cell
    are those of the Euler loop run right after the head of the cell. *)
Theorem euler_loop_reuses_the_arrays {O F : Type} `{ArithLaws F} `{Number O F} :
  ∀ (p : Undamped.params) (w : F),
    1 ≤ Undamped.N p → Undamped.ec p = true → Undamped.eu p = true →
    neg_pow2 (Undamped.om p) = Ok w →
    ∃ s0 sc se,
      setup (Undamped.tmax p) (Undamped.N p) (Undamped.x0 p) (Undamped.v0 p) = Ok s0 ∧
      Undamped.euler_cromer p s0 = Ok sc ∧
      Undamped.euler p sc = Ok se ∧
      Undamped.integration p = Ok se ∧
      g_dt se = g_dt sc ∧ g_t se = g_t sc ∧
      g_x se !! 0%nat = g_x sc !! 0%nat ∧ g_v se !! 0%nat = g_v sc !! 0%nat ∧
      (∀ i, (i < Z.to_nat (Undamped.N p))%nat →
         obeys EulerCromer (undamped_law w) sc i) ∧
      (∀ i, (i < Z.to_nat (Undamped.N p))%nat →
         obeys Euler (undamped_law w) se i) ∧
      Undamped.euler p s0 = Ok se.
Proof.
  intros p w HN Hec Heu Hw.
  destruct (setup_ok (Undamped.tmax p) (Undamped.N p) (Undamped.x0 p) (Undamped.v0 p) HN)
    as (s0 & Hs0 & _).
  destruct (setup_sized _ _ _ _ s0 HN Hs0) as (Hsz0 & _ & _ & _).
  destruct (loop_spec EulerCromer (undamped_law w) (Undamped.N p) s0 Hsz0)
    as (sc & Hrunc & Hszc & Hdtc & Htc & Hxc & Hvc & Hobc).
  destruct (loop_spec Euler (undamped_law w) (Undamped.N p) sc Hszc)
    as (se & Hrune & Hsze & Hdte & Hte & Hxe & Hve & Hobe).
  destruct (loop_spec Euler (undamped_law w) (Undamped.N p) s0 Hsz0)
    as (sa & Hruna & Hsza & Hdta & Hta & Hxa & Hva & Hoba).
  assert (Hc : Undamped.euler_cromer p s0 = Ok sc)
    by (unfold Undamped.euler_cromer; rewrite Hec, (undamped_ec_loop _ _ w) by assumption;
        exact Hrunc).
  assert (He : Undamped.euler p sc = Ok se)
    by (unfold Undamped.euler; rewrite Heu, (undamped_eu_loop _ _ w) by assumption;
        exact Hrune).
  assert (Ha : Undamped.euler p s0 = Ok sa)
    by (unfold Undamped.euler; rewrite Heu, (undamped_eu_loop _ _ w) by assumption;
        exact Hruna).
  assert (se = sa) as <-.
  { destruct (obeys_deterministic Euler (undamped_law w)
                (Z.to_nat (Undamped.N p)) se sa) as [Ex Ev]; try assumption; try congruence.
    destruct se, sa; simpl in *; congruence. }
  exists s0, sc, se. repeat split; try assumption.
  unfold Undamped.integration. rewrite Hs0. simpl. rewrite Hc. simpl. exact He.
Qed.

Lemma euler_loop_reuses_the_arrays_witness :
  let p := Undamped.Params 100 5 (b64 1 (-1)) (of_int 5) true true false (of_int 5) in
  ∃ s0 sc se,
    setup (of_int 5) 100 (b64 1 (-1)) (of_int 5) = Ok s0 ∧
    Undamped.euler_cromer p s0 = Ok sc ∧
    Undamped.euler p sc = Ok se ∧
    Undamped.integration p = Ok se ∧
    g_dt se = g_dt sc ∧ g_t se = g_t sc ∧
    g_x se !! 0%nat = g_x sc !! 0%nat ∧ g_v se !! 0%nat = g_v sc !! 0%nat ∧
    (∀ i, (i < Z.to_nat 100)%nat → obeys EulerCromer (undamped_law (of_int (-25))) sc i) ∧
    (∀ i, (i < Z.to_nat 100)%nat → obeys Euler (undamped_law (of_int (-25))) se i) ∧
    Undamped.euler p s0 = Ok se.
Proof.
  intros p.
  apply (euler_loop_reuses_the_arrays (O:=Z) (F:=spec_float) p (of_int (-25)));
    [simpl; lia | reflexivity | reflexivity | vm_compute; reflexivity].
Defined.

(** The claim of C9 fails: with both loops switched on, the arrays [x] and
    [v] that held the Euler-Cromer trajectory ([x[1] = 0.71875]) hold the
    Euler trajectory ([x[1] = 0.75]) after the Euler loop. *)
Lemma euler_overwrites_euler_cromer_counterexample :
  let p := Undamped.Params 100 5 (b64 1 (-1)) (of_int 5) true true false (of_int 5) in
  ∃ s0 sc se,
    setup (of_int 5) 100 (b64 1 (-1)) (of_int 5) = Ok s0 ∧
    Undamped.euler_cromer p s0 = Ok sc ∧
    Undamped.euler p sc = Ok se ∧
    g_x sc !! 1%nat = Some (b64 23 (-5)) ∧
    g_x se !! 1%nat = Some (b64 3 (-2)) ∧
    g_x se ≠ g_x sc ∧ g_v se ≠ g_v sc.
Proof.
  intros p. eexists _, _, _.
  split; [vm_compute; reflexivity|].
  split; [vm_compute; reflexivity|].
  split; [vm_compute; reflexivity|].
  split; [vm_compute; reflexivity|].
  split; [vm_compute; reflexivity|].
  split; vm_compute; discriminate.
Qed.

(** * Further properties of the cells *)

(** ** Induction along a trajectory *)

Section Trajectories.
Context {F : Type} `{Arith F}.

(** The arrays left by a loop that returned obey the update rule at every
    iteration, whatever their length. *)
Lemma loop_obeys (sch : scheme) (law : F → F → F → F) (n : nat) (s0 s : globals F) :
  for_each (step sch law) (seq 0 n) s0 = Ok s →
  g_dt s = g_dt s0 ∧ ∀ i, (i < n)%nat → obeys sch law s i.
Proof.
  revert s. induction n as [|n IH]; intros s Hrun.
  - injection Hrun as <-. split; [reflexivity | intros i Hi; lia].
  - rewrite seq_S, for_each_app in Hrun.
    apply bind_Ok in Hrun as (sn & Hn & Hstep). simpl in Hstep.
    apply bind_Ok in Hstep as (s' & Hstep & Hs'). injection Hs' as ->.
    destruct (IH sn Hn) as [Hdt Hob].
    apply step_inv in Hstep as (xi & vi & Hxi & Hvi & Lx & Lv & ->). simpl.
    split; [exact Hdt|]. intros i Hi. unfold obeys. simpl.
    destruct (decide (i = n)) as [->|Hne].
    + exists xi, vi. rewrite !list_lookup_insert_ne by lia.
      rewrite !list_lookup_insert_eq by assumption. auto.
    + destruct (Hob i) as (xi' & vi' & H1 & H2 & H3 & H4); [lia|].
      exists xi', vi'. rewrite !list_lookup_insert_ne by lia. auto.
Qed.

(** An iteration whose update rule the arrays obey already assigns the
    values that are there. *)
Lemma step_fixed (sch : scheme) (law : F → F → F → F) (i : nat) (s : globals F) :
  obeys sch law s i → step sch law i s = Ok s.
Proof.
  intros (xi & vi & Hxi & Hvi & Hv1 & Hx1).
  rewrite (step_ok sch law i s xi vi Hxi Hvi)
    by (eapply lookup_lt_Some; eassumption).
  rewrite (list_insert_id _ _ _ Hx1), (list_insert_id _ _ _ Hv1).
  destruct s; reflexivity.
Qed.

Lemma for_each_fixed (sch : scheme) (law : F → F → F → F) (idx : list nat) (s : globals F) :
  (∀ i, i ∈ idx → obeys sch law s i) → for_each (step sch law) idx s = Ok s.
Proof.
  induction idx as [|i idx IH]; intros Hob; simpl; [reflexivity|].
  rewrite step_fixed by (apply Hob; left). simpl.
  apply IH. intros j Hj. apply Hob. now right.
Qed.

Lemma loop_idempotent (sch : scheme) (law : F → F → F → F) (N : Z) (s0 s : globals F) :
  for_range N (step sch law) s0 = Ok s → for_range N (step sch law) s = Ok s.
Proof.
  unfold for_range. intros Hrun. apply loop_obeys in Hrun as [_ Hob].
  apply for_each_fixed. intros i Hi. apply Hob.
  apply elem_of_seq in Hi. lia.
Qed.

(** A relation between the samples of two trajectories that holds for the
    samples of index 0 and is kept by the two update rules holds for all
    samples. *)
Lemma obeys_related (sch sch' : scheme) (law law' : F → F → F → F) (m : nat)
    (s s' : globals F) (P : nat → F → F → F → F → Prop) :
  (∀ i, (i < m)%nat → obeys sch law s i) →
  (∀ i, (i < m)%nat → obeys sch' law' s' i) →
  (∀ a b a' b', g_x s !! 0%nat = Some a → g_v s !! 0%nat = Some b →
     g_x s' !! 0%nat = Some a' → g_v s' !! 0%nat = Some b' → P 0%nat a b a' b') →
  (∀ i a b a' b', (i < m)%nat → P i a b a' b' →
     P (S i) (x_next sch law (g_dt s) i a b) (v_next law (g_dt s) i a b)
             (x_next sch' law' (g_dt s') i a' b') (v_next law' (g_dt s') i a' b')) →
  ∀ i a b a' b', (i ≤ m)%nat →
    g_x s !! i = Some a → g_v s !! i = Some b →
    g_x s' !! i = Some a' → g_v s' !! i = Some b' → P i a b a' b'.
Proof.
  intros Hob Hob' H0 Hstep. induction i as [|i IH]; intros a b a' b' Hi Ha Hb Ha' Hb'.
  - now apply H0.
  - destruct (Hob i ltac:(lia)) as (xi & vi & Hxi & Hvi & Hv1 & Hx1).
    destruct (Hob' i ltac:(lia)) as (xi' & vi' & Hxi' & Hvi' & Hv1' & Hx1').
    assert (a = x_next sch law (g_dt s) i xi vi) as -> by congruence.
    assert (b = v_next law (g_dt s) i xi vi) as -> by congruence.
    assert (a' = x_next sch' law' (g_dt s') i xi' vi') as -> by congruence.
    assert (b' = v_next law' (g_dt s') i xi' vi') as -> by congruence.
    apply Hstep; [lia|]. apply IH; try assumption. lia.
Qed.

(** The same for a property of the samples of one trajectory. *)
Lemma obeys_invariant (sch : scheme) (law : F → F → F → F) (m : nat)
    (s : globals F) (P : nat → F → F → Prop) :
  (∀ i, (i < m)%nat → obeys sch law s i) →
  (∀ a b, g_x s !! 0%nat = Some a → g_v s !! 0%nat = Some b → P 0%nat a b) →
  (∀ i a b, (i < m)%nat → P i a b →
     P (S i) (x_next sch law (g_dt s) i a b) (v_next law (g_dt s) i a b)) →
  ∀ i a b, (i ≤ m)%nat → g_x s !! i = Some a → g_v s !! i = Some b → P i a b.
Proof.
  intros Hob H0 Hstep i a b Hi Ha Hb.
  apply (obeys_related sch sch law law m s s (fun i a b _ _ => P i a b))
    with (a' := a) (b' := b); auto.
Qed.

End Trajectories.
Section MoreRuns.
Context {F : Type} `{ArithLaws F}.

Lemma sized_lookup (n : nat) (s : globals F) (i : nat) :
  sized n s → (i ≤ n)%nat → ∃ a b, g_x s !! i = Some a ∧ g_v s !! i = Some b.
Proof.
  intros [Lx Lv] Hi.
  destruct (lookup_lt_is_Some_2 (g_x s) i) as [a Ha]; [lia|].
  destruct (lookup_lt_is_Some_2 (g_v s) i) as [b Hb]; [lia|]. eauto.
Qed.

(** Two trajectories of the same scheme and law that start from the same
    initial conditions with the same step agree as far as both go. *)
Lemma obeys_same_dt (sch : scheme) (law : F → F → F → F) (n n' : nat)
    (s s' : globals F) :
  sized n s → sized n' s' → g_dt s = g_dt s' →
  g_x s !! 0%nat = g_x s' !! 0%nat → g_v s !! 0%nat = g_v s' !! 0%nat →
  (∀ i, (i < n)%nat → obeys sch law s i) →
  (∀ i, (i < n')%nat → obeys sch law s' i) →
  ∀ i, (i ≤ n)%nat → (i ≤ n')%nat →
    g_x s !! i = g_x s' !! i ∧ g_v s !! i = g_v s' !! i.
Proof.
  intros Hsz Hsz' Hdt Hx0 Hv0 Hob Hob' i Hi Hi'.
  destruct (sized_lookup n s i Hsz Hi) as (a & b & Ha & Hb).
  destruct (sized_lookup n' s' i Hsz' Hi') as (a' & b' & Ha' & Hb').
  rewrite Ha, Hb, Ha', Hb'.
  enough (a = a' ∧ b = b') as [-> ->] by auto.
  apply (obeys_related sch sch law law (Nat.min n n') s s'
           (fun _ a b a' b' => a = a' ∧ b = b')) with (i := i); try assumption.
  - intros j Hj. apply Hob. lia.
  - intros j Hj. apply Hob'. lia.
  - intros. split; congruence.
  - intros j c d c' d' _ [-> ->]. rewrite Hdt. auto.
  - lia.
Qed.

Lemma np_linspace_last (start stop : F) (num : Z) (t : list F) :
  1 < num → np_linspace start stop num = Ok t →
  t !! Z.to_nat (num - 1) = Some stop.
Proof.
  intros Hnum. unfold np_linspace.
  destruct (Z.ltb_spec num 0); [lia|]. destruct (Z.ltb_spec 1 num); [|lia].
  intros [= <-]. apply list_lookup_insert_eq.
  destruct (0 <? num - 1); [destruct (is_zero _)|];
    rewrite !length_map, np_arange_length; lia.
Qed.

Lemma ex_sol_ok `{Trig F} (t : list F) (om x0 v0 : F) :
  is_zero om = false →
  ∃ xe ve, Undamped.ex_sol t om x0 v0 = Ok (xe, ve) ∧
    length xe = length t ∧ length ve = length t ∧
    ∀ k tk, t !! k = Some tk →
      xe !! k = Some (ex_x tk om x0 v0) ∧ ve !! k = Some (ex_v tk om x0 v0).
Proof.
  intros Hom. unfold Undamped.ex_sol, py_div. rewrite Hom. simpl.
  eexists _, _. split; [reflexivity|].
  rewrite !length_zip_with, !length_map.
  split; [lia|]. split; [lia|]. intros k tk Hk.
  rewrite !lookup_zip_with, !lookup_map, Hk. split; reflexivity.
Qed.

End MoreRuns.

(** A loop whose body is [step] for some law, or never returns, changes
    nothing when it is run again on the arrays it has left. *)
Lemma loop_rerun {F : Type} `{Arith F} (body : nat → globals F → result (globals F))
    (N : Z) (s0 s1 : globals F) :
  (∃ sch law, ∀ i s, body i s = step sch law i s) ∨ (∀ i s s', body i s ≠ Ok s') →
  for_range N body s0 = Ok s1 → for_range N body s1 = Ok s1.
Proof.
  unfold for_range. intros [(sch & law & E)|Hno] Hrun.
  - rewrite (for_each_ext body (step sch law)) in * by exact E.
    now apply (loop_idempotent sch law N s0 s1).
  - apply (for_each_not_Ok body) in Hrun as [-> _]; [reflexivity | exact Hno].
Qed.

(** X1. Running a loop again on the arrays it has left changes nothing:
    each loop takes [dt], [x[0]] and [v[0]] as its only input and assigns to
    every other entry it reads before it reads it. *)
Theorem rerunning_a_loop_changes_nothing {O F : Type} `{ArithLaws F} `{Number O F} :
  (∀ (p : Undamped.params) (s0 s1 : globals F),
     Undamped.euler_cromer p s0 = Ok s1 → Undamped.euler_cromer p s1 = Ok s1) ∧
  (∀ (p : Undamped.params) (s0 s1 : globals F),
     Undamped.euler p s0 = Ok s1 → Undamped.euler p s1 = Ok s1) ∧
  (∀ (N : Z) (om : O) (ze : F) (s0 s1 : globals F),
     for_range N (Damped.ec_body om ze) s0 = Ok s1 →
     for_range N (Damped.ec_body om ze) s1 = Ok s1) ∧
  (∀ (T : Trig F) (N : Z) (om : O) (ze a0 om_d : F) (s0 s1 : globals F),
     for_range N (Driven.ec_body om ze a0 om_d) s0 = Ok s1 →
     for_range N (Driven.ec_body om ze a0 om_d) s1 = Ok s1).
Proof.
  repeat apply conj.
  - intros p s0 s1. unfold Undamped.euler_cromer. destruct (Undamped.ec p); [|congruence].
    apply loop_rerun, undamped_bodies_step_or_not_Ok.
  - intros p s0 s1. unfold Undamped.euler. destruct (Undamped.eu p); [|congruence].
    apply loop_rerun, undamped_bodies_step_or_not_Ok.
  - intros N om ze s0 s1. apply loop_rerun, damped_body_step_or_not_Ok.
  - intros T N om ze a0 om_d s0 s1. apply loop_rerun, driven_body_step_or_not_Ok.
Qed.

Lemma rerunning_a_loop_changes_nothing_witness :
  ∃ s0 s1,
    setup (F:=spec_float) (of_int 5) 100 (b64 1 (-1)) (of_int 5) = Ok s0 ∧
    Undamped.euler_cromer undamped_nb s0 = Ok s1 ∧
    Undamped.euler_cromer undamped_nb s1 = Ok s1.
Proof.
  eexists _, _.
  split; [vm_compute; reflexivity|].
  match goal with |- Undamped.euler_cromer _ ?s = _ ∧ _ => set (s0 := s) end.
  split; [vm_compute; reflexivity|].
  match goal with
  | |- Undamped.euler_cromer _ ?s = _ =>
      apply (proj1 (rerunning_a_loop_changes_nothing (O:=Z) (F:=spec_float)) undamped_nb s0 s)
  end.
  vm_compute; reflexivity.
Defined.

(** X2. The samples depend on the horizon [tmax] and the step count [N]
    through the step [dt = tmax/N] only: two runs of a cell with the same
    [om], [x0], [v0] (and the same loops switched on) whose steps are equal
    agree on every sample that both have.  A run is one in which the
    coefficients of the law can be computed. *)
Theorem samples_depend_on_dt_only {O F : Type} `{ArithLaws F} `{Number O F} :
  (∀ (N N' : Z) (om : O) (x0 v0 : F) (ec eu ex ex' : bool) (tmax tmax' : F),
     1 ≤ N → 1 ≤ N' → ec || eu = true →
     is_ok (neg_pow2 om) = true →
     fdiv tmax (of_int N) = fdiv tmax' (of_int N') →
     ∃ s s',
       Undamped.integration (Undamped.Params N om x0 v0 ec eu ex tmax) = Ok s ∧
       Undamped.integration (Undamped.Params N' om x0 v0 ec eu ex' tmax') = Ok s' ∧
       ∀ i, (i ≤ Z.to_nat N)%nat → (i ≤ Z.to_nat N')%nat →
         g_x s !! i = g_x s' !! i ∧ g_v s !! i = g_v s' !! i) ∧
  (∀ (N N' : Z) (v0 ze : F) (om : O) (x0 : F) (tmax tmax' : F),
     1 ≤ N → 1 ≤ N' →
     is_ok (coefficients om ze) = true →
     fdiv tmax (of_int N) = fdiv tmax' (of_int N') →
     ∃ s s',
       Damped.cell (Damped.Params N v0 ze om tmax x0) = Ok s ∧
       Damped.cell (Damped.Params N' v0 ze om tmax' x0) = Ok s' ∧
       ∀ i, (i ≤ Z.to_nat N)%nat → (i ≤ Z.to_nat N')%nat →
         g_x s !! i = g_x s' !! i ∧ g_v s !! i = g_v s' !! i).
Proof.
  split.
  - intros N N' om x0 v0 ec eu ex ex' tmax tmax' HN HN' Hflag Hok Hdt.
    destruct (neg_pow2 om) as [w|] eqn:Hw; [|discriminate].
    destruct (undamped_integration_spec (Undamped.Params N om x0 v0 ec eu ex tmax) w HN Hw)
      as (s & Hs & Hd & _ & _ & Hsz & Hx & Hv & Hob).
    destruct (undamped_integration_spec (Undamped.Params N' om x0 v0 ec eu ex' tmax') w HN' Hw)
      as (s' & Hs' & Hd' & _ & _ & Hsz' & Hx' & Hv' & Hob').
    simpl in *. exists s, s'. split; [exact Hs|]. split; [exact Hs'|].
    apply (obeys_same_dt (if eu then Euler else EulerCromer) (undamped_law w));
      auto; congruence.
  - intros N N' v0 ze om x0 tmax tmax' HN HN' Hok Hdt.
    destruct (coefficients om ze) as [[w de]|] eqn:Hc; [|discriminate].
    rewrite (damped_cell_integrate (Damped.Params N v0 ze om tmax x0) w de Hc).
    rewrite (damped_cell_integrate (Damped.Params N' v0 ze om tmax' x0) w de Hc). simpl.
    destruct (integrate_spec EulerCromer (damped_law w de) tmax N x0 v0 HN)
      as (s & Hs & Hd & _ & _ & Hsz & Hx & Hv & Hob).
    destruct (integrate_spec EulerCromer (damped_law w de) tmax' N' x0 v0 HN')
      as (s' & Hs' & Hd' & _ & _ & Hsz' & Hx' & Hv' & Hob').
    exists s, s'. split; [exact Hs|]. split; [exact Hs'|].
    apply (obeys_same_dt EulerCromer (damped_law w de)); auto; congruence.
Qed.

Lemma samples_depend_on_dt_only_witness :
  (∃ s s',
     Undamped.integration
       (Undamped.Params 100 5 (b64 1 (-1)) (of_int 5) true false false (of_int 5))
     = Ok s ∧
     Undamped.integration
       (Undamped.Params 200 5 (b64 1 (-1)) (of_int 5) true false false (of_int 10))
     = Ok s' ∧
     ∀ i, (i ≤ Z.to_nat 100)%nat → (i ≤ Z.to_nat 200)%nat →
       g_x s !! i = g_x s' !! i ∧ g_v s !! i = g_v s' !! i) ∧
  (∃ s s',
     Damped.cell
       (Damped.Params 250 (of_int 0) (fdiv (of_int 1) (of_int 10)) 2 (of_int 20) (of_int 1))
     = Ok s ∧
     Damped.cell
       (Damped.Params (F:=spec_float) 125 (of_int 0) (fdiv (of_int 1) (of_int 10)) 2
          (of_int 10) (of_int 1))
     = Ok s' ∧
     ∀ i, (i ≤ Z.to_nat 250)%nat → (i ≤ Z.to_nat 125)%nat →
       g_x s !! i = g_x s' !! i ∧ g_v s !! i = g_v s' !! i).
Proof.
  split.
  - apply (proj1 (samples_depend_on_dt_only (O:=Z) (F:=spec_float)));
      [lia | lia | reflexivity | vm_compute; reflexivity | vm_compute; reflexivity].
  - apply (proj2 (samples_depend_on_dt_only (O:=Z) (F:=spec_float)));
      [lia | lia | vm_compute; reflexivity | vm_compute; reflexivity].
Defined.

(** X3. The outcomes of the first cell.  Its integration raises the
    exception of the head of the cell for a step count [N < 1]; for [N ≥ 1]
    it returns when no loop is switched on or [-om**2] can be computed, and
    raises what [-om**2] raises otherwise.  The cell raises what its
    integration raises.  When the integration returns, the cell returns its
    variables; without the exact solution it returns nothing more; with it,
    the cell raises what the conversion of [om] to a float raises,
    [ZeroDivisionError] when [om] is zero, and otherwise returns three more
    arrays of 100 entries: the times, which end at [tmax], and the two
    formulas of the exact solution at these times.  The number of exact
    samples does not depend on [N]. *)
Theorem first_cell_outcomes {O F : Type} `{ArithLaws F} `{Number O F} :
  (∀ p : Undamped.params,
     (Undamped.N p < 1 →
      Undamped.integration p = Raise (config_error (Undamped.N p))) ∧
     (1 ≤ Undamped.N p → Undamped.ec p || Undamped.eu p = false →
      ∃ s, Undamped.integration p = Ok s) ∧
     (1 ≤ Undamped.N p → Undamped.ec p || Undamped.eu p = true →
      match neg_pow2 (Undamped.om p) with
      | Ok _ => ∃ s, Undamped.integration p = Ok s
      | Raise e => Undamped.integration p = Raise e
      end)) ∧
  (∀ (T : Trig F) (p : Undamped.params),
     (∀ e, Undamped.integration p = Raise e → Undamped.cell p = Raise e) ∧
     (∀ s, Undamped.integration p = Ok s → Undamped.ex p = false →
      Undamped.cell p = Ok (s, None)) ∧
     (∀ s, Undamped.integration p = Ok s → Undamped.ex p = true →
      match py_float (Undamped.om p) with
      | Raise e => Undamped.cell p = Raise e
      | Ok c =>
          if is_zero c then Undamped.cell p = Raise ZeroDivisionError
          else
            ∃ t_ex x_ex v_ex,
              Undamped.cell p = Ok (s, Some (t_ex, x_ex, v_ex)) ∧
              length t_ex = 100%nat ∧ length x_ex = 100%nat ∧ length v_ex = 100%nat ∧
              t_ex !! 99%nat = Some (Undamped.tmax p) ∧
              ∀ k tk, t_ex !! k = Some tk →
                x_ex !! k = Some (ex_x tk c (Undamped.x0 p) (Undamped.v0 p)) ∧
                v_ex !! k = Some (ex_v tk c (Undamped.x0 p) (Undamped.v0 p))
      end)).
Proof.
  split.
  - intros p. repeat apply conj.
    + intros HN. unfold Undamped.integration.
      rewrite setup_raises by assumption. reflexivity.
    + intros HN Hflag. apply orb_false_elim in Hflag as [Hec Heu].
      rewrite (undamped_integration_no_loop p Hec Heu).
      destruct (setup_ok (Undamped.tmax p) (Undamped.N p) (Undamped.x0 p) (Undamped.v0 p) HN)
        as (s0 & Hs0 & _). eauto.
    + intros HN Hflag.
      destruct (neg_pow2 (Undamped.om p)) as [w|e] eqn:Hw.
      * destruct (undamped_integration_spec p w HN Hw) as (s & Hs & _). eauto.
      * now apply undamped_integration_raises.
  - intros T p. repeat apply conj.
    + intros e He. unfold Undamped.cell. rewrite He. reflexivity.
    + intros s Hs Hex. unfold Undamped.cell, Undamped.exact. rewrite Hs, Hex. reflexivity.
    + intros s Hs Hex.
      destruct (py_float (Undamped.om p)) as [c|e] eqn:Hc.
      * destruct (is_zero c) eqn:Hz.
        { unfold Undamped.cell. rewrite Hs. unfold mbind, result_bind. cbv beta iota.
          rewrite (exact_zero p c Hex Hc Hz). reflexivity. }
        destruct (np_linspace_ok (of_int 0) (Undamped.tmax p) 100) as [t Ht]; [lia|].
        pose proof (np_linspace_length _ _ _ _ Ht) as Lt.
        pose proof (np_linspace_last _ _ 100 _ ltac:(lia) Ht) as Hlast.
        destruct (ex_sol_ok t c (Undamped.x0 p) (Undamped.v0 p) Hz)
          as (xe & ve & He & Lx & Lv & Hk).
        exists t, xe, ve.
        assert (Hexact : Undamped.exact p = Ok (Some (t, xe, ve))).
        { unfold Undamped.exact. rewrite Hex, Ht, Hc. simpl. rewrite He. reflexivity. }
        split.
        { unfold Undamped.cell. rewrite Hs. unfold mbind, result_bind. cbv beta iota.
          rewrite Hexact. reflexivity. }
        rewrite Lx, Lv, Lt. repeat split; try reflexivity; try apply Hk; try assumption.
      * unfold Undamped.cell. rewrite Hs. unfold mbind, result_bind. cbv beta iota.
        rewrite (exact_raises p e Hex Hc). reflexivity.
Qed.

Lemma first_cell_outcomes_witness :
  (Undamped.integration
     (Undamped.Params (-1) 0 (b64 1 (-1)) (of_int 5) true false true (of_int 5))
   = Raise IndexError) ∧
  (∃ s, Undamped.integration
          (Undamped.Params 100 (2 ^ 512) (b64 1 (-1)) (of_int 5) false false true (of_int 5))
        = Ok s) ∧
  (Undamped.integration
     (Undamped.Params 100 (2 ^ 512) (b64 1 (-1)) (of_int 5) true false true (of_int 5))
   = Raise OverflowError) ∧
  (∃ s, Undamped.integration undamped_nb = Ok s) ∧
  (Undamped.cell (Undamped.Params 0 5 (1 / 2) 5 true false true 5)%R
   = Raise ZeroDivisionError) ∧
  (∃ s, Undamped.integration (Undamped.Params 100 5 (1 / 2) 5 true false false 5)%R = Ok s ∧
     Undamped.cell (Undamped.Params 100 5 (1 / 2) 5 true false false 5)%R = Ok (s, None)) ∧
  (∃ s, Undamped.integration (Undamped.Params 100 0 (1 / 2) 5 true false true 5)%R = Ok s ∧
     Undamped.cell (Undamped.Params 100 0 (1 / 2) 5 true false true 5)%R
     = Raise ZeroDivisionError) ∧
  (∃ s t_ex x_ex v_ex,
     Undamped.integration (Undamped.Params 100 5 (1 / 2) 5 true false true 5)%R = Ok s ∧
     Undamped.cell (Undamped.Params 100 5 (1 / 2) 5 true false true 5)%R
     = Ok (s, Some (t_ex, x_ex, v_ex)) ∧
     length t_ex = 100%nat ∧ length x_ex = 100%nat ∧ length v_ex = 100%nat ∧
     t_ex !! 99%nat = Some 5%R ∧
     ∀ k tk, t_ex !! k = Some tk →
       x_ex !! k = Some (ex_x tk 5 (1 / 2) 5)%R ∧
       v_ex !! k = Some (ex_v tk 5 (1 / 2) 5)%R).
Proof.
  pose proof (proj1 (first_cell_outcomes (O:=Z) (F:=spec_float))) as HF.
  pose proof (proj1 (first_cell_outcomes (O:=R) (F:=R))) as HR.
  pose proof (proj2 (first_cell_outcomes (O:=R) (F:=R)) R_trig) as HC.
  repeat apply conj.
  - exact (proj1 (HF (Undamped.Params (-1) 0 (b64 1 (-1)) (of_int 5) true false true (of_int 5)))
             ltac:(simpl; lia)).
  - exact (proj1 (proj2 (HF (Undamped.Params 100 (2 ^ 512) (b64 1 (-1)) (of_int 5)
                               false false true (of_int 5))))
             ltac:(simpl; lia) eq_refl).
  - exact (proj2 (proj2 (HF (Undamped.Params 100 (2 ^ 512) (b64 1 (-1)) (of_int 5)
                               true false true (of_int 5))))
             ltac:(simpl; lia) eq_refl).
  - exact (proj2 (proj2 (HF undamped_nb)) ltac:(simpl; lia) eq_refl).
  - apply (proj1 (HC (Undamped.Params 0 5 (1 / 2) 5 true false true 5)%R)).
    exact (proj1 (HR (Undamped.Params 0 5 (1 / 2) 5 true false true 5)%R) ltac:(simpl; lia)).
  - destruct (proj2 (proj2 (HR (Undamped.Params 100 5 (1 / 2) 5 true false false 5)%R))
                ltac:(simpl; lia) eq_refl) as [s Hs].
    exists s. split; [exact Hs|].
    exact (proj1 (proj2 (HC (Undamped.Params 100 5 (1 / 2) 5 true false false 5)%R))
             s Hs eq_refl).
  - destruct (proj2 (proj2 (HR (Undamped.Params 100 0 (1 / 2) 5 true false true 5)%R))
                ltac:(simpl; lia) eq_refl) as [s Hs].
    exists s. split; [exact Hs|].
    pose proof (proj2 (proj2 (HC (Undamped.Params 100 0 (1 / 2) 5 true false true 5)%R))
                  s Hs eq_refl) as Hout.
    cbv beta iota delta [py_float R_number Undamped.om] in Hout.
    assert (Hz : is_zero (F:=R) 0%R = true) by exact (of_int_zero (F:=R)).
    rewrite Hz in Hout. exact Hout.
  - destruct (proj2 (proj2 (HR (Undamped.Params 100 5 (1 / 2) 5 true false true 5)%R))
                ltac:(simpl; lia) eq_refl) as [s Hs].
    pose proof (proj2 (proj2 (HC (Undamped.Params 100 5 (1 / 2) 5 true false true 5)%R))
                  s Hs eq_refl) as Hout.
    cbv beta iota delta [py_float R_number Undamped.om] in Hout.
    assert (Hz : is_zero (F:=R) 5%R = false) by (apply Ris_zero_false; lra).
    rewrite Hz in Hout.
    destruct Hout as (t & xe & ve & Hc & Rest).
    exists s, t, xe, ve. split; [exact Hs|]. split; [exact Hc|]. exact Rest.
Defined.

(** ** Energy along the trajectories, over the real numbers *)

Lemma energy_R (om x v : R) : energy om x v = ((v * v + om * om * (x * x)) / 2)%R.
Proof. unfold energy, sqr. simpl. field. Qed.

Lemma energy_R_nonneg (om x v : R) : (0 <= energy om x v)%R.
Proof. rewrite energy_R. nra. Qed.

(** X4. Over the real numbers the Euler loop of the first cell multiplies
    the energy estimate by [1 + om² dt²] in every step, for every step count
    and all inputs: the estimate at sample [i] is [(1 + om² dt²)^i] times the
    initial one, so it increases strictly from sample to sample unless it is
    zero or [om dt = 0]. *)
Theorem euler_energy_grows_geometrically :
  ∀ p : Undamped.params (O:=R) (F:=R),
    1 ≤ Undamped.N p → Undamped.eu p = true →
    let dt := (Undamped.tmax p / IZR (Undamped.N p))%R in
    let g := (1 + Undamped.om p ^ 2 * dt ^ 2)%R in
    let E0 := energy (Undamped.om p) (Undamped.x0 p) (Undamped.v0 p) in
    ∃ s, Undamped.integration p = Ok s ∧
      (∀ i xi vi, (i ≤ Z.to_nat (Undamped.N p))%nat →
         g_x s !! i = Some xi → g_v s !! i = Some vi →
         energy (Undamped.om p) xi vi = (g ^ i * E0)%R) ∧
      ((0 < E0)%R → (Undamped.om p * dt)%R ≠ 0%R →
       ∀ i xi vi xj vj, (i < Z.to_nat (Undamped.N p))%nat →
         g_x s !! i = Some xi → g_v s !! i = Some vi →
         g_x s !! S i = Some xj → g_v s !! S i = Some vj →
         (energy (Undamped.om p) xi vi < energy (Undamped.om p) xj vj)%R).
Proof.
  intros p HN Heu dt g E0.
  destruct (undamped_integration_spec p _ HN (neg_pow2_R (Undamped.om p)))
    as (s & Hs & Hd & _ & _ & Hsz & Hx & Hv & Hob).
  rewrite Heu, orb_true_r in Hob. specialize (Hob eq_refl).
  change (fdiv (Undamped.tmax p) (of_int (Undamped.N p))) with dt in Hd.
  assert (Hall : ∀ i xi vi, (i ≤ Z.to_nat (Undamped.N p))%nat →
            g_x s !! i = Some xi → g_v s !! i = Some vi →
            energy (Undamped.om p) xi vi = (g ^ i * E0)%R).
  { apply (obeys_invariant Euler (undamped_law (- (Undamped.om p * Undamped.om p))%R)
             (Z.to_nat (Undamped.N p)) s
             (fun i a b => energy (Undamped.om p) a b = (g ^ i * E0)%R)).
    - exact Hob.
    - intros a b Ha Hb. assert (a = Undamped.x0 p) as -> by congruence.
      assert (b = Undamped.v0 p) as -> by congruence. unfold E0. simpl. ring.
    - intros i a b _ IH. rewrite euler_step_energy_R, IH, Hd. unfold g. simpl. ring. }
  exists s. split; [exact Hs|]. split; [exact Hall|].
  intros HE0 Hodt i xi vi xj vj Hi Hxi Hvi Hxj Hvj.
  rewrite (Hall i xi vi) by (lia || assumption).
  rewrite (Hall (S i) xj vj) by (lia || assumption).
  assert (Hg : (1 < g)%R).
  { unfold g. pose proof (Rsqr_pos_lt _ Hodt) as Hsq. unfold Rsqr in Hsq. nra. }
  assert (Hgi : (0 < g ^ i)%R) by (apply pow_lt; lra).
  assert (Hp : (0 < g ^ i * E0)%R) by (apply Rmult_lt_0_compat; assumption).
  change (g ^ S i)%R with (g * g ^ i)%R.
  replace (g * g ^ i * E0)%R with (g * (g ^ i * E0))%R by ring.
  set (q := (g ^ i * E0)%R) in *. clearbody q. nra.
Qed.

Lemma euler_energy_grows_geometrically_witness :
  let p := (Undamped.Params 100 5 (1 / 2) 5 false true false 5)%R in
  let dt := (5 / IZR 100)%R in
  let g := (1 + 5 ^ 2 * dt ^ 2)%R in
  let E0 := energy 5%R (1 / 2)%R 5%R in
  ∃ s, Undamped.integration p = Ok s ∧
    (∀ i xi vi, (i ≤ Z.to_nat 100)%nat →
       g_x s !! i = Some xi → g_v s !! i = Some vi →
       energy 5%R xi vi = (g ^ i * E0)%R) ∧
    (∀ i xi vi xj vj, (i < Z.to_nat 100)%nat →
       g_x s !! i = Some xi → g_v s !! i = Some vi →
       g_x s !! S i = Some xj → g_v s !! S i = Some vj →
       (energy 5%R xi vi < energy 5%R xj vj)%R).
Proof.
  intros p dt g E0.
  destruct (euler_energy_grows_geometrically p ltac:(simpl; lia) eq_refl)
    as (s & Hs & Hall & Hinc).
  exists s. split; [exact Hs|]. split; [exact Hall|].
  apply Hinc.
  - rewrite energy_R. simpl. lra.
  - simpl. lra.
Defined.

Lemma corrected_energy_R (om dt x v : R) :
  corrected_energy om dt x v = (energy om x v - om ^ 2 * dt * x * v / 2)%R.
Proof. unfold corrected_energy, sqr. simpl. field. Qed.

(** The corrected energy stays within the factors [1 - k] and [1 + k] of
    the energy estimate, for [k = |om dt| / 2]. *)
Lemma corrected_energy_bounds (om dt x v : R) :
  let k := (Rabs (om * dt) / 2)%R in
  ((1 - k) * energy om x v <= corrected_energy om dt x v)%R ∧
  (corrected_energy om dt x v <= (1 + k) * energy om x v)%R.
Proof.
  intros k. rewrite corrected_energy_R, energy_R. unfold k.
  set (a := (om * x)%R). set (c := (om * dt)%R).
  replace (om * om * (x * x))%R with (a * a)%R by (unfold a; ring).
  replace (om ^ 2 * dt * x * v)%R with (c * a * v)%R by (unfold a, c; ring).
  pose proof (Rle_0_sqr (a - v)) as Hm. pose proof (Rle_0_sqr (a + v)) as Hp.
  unfold Rsqr in Hm, Hp.
  destruct (Rcase_abs c) as [Hc|Hc].
  - rewrite (Rabs_left c Hc). split; nra.
  - rewrite (Rabs_right c Hc). split; nra.
Qed.

(** X5. Over the real numbers the Euler-Cromer loop of the first cell
    conserves the corrected energy [E - om² dt x v / 2] at every sample, for
    every step count and all inputs.  Hence, when [|om dt| < 2], the energy
    estimate of every sample stays between [(1-k)/(1+k)] and [(1+k)/(1-k)]
    times the initial one, [k = |om dt|/2]: it cannot drift. *)
Theorem euler_cromer_conserves_corrected_energy :
  ∀ p : Undamped.params (O:=R) (F:=R),
    1 ≤ Undamped.N p → Undamped.ec p = true → Undamped.eu p = false →
    let om := Undamped.om p in
    let dt := (Undamped.tmax p / IZR (Undamped.N p))%R in
    let k := (Rabs (om * dt) / 2)%R in
    let E0 := energy om (Undamped.x0 p) (Undamped.v0 p) in
    ∃ s, Undamped.integration p = Ok s ∧
      ∀ i xi vi, (i ≤ Z.to_nat (Undamped.N p))%nat →
        g_x s !! i = Some xi → g_v s !! i = Some vi →
        corrected_energy om dt xi vi
        = corrected_energy om dt (Undamped.x0 p) (Undamped.v0 p) ∧
        ((1 - k) * energy om xi vi <= (1 + k) * E0)%R ∧
        ((1 - k) * E0 <= (1 + k) * energy om xi vi)%R.
Proof.
  intros p HN Hec Heu om dt k E0.
  destruct (undamped_integration_spec p _ HN (neg_pow2_R (Undamped.om p)))
    as (s & Hs & Hd & _ & _ & Hsz & Hx & Hv & Hob).
  rewrite Hec, Heu in Hob. specialize (Hob eq_refl).
  change (fdiv (Undamped.tmax p) (of_int (Undamped.N p))) with dt in Hd.
  exists s. split; [exact Hs|]. intros i xi vi Hi Hxi Hvi.
  assert (Hc : corrected_energy om dt xi vi
               = corrected_energy om dt (Undamped.x0 p) (Undamped.v0 p)).
  { apply (obeys_invariant EulerCromer (undamped_law (- (om * om))%R)
             (Z.to_nat (Undamped.N p)) s
             (fun _ a b => corrected_energy om dt a b
                           = corrected_energy om dt (Undamped.x0 p) (Undamped.v0 p)))
      with (i := i); try assumption.
    - intros a b Ha Hb. congruence.
    - intros j a b _ IH. rewrite <- IH, Hd, !corrected_energy_R.
      apply euler_cromer_step_energy_R. }
  split; [exact Hc|].
  destruct (corrected_energy_bounds om dt xi vi) as [L1 U1].
  destruct (corrected_energy_bounds om dt (Undamped.x0 p) (Undamped.v0 p)) as [L0 U0].
  fold k in L1, U1, L0, U0. fold E0 in L0, U0. rewrite Hc in L1, U1.
  split; lra.
Qed.

Lemma euler_cromer_conserves_corrected_energy_witness :
  let p := (Undamped.Params 100 5 (1 / 2) 5 true false false 5)%R in
  let dt := (5 / IZR 100)%R in
  let k := (Rabs (5 * dt) / 2)%R in
  let E0 := energy 5%R (1 / 2)%R 5%R in
  ∃ s, Undamped.integration p = Ok s ∧
    ∀ i xi vi, (i ≤ Z.to_nat 100)%nat →
      g_x s !! i = Some xi → g_v s !! i = Some vi →
      corrected_energy 5%R dt xi vi = corrected_energy 5%R dt (1 / 2)%R 5%R ∧
      ((1 - k) * energy 5%R xi vi <= (1 + k) * E0)%R ∧
      ((1 - k) * E0 <= (1 + k) * energy 5%R xi vi)%R.
Proof.
  intros p dt k E0.
  apply (euler_cromer_conserves_corrected_energy p); [simpl; lia | reflexivity | reflexivity].
Defined.

(** ** The exact solution, over the real numbers *)

Lemma ex_sol_Ok_R (t : list R) (om x0 v0 : R) (xe ve : list R) :
  Undamped.ex_sol t om x0 v0 = Ok (xe, ve) →
  om ≠ 0%R ∧
  ∀ k tk, t !! k = Some tk →
    xe !! k = Some (ex_x tk om x0 v0) ∧ ve !! k = Some (ex_v tk om x0 v0).
Proof.
  intros Hex.
  destruct (is_zero om) eqn:Hom.
  - unfold Undamped.ex_sol, py_div in Hex. rewrite Hom in Hex. discriminate.
  - split.
    + intros ->. pose proof (of_int_zero (F:=R)) as Hz.
      change (is_zero (F:=R) 0%R = true) in Hz. congruence.
    + destruct (ex_sol_ok t om x0 v0 Hom) as (xe' & ve' & He & _ & _ & Hk).
      assert (xe' = xe ∧ ve' = ve) as [-> ->] by (split; congruence). exact Hk.
Qed.

(** X6. Over the real numbers the samples that [ex_sol] returns all have
    the energy estimate of the initial conditions, and a sample at time 0 is
    the initial conditions themselves. *)
Theorem exact_solution_conserves_energy :
  ∀ (t : list R) (om x0 v0 : R) (xe ve : list R),
    Undamped.ex_sol t om x0 v0 = Ok (xe, ve) →
    ∀ k tk xk vk, t !! k = Some tk → xe !! k = Some xk → ve !! k = Some vk →
      energy om xk vk = energy om x0 v0 ∧
      (tk = 0%R → xk = x0 ∧ vk = v0).
Proof.
  intros t om x0 v0 xe ve Hex k tk xk vk Htk Hxk Hvk.
  destruct (ex_sol_Ok_R t om x0 v0 xe ve Hex) as [Hom Hk].
  destruct (Hk k tk Htk) as [Hx Hv].
  assert (xk = ex_x tk om x0 v0) as -> by congruence.
  assert (vk = ex_v tk om x0 v0) as -> by congruence.
  split.
  - rewrite !energy_R. unfold ex_x, ex_v. simpl.
    pose proof (sin2_cos2 (om * tk)) as Hsc. unfold Rsqr in Hsc.
    set (sn := sin (om * tk)) in *. set (cs := cos (om * tk)) in *.
    replace ((- x0 * om * sn + v0 * cs) * (- x0 * om * sn + v0 * cs) +
             om * om * ((x0 * cs + v0 / om * sn) * (x0 * cs + v0 / om * sn)))%R
      with ((v0 * v0 + om * om * (x0 * x0)) * (sn * sn + cs * cs))%R
      by (field; exact Hom).
    rewrite Hsc. field.
  - intros ->. unfold ex_x, ex_v. simpl.
    rewrite Rmult_0_r, cos_0, sin_0. split; ring.
Qed.

Lemma exact_solution_conserves_energy_witness :
  energy 5%R (ex_x 0 5 (1 / 2) 5)%R (ex_v 0 5 (1 / 2) 5)%R = energy 5%R (1 / 2)%R 5%R ∧
  (ex_x 0 5 (1 / 2) 5)%R = (1 / 2)%R ∧ (ex_v 0 5 (1 / 2) 5)%R = 5%R.
Proof.
  assert (Hex : Undamped.ex_sol [0; 1]%R 5%R (1 / 2)%R 5%R
                = Ok ([ex_x 0 5 (1 / 2) 5; ex_x 1 5 (1 / 2) 5]%R,
                      [ex_v 0 5 (1 / 2) 5; ex_v 1 5 (1 / 2) 5]%R)).
  { unfold Undamped.ex_sol, py_div.
    change (is_zero (F:=R) 5%R) with (Ris_zero 5%R).
    rewrite (Ris_zero_false 5%R) by lra. reflexivity. }
  destruct (exact_solution_conserves_energy _ _ _ _ _ _ Hex 0%nat 0%R
              (ex_x 0 5 (1 / 2) 5)%R (ex_v 0 5 (1 / 2) 5)%R eq_refl eq_refl eq_refl)
    as [HE H0].
  split; [exact HE | exact (H0 eq_refl)].
Defined.

(** X7. Over the real numbers, and for [om ≠ 0], the two formulas of
    [ex_sol] solve the equation of motion of the first cell: the velocity is
    the time derivative of the position, and the time derivative of the
    velocity is the acceleration that [acc] returns at the position. *)
Theorem exact_solution_solves_equation_of_motion :
  ∀ om x0 v0 t : R, om ≠ 0%R →
    derivable_pt_lim (fun u => ex_x u om x0 v0) t (ex_v t om x0 v0) ∧
    ∃ a, Undamped.acc (ex_x t om x0 v0) om = Ok a ∧
      derivable_pt_lim (fun u => ex_v u om x0 v0) t a.
Proof.
  intros om x0 v0 t Hom.
  assert (Hlin : derivable_pt_lim (mult_real_fct om id) t (om * 1)%R)
    by (apply derivable_pt_lim_scal, derivable_pt_lim_id).
  assert (Hcos : derivable_pt_lim (comp cos (mult_real_fct om id)) t
                   (- sin (om * t) * (om * 1))%R)
    by (apply derivable_pt_lim_comp; [exact Hlin | apply derivable_pt_lim_cos]).
  assert (Hsin : derivable_pt_lim (comp sin (mult_real_fct om id)) t
                   (cos (om * t) * (om * 1))%R)
    by (apply derivable_pt_lim_comp; [exact Hlin | apply derivable_pt_lim_sin]).
  assert (Hgen : ∀ a b : R,
            derivable_pt_lim (fun u => a * cos (om * u) + b * sin (om * u))%R t
              (a * (- sin (om * t) * (om * 1)) + b * (cos (om * t) * (om * 1)))%R).
  { intros a b.
    apply (derivable_pt_lim_ext
             (plus_fct (mult_real_fct a (comp cos (mult_real_fct om id)))
                       (mult_real_fct b (comp sin (mult_real_fct om id))))).
    - intros z. reflexivity.
    - apply derivable_pt_lim_plus; apply derivable_pt_lim_scal; assumption. }
  split.
  - replace (ex_v t om x0 v0)
      with (x0 * (- sin (om * t) * (om * 1)) + v0 / om * (cos (om * t) * (om * 1)))%R
      by (unfold ex_v; simpl; field; exact Hom).
    apply (derivable_pt_lim_ext (fun u => x0 * cos (om * u) + v0 / om * sin (om * u))%R);
      [intros z; reflexivity | apply Hgen].
  - exists (- (om * om) * ex_x t om x0 v0)%R. split; [reflexivity|].
    replace (- (om * om) * ex_x t om x0 v0)%R
      with (v0 * (- sin (om * t) * (om * 1)) + - x0 * om * (cos (om * t) * (om * 1)))%R
      by (unfold ex_x; simpl; field; exact Hom).
    apply (derivable_pt_lim_ext (fun u => v0 * cos (om * u) + - x0 * om * sin (om * u))%R);
      [intros z; unfold ex_v; simpl; ring | apply Hgen].
Qed.

Lemma exact_solution_solves_equation_of_motion_witness :
  derivable_pt_lim (fun u => ex_x u 5 (1 / 2) 5)%R 1 (ex_v 1 5 (1 / 2) 5)%R ∧
  ∃ a, Undamped.acc (ex_x 1 5 (1 / 2) 5)%R 5%R = Ok a ∧
    derivable_pt_lim (fun u => ex_v u 5 (1 / 2) 5)%R 1 a.
Proof.
  apply (exact_solution_solves_equation_of_motion 5 (1 / 2) 5 1)%R. lra.
Defined.

(** ** Special inputs, over the real numbers *)

Lemma sized_lists_eq {F : Type} `{Arith F} (n : nat) (s s' : globals F) :
  sized n s → sized n s' →
  (∀ i, (i ≤ n)%nat → g_x s !! i = g_x s' !! i ∧ g_v s !! i = g_v s' !! i) →
  g_x s = g_x s' ∧ g_v s = g_v s'.
Proof.
  intros [Lx Lv] [Lx' Lv'] Hle.
  split; apply list_eq; intros i; destruct (le_lt_dec i n) as [Hi|Hi];
    try (apply Hle; assumption);
    rewrite !lookup_ge_None_2 by lia; reflexivity.
Qed.

(** X8. Over the real numbers a horizon [tmax = 0], which the cells accept,
    gives the step [dt = 0] and a constant trajectory: every sample is the
    initial conditions. *)
Theorem zero_horizon_gives_constant_trajectory :
  (∀ p : Undamped.params (O:=R) (F:=R),
     1 ≤ Undamped.N p → Undamped.tmax p = 0%R →
     ∃ s, Undamped.integration p = Ok s ∧ g_dt s = 0%R ∧
       (Undamped.ec p || Undamped.eu p = true →
        ∀ i xi vi, (i ≤ Z.to_nat (Undamped.N p))%nat →
          g_x s !! i = Some xi → g_v s !! i = Some vi →
          xi = Undamped.x0 p ∧ vi = Undamped.v0 p)) ∧
  (∀ p : Damped.params (O:=R) (F:=R),
     1 ≤ Damped.N p → Damped.tmax p = 0%R →
     ∃ s, Damped.cell p = Ok s ∧ g_dt s = 0%R ∧
       ∀ i xi vi, (i ≤ Z.to_nat (Damped.N p))%nat →
         g_x s !! i = Some xi → g_v s !! i = Some vi →
         xi = Damped.x0 p ∧ vi = Damped.v0 p).
Proof.
  assert (Hconst : ∀ (sch : scheme) (law : R → R → R → R) (n : nat) (s : globals R) (x0 v0 : R),
            g_dt s = 0%R →
            g_x s !! 0%nat = Some x0 → g_v s !! 0%nat = Some v0 →
            (∀ i, (i < n)%nat → obeys sch law s i) →
            ∀ i xi vi, (i ≤ n)%nat → g_x s !! i = Some xi → g_v s !! i = Some vi →
              xi = x0 ∧ vi = v0).
  { intros sch law n s x0 v0 Hd Hx Hv Hob.
    apply (obeys_invariant sch law n s (fun _ a b => a = x0 ∧ b = v0)).
    - exact Hob.
    - intros a b Ha Hb. split; congruence.
    - intros i a b _ [-> ->]. unfold x_next, v_next. rewrite Hd.
      destruct sch; simpl; split; ring. }
  split.
  - intros p HN Htmax.
    destruct (undamped_integration_spec p _ HN (neg_pow2_R (Undamped.om p)))
      as (s & Hs & Hd & _ & _ & Hsz & Hx & Hv & Hob).
    assert (Hd0 : g_dt s = 0%R).
    { rewrite Hd, Htmax. simpl. unfold Rdiv. ring. }
    exists s. split; [exact Hs|]. split; [exact Hd0|]. intros Hflag.
    eapply Hconst; eauto.
  - intros p HN Htmax.
    rewrite (damped_cell_integrate p _ _ (coefficients_R (Damped.om p) (Damped.ze p))).
    destruct (integrate_spec EulerCromer
                (damped_law (- (Damped.om p * Damped.om p)) (Damped.ze p * Damped.om p))%R
                (Damped.tmax p) (Damped.N p) (Damped.x0 p) (Damped.v0 p) HN)
      as (s & Hs & Hd & _ & _ & Hsz & Hx & Hv & Hob).
    assert (Hd0 : g_dt s = 0%R).
    { rewrite Hd, Htmax. simpl. unfold Rdiv. ring. }
    exists s. split; [exact Hs|]. split; [exact Hd0|].
    eapply Hconst; eauto.
Qed.

Lemma zero_horizon_gives_constant_trajectory_witness :
  (∃ s, Undamped.integration (Undamped.Params 100 5 (1 / 2) 5 true false false 0)%R = Ok s ∧
     g_dt s = 0%R ∧
     ∀ i xi vi, (i ≤ Z.to_nat 100)%nat →
       g_x s !! i = Some xi → g_v s !! i = Some vi →
       xi = (1 / 2)%R ∧ vi = 5%R) ∧
  (∃ s, Damped.cell (Damped.Params 250 0 (1 / 10) 2 0 1)%R = Ok s ∧ g_dt s = 0%R ∧
     ∀ i xi vi, (i ≤ Z.to_nat 250)%nat →
       g_x s !! i = Some xi → g_v s !! i = Some vi → xi = 1%R ∧ vi = 0%R).
Proof.
  split.
  - destruct (proj1 zero_horizon_gives_constant_trajectory
                (Undamped.Params 100 5 (1 / 2) 5 true false false 0)%R
                ltac:(simpl; lia) eq_refl) as (s & Hs & Hd & Hall).
    exists s. split; [exact Hs|]. split; [exact Hd|]. exact (Hall eq_refl).
  - apply (proj2 zero_horizon_gives_constant_trajectory
             (Damped.Params 250 0 (1 / 10) 2 0 1)%R);
      [simpl; lia | reflexivity].
Defined.

(** X9. Over the real numbers the trajectories of the undamped and of the
    damped cell are homogeneous in the initial conditions: scaling [x0] and
    [v0] by a factor [c] scales every sample by [c]. *)
Theorem trajectory_scales_with_initial_conditions :
  (∀ (c : R) (N : Z) (om x0 v0 : R) (ec eu ex : bool) (tmax : R),
     1 ≤ N → ec || eu = true →
     ∃ s s',
       Undamped.integration (Undamped.Params N om x0 v0 ec eu ex tmax) = Ok s ∧
       Undamped.integration (Undamped.Params N om (c * x0) (c * v0) ec eu ex tmax)%R = Ok s' ∧
       ∀ i xi vi, (i ≤ Z.to_nat N)%nat →
         g_x s !! i = Some xi → g_v s !! i = Some vi →
         g_x s' !! i = Some (c * xi)%R ∧ g_v s' !! i = Some (c * vi)%R) ∧
  (∀ (c : R) (N : Z) (v0 ze om tmax x0 : R),
     1 ≤ N →
     ∃ s s',
       Damped.cell (Damped.Params N v0 ze om tmax x0) = Ok s ∧
       Damped.cell (Damped.Params N (c * v0) ze om tmax (c * x0))%R = Ok s' ∧
       ∀ i xi vi, (i ≤ Z.to_nat N)%nat →
         g_x s !! i = Some xi → g_v s !! i = Some vi →
         g_x s' !! i = Some (c * xi)%R ∧ g_v s' !! i = Some (c * vi)%R).
Proof.
  assert (Hscale : ∀ (c : R) (sch : scheme) (law : R → R → R → R) (n : nat)
                     (s s' : globals R) (x0 v0 : R),
            (∀ t x v, law t (c * x) (c * v) = c * law t x v)%R →
            sized n s' → g_dt s = g_dt s' →
            g_x s !! 0%nat = Some x0 → g_v s !! 0%nat = Some v0 →
            g_x s' !! 0%nat = Some (c * x0)%R → g_v s' !! 0%nat = Some (c * v0)%R →
            (∀ i, (i < n)%nat → obeys sch law s i) →
            (∀ i, (i < n)%nat → obeys sch law s' i) →
            ∀ i xi vi, (i ≤ n)%nat → g_x s !! i = Some xi → g_v s !! i = Some vi →
              g_x s' !! i = Some (c * xi)%R ∧ g_v s' !! i = Some (c * vi)%R).
  { intros c sch law n s s' x0 v0 Hlaw Hsz' Hdt Hx Hv Hx' Hv' Hob Hob' i xi vi Hi Hxi Hvi.
    destruct (sized_lookup n s' i Hsz' Hi) as (a' & b' & Ha' & Hb').
    rewrite Ha', Hb'.
    enough (a' = c * xi ∧ b' = c * vi)%R as [-> ->] by auto.
    apply (obeys_related sch sch law law n s s'
             (fun _ a b a' b' => a' = c * a ∧ b' = c * b)%R) with (i := i);
      try assumption.
    - intros a b a1 b1 Ha Hb Ha1 Hb1. split; congruence.
    - intros j a b a1 b1 _ [-> ->]. unfold x_next, v_next. rewrite <- Hdt, !Hlaw.
      destruct sch; simpl; split; ring. }
  split.
  - intros c N om x0 v0 ec eu ex tmax HN Hflag.
    destruct (undamped_integration_spec (Undamped.Params N om x0 v0 ec eu ex tmax) _ HN
                (neg_pow2_R om))
      as (s & Hs & Hd & _ & _ & Hsz & Hx & Hv & Hob).
    destruct (undamped_integration_spec
                (Undamped.Params N om (c * x0) (c * v0) ec eu ex tmax)%R _ HN
                (neg_pow2_R om))
      as (s' & Hs' & Hd' & _ & _ & Hsz' & Hx' & Hv' & Hob').
    simpl in *. exists s, s'. split; [exact Hs|]. split; [exact Hs'|].
    apply (Hscale c (if eu then Euler else EulerCromer) (undamped_law (- (om * om))%R)
             _ s s' x0 v0);
      auto; try congruence.
    intros t x v. unfold undamped_law. simpl. ring.
  - intros c N v0 ze om tmax x0 HN.
    rewrite (damped_cell_integrate (Damped.Params N v0 ze om tmax x0) _ _
               (coefficients_R om ze)).
    rewrite (damped_cell_integrate (Damped.Params N (c * v0) ze om tmax (c * x0))%R _ _
               (coefficients_R om ze)).
    simpl.
    set (law := damped_law (- (om * om))%R (ze * om)%R).
    destruct (integrate_spec EulerCromer law tmax N x0 v0 HN)
      as (s & Hs & Hd & _ & _ & Hsz & Hx & Hv & Hob).
    destruct (integrate_spec EulerCromer law tmax N (c * x0)%R (c * v0)%R HN)
      as (s' & Hs' & Hd' & _ & _ & Hsz' & Hx' & Hv' & Hob').
    exists s, s'. split; [exact Hs|]. split; [exact Hs'|].
    apply (Hscale c EulerCromer law _ s s' x0 v0);
      auto; try congruence.
    intros t x v. unfold law, damped_law. simpl. ring.
Qed.

Lemma trajectory_scales_with_initial_conditions_witness :
  (∃ s s',
     Undamped.integration (Undamped.Params 100 5 (1 / 2) 5 true false false 5)%R = Ok s ∧
     Undamped.integration
       (Undamped.Params 100 5 (3 * (1 / 2)) (3 * 5) true false false 5)%R = Ok s' ∧
     ∀ i xi vi, (i ≤ Z.to_nat 100)%nat →
       g_x s !! i = Some xi → g_v s !! i = Some vi →
       g_x s' !! i = Some (3 * xi)%R ∧ g_v s' !! i = Some (3 * vi)%R) ∧
  (∃ s s',
     Damped.cell (Damped.Params 250 0 (1 / 10) 2 20 1)%R = Ok s ∧
     Damped.cell (Damped.Params 250 (3 * 0) (1 / 10) 2 20 (3 * 1))%R = Ok s' ∧
     ∀ i xi vi, (i ≤ Z.to_nat 250)%nat →
       g_x s !! i = Some xi → g_v s !! i = Some vi →
       g_x s' !! i = Some (3 * xi)%R ∧ g_v s' !! i = Some (3 * vi)%R).
Proof.
  split.
  - apply (proj1 trajectory_scales_with_initial_conditions 3%R 100); [lia | reflexivity].
  - apply (proj2 trajectory_scales_with_initial_conditions 3%R 250). lia.
Defined.

(** ** The three cells compared, over the real numbers *)

(** Trajectories of two laws that agree on every state, run with the same
    scheme, step and initial conditions over arrays of the same size, are
    equal. *)
Lemma obeys_equal_laws {F : Type} `{Arith F} (sch : scheme) (law law' : F → F → F → F)
    (n : nat) (s s' : globals F) :
  (∀ t x v, law t x v = law' t x v) →
  sized n s → sized n s' → g_dt s = g_dt s' →
  g_x s !! 0%nat = g_x s' !! 0%nat → g_v s !! 0%nat = g_v s' !! 0%nat →
  (∀ i, (i < n)%nat → obeys sch law s i) →
  (∀ i, (i < n)%nat → obeys sch law' s' i) →
  g_x s = g_x s' ∧ g_v s = g_v s'.
Proof.
  intros Hlaw Hsz Hsz' Hdt Hx0 Hv0 Hob Hob'.
  apply (sized_lists_eq n); try assumption. intros i Hi.
  destruct (sized_lookup n s i Hsz Hi) as (a & b & Ha & Hb).
  destruct (sized_lookup n s' i Hsz' Hi) as (a' & b' & Ha' & Hb').
  rewrite Ha, Hb, Ha', Hb'.
  enough (a = a' ∧ b = b') as [-> ->] by auto.
  apply (obeys_related sch sch law law' n s s'
           (fun _ a b a' b' => a = a' ∧ b = b')) with (i := i); try assumption.
  - intros. split; congruence.
  - intros j c d c' d' _ [-> ->]. unfold x_next, v_next. rewrite Hdt, !Hlaw. auto.
Qed.

(** X10. Over the real numbers the cells extend one another: the damped
    cell with damping ratio [ze = 0] computes the position and velocity
    arrays of the Euler-Cromer loop of the first cell, and the driven cell
    with driving amplitude [a0 = 0] computes those of the damped cell with
    [v0 = 0] and [tmax = 100 pi / om_d]. *)
Theorem cells_extend_one_another :
  (∀ (N : Z) (om x0 v0 tmax : R) (ex : bool),
     1 ≤ N →
     ∃ s s',
       Damped.cell (Damped.Params N v0 0 om tmax x0)%R = Ok s ∧
       Undamped.integration (Undamped.Params N om x0 v0 true false ex tmax) = Ok s' ∧
       g_x s = g_x s' ∧ g_v s = g_v s' ∧ g_t s = g_t s' ∧ g_dt s = g_dt s') ∧
  (∀ (N : Z) (om ze om_d x0 : R),
     1 ≤ N → om_d ≠ 0%R →
     ∃ s s',
       Driven.cell (Driven.Params N om ze om_d x0 0)%R = Ok s ∧
       Damped.cell (Damped.Params N 0 ze om (100 * PI / om_d) x0)%R = Ok s' ∧
       g_x s = g_x s' ∧ g_v s = g_v s' ∧ g_t s = g_t s' ∧ g_dt s = g_dt s').
Proof.
  split.
  - intros N om x0 v0 tmax ex HN.
    rewrite (damped_cell_integrate (Damped.Params N v0 0 om tmax x0)%R _ _
               (coefficients_R om 0%R)).
    simpl.
    set (law := damped_law (- (om * om))%R (0 * om)%R).
    destruct (integrate_spec EulerCromer law tmax N x0 v0 HN)
      as (s & Hs & Hd & Ht & _ & Hsz & Hx & Hv & Hob).
    destruct (undamped_integration_spec (Undamped.Params N om x0 v0 true false ex tmax) _ HN
                (neg_pow2_R om))
      as (s' & Hs' & Hd' & Ht' & _ & Hsz' & Hx' & Hv' & Hob').
    simpl in *. specialize (Hob' eq_refl).
    exists s, s'. split; [exact Hs|]. split; [exact Hs'|].
    destruct (obeys_equal_laws EulerCromer law (undamped_law (- (om * om))%R)
                (Z.to_nat N) s s') as [Ex Ev]; try assumption; try congruence.
    { intros t x v. unfold law, damped_law, undamped_law. simpl. ring. }
    repeat split; congruence.
  - intros N om ze om_d x0 HN Hom.
    rewrite (driven_cell_integrate (Driven.Params N om ze om_d x0 0)%R _ _
               (coefficients_R om ze)).
    rewrite (damped_cell_integrate (Damped.Params N 0 ze om (100 * PI / om_d) x0)%R _ _
               (coefficients_R om ze)).
    simpl.
    unfold py_div. change (is_zero (F:=R) om_d) with (Ris_zero om_d).
    rewrite (Ris_zero_false om_d Hom). simpl.
    set (lawd := driven_law (- (om * om))%R (ze * om)%R 0%R om_d).
    set (law := damped_law (- (om * om))%R (ze * om)%R).
    destruct (integrate_spec EulerCromer lawd (100 * PI / om_d)%R N x0 0%R HN)
      as (s & Hs & Hd & Ht & _ & Hsz & Hx & Hv & Hob).
    destruct (integrate_spec EulerCromer law (100 * PI / om_d)%R N x0 0%R HN)
      as (s' & Hs' & Hd' & Ht' & _ & Hsz' & Hx' & Hv' & Hob').
    exists s, s'. split; [exact Hs|]. split; [exact Hs'|].
    destruct (obeys_equal_laws EulerCromer lawd law
                (Z.to_nat N) s s') as [Ex Ev]; try assumption; try congruence.
    { intros t x v. unfold lawd, law, driven_law, damped_law. simpl. ring. }
    repeat split; congruence.
Qed.

Lemma cells_extend_one_another_witness :
  (∃ s s',
     Damped.cell (Damped.Params 100 5 0 5 5 (1 / 2))%R = Ok s ∧
     Undamped.integration (Undamped.Params 100 5 (1 / 2) 5 true false false 5)%R = Ok s' ∧
     g_x s = g_x s' ∧ g_v s = g_v s' ∧ g_t s = g_t s' ∧ g_dt s = g_dt s') ∧
  (∃ s s',
     Driven.cell (Driven.Params 10000 2 (1 / 10) 2 1 0)%R = Ok s ∧
     Damped.cell (Damped.Params 10000 0 (1 / 10) 2 (100 * PI / 2) 1)%R = Ok s' ∧
     g_x s = g_x s' ∧ g_v s = g_v s' ∧ g_t s = g_t s' ∧ g_dt s = g_dt s').
Proof.
  split.
  - apply (proj1 cells_extend_one_another 100 5%R (1 / 2)%R 5%R 5%R false). lia.
  - apply (proj2 cells_extend_one_another 10000 2%R (1 / 10)%R 2%R 1%R); [lia | lra].
Defined.

(** ** The times of the law and the two time grids *)

(** X11. The time [i*dt] that iteration [i] passes to the acceleration law
    is the sample [t[i]] of the time grid: in binary64 for every iteration
    [i < N] of a run with a finite [tmax > 0] whose step [dt] is a finite
    non-zero number, whatever the law; over the real numbers for every
    sample [i ≤ N] of the driven cell, the one whose law reads the time. *)
Theorem law_time_is_grid_time :
  (∀ (sch : scheme) (law : spec_float → spec_float → spec_float → spec_float)
     (m : positive) (e : Z) (ms : positive) (es : Z) (N : Z) (x0 v0 : spec_float),
     1 ≤ N →
     fdiv (S754_finite false m e) (of_int N) = S754_finite false ms es →
     ∃ s, integrate sch law (S754_finite false m e) N x0 v0 = Ok s ∧
       ∀ i, (i < Z.to_nat N)%nat →
         g_t s !! i = Some (fmul (of_int (Z.of_nat i)) (g_dt s))) ∧
  (∀ p : Driven.params (O:=R) (F:=R),
     1 ≤ Driven.N p → Driven.om_d p ≠ 0%R →
     ∃ s, Driven.cell p = Ok s ∧
       ∀ i, (i ≤ Z.to_nat (Driven.N p))%nat →
         g_t s !! i = Some (IZR (Z.of_nat i) * g_dt s)%R).
Proof.
  split.
  - intros sch law m e ms es N x0 v0 HN Hstep.
    destruct (integrate_spec sch law (S754_finite false m e) N x0 v0 HN)
      as (s & Hs & Hd & Ht & _).
    destruct (float64_linspace m e N ms es HN Hstep) as (t & Ht' & _ & _ & Hi).
    assert (t = g_t s) as -> by congruence.
    exists s. split; [exact Hs|]. intros i Hlt. rewrite Hd, Hstep. apply Hi, Hlt.
  - intros p HN Hom.
    rewrite (driven_cell_integrate p _ _ (coefficients_R (Driven.om p) (Driven.ze p))).
    unfold py_div. change (is_zero (F:=R) (Driven.om_d p)) with (Ris_zero (Driven.om_d p)).
    rewrite (Ris_zero_false _ Hom). simpl.
    destruct (integrate_spec EulerCromer
                (driven_law (- (Driven.om p * Driven.om p))%R (Driven.ze p * Driven.om p)%R
                   (Driven.a0 p) (Driven.om_d p))
                (100 * PI / Driven.om_d p)%R (Driven.N p) (Driven.x0 p) 0%R HN)
      as (s & Hs & Hd & Ht & _).
    destruct (R_linspace (100 * PI / Driven.om_d p)%R (Driven.N p) HN) as (t & Ht' & Hi).
    assert (t = g_t s) as -> by congruence.
    exists s. split; [exact Hs|]. intros i Hle. rewrite Hd. apply Hi, Hle.
Qed.

Lemma law_time_is_grid_time_witness :
  (∃ s, integrate EulerCromer (undamped_law (of_int (-25))) (of_int 5) 100 (b64 1 (-1))
          (of_int 5)
        = Ok s ∧
     ∀ i, (i < Z.to_nat 100)%nat →
       g_t s !! i = Some (fmul (of_int (Z.of_nat i)) (g_dt s))) ∧
  (∃ s, Driven.cell driven_nb = Ok s ∧
     ∀ i, (i ≤ Z.to_nat 10000)%nat →
       g_t s !! i = Some (IZR (Z.of_nat i) * g_dt s)%R).
Proof.
  split.
  - exact (proj1 law_time_is_grid_time EulerCromer (undamped_law (of_int (-25)))
             5629499534213120%positive (-50) 7205759403792794%positive (-57)
             100 (b64 1 (-1)) (of_int 5) ltac:(lia) eq_refl).
  - apply (proj2 law_time_is_grid_time driven_nb); [simpl; lia | simpl; lra].
Defined.

(** X12. Over the real numbers the exact solution of the first cell is
    sampled at the 100 times [k * tmax/99], whatever [N] is, while the
    trajectory is sampled at the times [k * tmax/N]: for [tmax ≠ 0] and
    [N ≠ 99], so also for the [N = 100] of the notebook, no sample of the
    exact solution after the first is taken at the time of the trajectory
    sample of the same index. *)
Theorem exact_solution_has_its_own_grid :
  ∀ p : Undamped.params (O:=R) (F:=R),
    1 ≤ Undamped.N p → Undamped.ex p = true → Undamped.om p ≠ 0%R →
    ∃ s t_ex x_ex v_ex,
      Undamped.cell p = Ok (s, Some (t_ex, x_ex, v_ex)) ∧
      (∀ k, (k ≤ 99)%nat →
         t_ex !! k = Some (IZR (Z.of_nat k) * (Undamped.tmax p / 99))%R) ∧
      (∀ k, (k ≤ Z.to_nat (Undamped.N p))%nat →
         g_t s !! k = Some (IZR (Z.of_nat k) * (Undamped.tmax p / IZR (Undamped.N p)))%R) ∧
      (Undamped.tmax p ≠ 0%R → Undamped.N p ≠ 99 →
       ∀ k, (0 < k)%nat → (k ≤ 99)%nat → (k ≤ Z.to_nat (Undamped.N p))%nat →
         g_t s !! k ≠ t_ex !! k).
Proof.
  intros p HN Hex Hom.
  destruct (undamped_integration_spec p _ HN (neg_pow2_R (Undamped.om p)))
    as (s & Hs & _ & Ht & _).
  destruct (R_linspace (Undamped.tmax p) (Undamped.N p) HN) as (t & Ht' & Hgrid).
  assert (t = g_t s) as -> by congruence.
  destruct (R_linspace (Undamped.tmax p) 99 ltac:(lia)) as (te & Hte & Hex_grid).
  change (99 + 1) with 100 in Hte. change (Z.to_nat 99) with 99%nat in Hex_grid.
  assert (Hz : is_zero (F:=R) (Undamped.om p) = false) by exact (Ris_zero_false _ Hom).
  destruct (ex_sol_ok te (Undamped.om p) (Undamped.x0 p) (Undamped.v0 p) Hz)
    as (xe & ve & He & _).
  exists s, te, xe, ve.
  assert (Hexact : Undamped.exact p = Ok (Some (te, xe, ve))).
  { unfold Undamped.exact. rewrite Hex, Hte. simpl. rewrite He. reflexivity. }
  split.
  { unfold Undamped.cell. rewrite Hs. unfold mbind, result_bind. cbv beta iota.
    rewrite Hexact. reflexivity. }
  split; [exact Hex_grid|]. split; [exact Hgrid|].
  intros Htmax HN99 k Hk0 Hk99 HkN.
  rewrite Hgrid, Hex_grid by assumption. intros [= E].
  assert (HkR : (0 < IZR (Z.of_nat k))%R) by (apply IZR_lt; lia).
  assert (HNR : (0 < IZR (Undamped.N p))%R) by (apply IZR_lt; lia).
  apply Rmult_eq_reg_l in E; [|lra].
  assert (E' : (Undamped.tmax p * 99 = Undamped.tmax p * IZR (Undamped.N p))%R).
  { apply (Rmult_eq_compat_r (99 * IZR (Undamped.N p))%R) in E.
    field_simplify in E; lra. }
  apply Rmult_eq_reg_l in E'; [|exact Htmax].
  apply HN99. apply eq_IZR. symmetry. exact E'.
Qed.

Lemma exact_solution_has_its_own_grid_witness :
  let p := (Undamped.Params 100 5 (1 / 2) 5 true false true 5)%R in
  ∃ s t_ex x_ex v_ex,
    Undamped.cell p = Ok (s, Some (t_ex, x_ex, v_ex)) ∧
    (∀ k, (k ≤ 99)%nat → t_ex !! k = Some (IZR (Z.of_nat k) * (5 / 99))%R) ∧
    (∀ k, (k ≤ Z.to_nat 100)%nat → g_t s !! k = Some (IZR (Z.of_nat k) * (5 / IZR 100))%R) ∧
    (∀ k, (0 < k)%nat → (k ≤ 99)%nat → (k ≤ Z.to_nat 100)%nat →
       g_t s !! k ≠ t_ex !! k).
Proof.
  intros p.
  destruct (exact_solution_has_its_own_grid p ltac:(simpl; lia) eq_refl ltac:(simpl; lra))
    as (s & te & xe & ve & Hc & Hte & Ht & Hne).
  exists s, te, xe, ve. split; [exact Hc|]. split; [exact Hte|]. split; [exact Ht|].
  apply Hne; [simpl; lra | simpl; lia].
Defined.

(** ** The oscillator at rest, in binary64 *)

(** X13. In binary64 the first cell keeps the oscillator at rest: for
    [x0 = 0], [v0 = 0], an [om] of any Python type for which [-om**2]
    evaluates to a finite number, and a finite step [dt], every sample of
    the Euler and of the Euler-Cromer trajectory is [+0.0], for every step
    count [N ≥ 1]. *)
Theorem oscillator_at_rest_stays_at_rest :
  ∀ (O : Type) (Num : Number O spec_float) (N : Z) (om : O) (w : spec_float)
    (ec eu ex : bool) (tmax : spec_float),
    1 ≤ N → ec || eu = true →
    neg_pow2 om = Ok w → SFfinite w = true →
    SFfinite (fdiv tmax (of_int N)) = true →
    ∃ s, Undamped.integration (Undamped.Params N om (of_int 0) (of_int 0) ec eu ex tmax) = Ok s ∧
      ∀ i xi vi, (i ≤ Z.to_nat N)%nat →
        g_x s !! i = Some xi → g_v s !! i = Some vi →
        xi = S754_zero false ∧ vi = S754_zero false.
Proof.
  intros O Num N om w ec eu ex tmax HN Hflag Hw Hom Hdt.
  destruct (undamped_integration_spec
              (Undamped.Params N om (of_int 0) (of_int 0) ec eu ex tmax) w HN Hw)
    as (s & Hs & Hd & _ & _ & Hsz & Hx & Hv & Hob).
  assert (Hdt' : SFfinite (g_dt s) = true) by (rewrite Hd; exact Hdt).
  simpl in Hs, Hsz, Hx, Hv, Hob.
  specialize (Hob Hflag).
  exists s. split; [exact Hs|].
  apply (obeys_invariant (if eu then Euler else EulerCromer) (undamped_law w)
           (Z.to_nat N) s (fun _ a b => a = S754_zero false ∧ b = S754_zero false)).
  - exact Hob.
  - intros a b Ha Hb. split; congruence.
  - intros i a b _ [-> ->].
    unfold x_next, v_next, undamped_law.
    clear - Hom Hdt'. revert Hom Hdt'.
    destruct w as [so|so| |so mo eo]; try discriminate;
      destruct (g_dt s) as [sd|sd| |sd md ed]; try discriminate;
      intros _ _; destruct eu, so, sd; split; reflexivity.
Qed.

Lemma oscillator_at_rest_stays_at_rest_witness :
  ∃ s, Undamped.integration
         (Undamped.Params 100 5 (of_int 0) (of_int 0) true false false (of_int 5))
       = Ok s ∧
    ∀ i xi vi, (i ≤ Z.to_nat 100)%nat →
      g_x s !! i = Some xi → g_v s !! i = Some vi →
      xi = S754_zero false ∧ vi = S754_zero false.
Proof.
  apply (oscillator_at_rest_stays_at_rest Z _ 100 5 (of_int (-25)) true false false (of_int 5));
    [lia | reflexivity | vm_compute; reflexivity | reflexivity | vm_compute; reflexivity].
Defined.
